(** * The OPM run-time parameter system: a shallow embedding

    Embedding of [opm/models/utils/parametersystem.hpp] and
    [opm/models/utils/parametersystem.cpp]: the key/value lexer, the name
    transformer, the registry with its two-phase life cycle, the typed
    resolution of values, the two front ends (command line and parameter
    file) and the line-wrapping helper.

    Conventions.
    - [std::string] is [string]; a [char] is an [ascii], classified as in
      the C locale.
    - A C++ exception is a value of [exn]; a function that can throw
      returns a [result].  Functions working on the process-wide
      [MetaData] singleton take the store and return it next to their
      result, so that what a throwing call leaves behind stays visible.
    - The [int] variables of [breakLines] are [Z]: for a text shorter
      than [2^31 - 2] characters and an indentation below [2^31 - 1] no
      operation of the function leaves the range of a 32-bit [int]. *)

From Stdlib Require Import ZArith NArith Ascii String Lia.
From Stdlib Require Import DecimalString DecimalPos DecimalZ.
From stdpp Require Import gmap strings list.

Local Open Scope Z_scope.

(** ** Characters *)

Definition dquote : ascii := "034"%char.
Definition backslash : ascii := "092"%char.
Definition hyphen : ascii := "-"%char.
Definition newline : ascii := "010"%char.
Definition carriage_return : ascii := "013"%char.
Definition tab : ascii := "009"%char.

Definition in_range (lo hi : N) (c : ascii) : bool :=
  (lo <=? N_of_ascii c)%N && (N_of_ascii c <=? hi)%N.

(** [<cctype>] in the C locale. *)
Definition isspace (c : ascii) : bool := in_range 9 13 c || (N_of_ascii c =? 32)%N.
Definition isupper (c : ascii) : bool := in_range 65 90 c.
Definition islower (c : ascii) : bool := in_range 97 122 c.
Definition isdigit (c : ascii) : bool := in_range 48 57 c.
Definition isalpha (c : ascii) : bool := isupper c || islower c.
Definition isalnum (c : ascii) : bool := isalpha c || isdigit c.
Definition toupper (c : ascii) : ascii :=
  if islower c then ascii_of_N (N_of_ascii c - 32) else c.
Definition tolower (c : ascii) : ascii :=
  if isupper c then ascii_of_N (N_of_ascii c + 32) else c.

Definition is_char (a c : ascii) : bool := bool_decide (a = c).

(** ** Exceptions and results *)

Inductive exn : Type :=
  | runtime_error (what : string)   (* std::runtime_error *)
  | logic_error (what : string)     (* std::logic_error *)
  | out_of_range                    (* std::out_of_range of basic_string::substr *)
  | RangeError.                     (* Dune::RangeError of ParameterTree::get *)

Inductive result (A : Type) : Type :=
  | Ok (a : A)
  | Throw (e : exn).
Arguments Ok {A} a.
Arguments Throw {A} e.

Definition result_map {A B} (f : A → B) (r : result A) : result B :=
  match r with Ok a => Ok (f a) | Throw e => Throw e end.

Definition is_Ok {A} (r : result A) : bool :=
  match r with Ok _ => true | Throw _ => false end.

Global Instance result_ret : MRet result := λ A a, Ok a.
Global Instance result_bind : MBind result :=
  λ A B f r, match r with Ok a => f a | Throw e => Throw e end.

Global Instance exn_eq_dec : EqDecision exn.
Proof. solve_decision. Defined.

(** ** Strings *)

Definition str1 (c : ascii) : string := String c EmptyString.

(** [s.substr(pos)]: throws when [pos] lies behind the end. *)
Fixpoint substr_from (pos : nat) (s : string) : result string :=
  match pos, s with
  | O, _ => Ok s
  | S _, EmptyString => Throw out_of_range
  | S p, String _ s' => substr_from p s'
  end.

(** [std::to_string] of an [unsigned]. *)
Definition to_string_unsigned (n : N) : string :=
  NilZero.string_of_uint (N.to_uint n).

(** The first character of the text, every character of the text,
    satisfies [P]. *)
Definition starts_with (P : ascii → bool) (s : string) : bool :=
  match s with String c _ => P c | EmptyString => false end.

Fixpoint all_chars (P : ascii → bool) (s : string) : bool :=
  match s with
  | EmptyString => true
  | String c s' => P c && all_chars P s'
  end.

(** ** The key/value lexer (parametersystem.cpp) *)

(** [removeLeadingSpace]: the text from its first non-space character on. *)
Fixpoint removeLeadingSpace (s : string) : string :=
  match s with
  | EmptyString => EmptyString
  | String c s' => if isspace c then removeLeadingSpace s' else s
  end.

(** [parseKey]: the characters before the first white space or [=], and
    what the argument is left with. *)
Fixpoint parseKey (s : string) : string * string :=
  match s with
  | EmptyString => (EmptyString, EmptyString)
  | String c s' =>
      if isspace c || is_char "=" c then (EmptyString, s)
      else let '(ret, rest) := parseKey s' in (String c ret, rest)
  end.

(** [parseUnquotedValue]: the characters before the first white space. *)
Fixpoint parseUnquotedValue (s : string) : string * string :=
  match s with
  | EmptyString => (EmptyString, EmptyString)
  | String c s' =>
      if isspace c then (EmptyString, s)
      else let '(ret, rest) := parseUnquotedValue s' in (String c ret, rest)
  end.

(** The loop of [parseQuotedValue], entered behind the opening quote.
    [Ok (result, rest)] is the value and the text behind the closing quote.
    When the text ends before a closing quote, the loop leaves with
    [i = s.size()] and [s.substr(i+1)] throws. *)
Fixpoint parseQuotedValue_loop (errorPrefix : string) (s : string)
  : result (string * string) :=
  match s with
  | EmptyString => Throw out_of_range
  | String c s' =>
      if is_char backslash c then
        match s' with
        | EmptyString =>
            Throw (runtime_error (errorPrefix +:+ "Unexpected end of quoted string"))
        | String e s'' =>
            let continue (x : ascii) :=
              result_map (λ '(r, rest), (String x r, rest))
                         (parseQuotedValue_loop errorPrefix s'') in
            if is_char "n" e then continue newline
            else if is_char "r" e then continue carriage_return
            else if is_char "t" e then continue tab
            else if is_char dquote e then continue dquote
            else if is_char backslash e then continue backslash
            else Throw (runtime_error
                          (errorPrefix +:+ "Unknown escape character '" +:+ str1 backslash
                                       +:+ str1 e +:+ "'"))
        end
      else if is_char dquote c then Ok (EmptyString, s')
      else result_map (λ '(r, rest), (String c r, rest))
                      (parseQuotedValue_loop errorPrefix s')
  end.

Definition parseQuotedValue (s errorPrefix : string) : result (string * string) :=
  match s with
  | EmptyString => Throw (runtime_error (errorPrefix +:+ "Expected quoted string"))
  | String c s' =>
      if is_char dquote c then parseQuotedValue_loop errorPrefix s'
      else Throw (runtime_error (errorPrefix +:+ "Expected quoted string"))
  end.

(** The five escape sequences, each translated to one character. *)
Definition escape_of (e : ascii) : option ascii :=
  if is_char "n" e then Some newline
  else if is_char "r" e then Some carriage_return
  else if is_char "t" e then Some tab
  else if is_char dquote e then Some dquote
  else if is_char backslash e then Some backslash
  else None.

(** A text without a quote and without a backslash. *)
Definition plain (s : string) : bool :=
  all_chars (λ c, negb (is_char dquote c) && negb (is_char backslash c)) s.

(** ** The name transformer *)

Definition invalid_name (errorPrefix s : string) : exn :=
  runtime_error (errorPrefix +:+ "Invalid parameter name '" +:+ s +:+ "'").

(** The loop of [transformKey] over the characters behind the first;
    [s] is the whole key, kept for the message. *)
Fixpoint transformKey_loop (errorPrefix s : string) (rest : string) : result string :=
  match rest with
  | EmptyString => Ok EmptyString
  | String c rest' =>
      if is_char hyphen c then
        match rest' with
        | EmptyString => Throw (invalid_name errorPrefix s)
        | String d rest'' =>
            if isalpha d
            then result_map (String (toupper d)) (transformKey_loop errorPrefix s rest'')
            else Throw (invalid_name errorPrefix s)
        end
      else if negb (isalnum c) then Throw (invalid_name errorPrefix s)
      else result_map (String c) (transformKey_loop errorPrefix s rest')
  end.

Definition transformKey (s : string) (capitalizeFirstLetter : bool)
    (errorPrefix : string) : result string :=
  match s with
  | EmptyString =>
      Throw (runtime_error (errorPrefix +:+ "Empty parameter names are invalid"))
  | String c rest =>
      if negb (isalpha c) then
        Throw (runtime_error (errorPrefix +:+ "Parameter name '" +:+ s
                 +:+ "' is invalid: First character must be a letter"))
      else
        result_map (String (if capitalizeFirstLetter then toupper c else c))
                   (transformKey_loop errorPrefix s rest)
  end.

(** The conversion of a CamelCase name to its command-line form in
    [printParamUsage]: the loop, and the loop run on the initial [-]. *)
Fixpoint hyphenate (camelCaseName : string) : string :=
  match camelCaseName with
  | EmptyString => EmptyString
  | String c rest =>
      if isupper c then String hyphen (String (tolower c) (hyphenate rest))
      else String (tolower c) (hyphenate rest)
  end.

Definition cmdLineName (camelCaseName : string) : string :=
  String hyphen (hyphenate camelCaseName).

(** ** Parameters and their values *)

(** The type of [Param::value], as [ParamType] in [Get] and [Register]
    sees it. *)
Inductive ParamType : Type := TString | TBool | TInt | TScalar.

Global Instance ParamType_eq_dec : EqDecision ParamType.
Proof. solve_decision. Defined.

(** What the parameter system needs from its surroundings: the
    floating-point type with its text conversions, the typed parsers
    behind [Dune::ParameterTree::get<T>], and [Dune::className]. *)
Class Externals : Type := {
  Scalar : Type;
  (* operator<< of a floating-point value *)
  scalar_to_text : Scalar → string;
  (* std::strtod or std::from_chars on the default text; the first
     argument is the value the variable holds before the call *)
  scalar_from_text : Scalar → string → Scalar;
  (* Dune::ParameterTree::Parser<T>::parse; fails with Dune::RangeError *)
  tree_parse_string : string → result string;
  tree_parse_bool : string → result bool;
  tree_parse_int : string → result Z;
  tree_parse_scalar : string → result Scalar;
  (* Dune::className<ParamType>() *)
  className : ParamType → string;
}.

Section ParameterSystem.
Context `{Ext : Externals}.

Inductive ParamValue : Type :=
  | VString (s : string)
  | VBool (b : bool)
  | VInt (z : Z)
  | VScalar (x : Scalar).

Definition type_of (v : ParamValue) : ParamType :=
  match v with
  | VString _ => TString | VBool _ => TBool | VInt _ => TInt | VScalar _ => TScalar
  end.

(** A parameter struct: what [detail::getParamName<Param>()] returns and
    the compiled-in [Param::value]. *)
Record Param : Type := { name : string; value : ParamValue }.

(** [oss << v]: a [bool] prints as [1] or [0]. *)
Definition to_text (v : ParamValue) : string :=
  match v with
  | VString s => s
  | VBool b => if b then "1" else "0"
  | VInt z => NilZero.string_of_int (Z.to_int z)
  | VScalar x => scalar_to_text x
  end.

(** The number the leading digits of a text stand for, behind the digits
    counted in [acc]. *)
Definition digit_value (c : ascii) : Z := Z.of_N (N_of_ascii c) - 48.

Fixpoint digits_prefix (acc : Z) (s : string) : Z :=
  match s with
  | EmptyString => acc
  | String c s' => if isdigit c then digits_prefix (10 * acc + digit_value c) s' else acc
  end.

Definition INT_MIN : Z := - 2 ^ 31.
Definition INT_MAX : Z := 2 ^ 31 - 1.

(** [std::from_chars] on an [int], base ten: an optional minus sign and
    the longest run of digits.  Without a digit, or with a number that an
    [int] cannot hold, the variable keeps its value. *)
Definition from_chars_int (s : string) (value : Z) : Z :=
  let '(sign, body) :=
    match s with
    | String c s' => if is_char hyphen c then (-1, s') else (1, s)
    | EmptyString => (1, s)
    end in
  if starts_with isdigit body then
    let v := sign * digits_prefix 0 body in
    if (INT_MIN <=? v) && (v <=? INT_MAX) then v else value
  else value.

(** ** The registry *)

Record ParamInfo : Type := {
  paramName : string;
  paramTypeName : string;
  typeTagName : string;
  usageString : string;
  defaultValue : string;
  isHidden : bool;
}.

(** [ParamInfo::operator==] *)
Definition ParamInfo_eqb (self other : ParamInfo) : bool :=
  String.eqb (paramName other) (paramName self)
  && String.eqb (paramTypeName other) (paramTypeName self)
  && String.eqb (typeTagName other) (typeTagName self)
  && String.eqb (usageString other) (usageString self).

Definition with_defaultValue (text : string) (info : ParamInfo) : ParamInfo :=
  {| paramName := paramName info; paramTypeName := paramTypeName info;
     typeTagName := typeTagName info; usageString := usageString info;
     defaultValue := text; isHidden := isHidden info |}.
Definition with_isHidden (b : bool) (info : ParamInfo) : ParamInfo :=
  {| paramName := paramName info; paramTypeName := paramTypeName info;
     typeTagName := typeTagName info; usageString := usageString info;
     defaultValue := defaultValue info; isHidden := b |}.

(** A value-initialised [ParamInfo], as [std::map::operator[]] inserts. *)
Definition ParamInfo_empty : ParamInfo :=
  {| paramName := EmptyString; paramTypeName := EmptyString;
     typeTagName := EmptyString; usageString := EmptyString;
     defaultValue := EmptyString; isHidden := false |}.

(** [MetaData::Storage_].  The value store [tree] is kept flat, keyed by
    the full path of a value; a finalizer is represented by the parameter
    its [retrieve] looks up. *)
Record MetaData : Type := {
  tree : gmap string string;
  registry : gmap string ParamInfo;
  finalizers : list Param;
  registrationOpen : bool;
}.

Definition with_tree (t : gmap string string) (md : MetaData) : MetaData :=
  {| tree := t; registry := registry md; finalizers := finalizers md;
     registrationOpen := registrationOpen md |}.
Definition with_registry (r : gmap string ParamInfo) (md : MetaData) : MetaData :=
  {| tree := tree md; registry := r; finalizers := finalizers md;
     registrationOpen := registrationOpen md |}.
Definition with_finalizers (f : list Param) (md : MetaData) : MetaData :=
  {| tree := tree md; registry := registry md; finalizers := f;
     registrationOpen := registrationOpen md |}.
Definition with_registrationOpen (b : bool) (md : MetaData) : MetaData :=
  {| tree := tree md; registry := registry md; finalizers := finalizers md;
     registrationOpen := b |}.

(** The state of [Storage_()] and of [MetaData::clear()]. *)
Definition MetaData_clear : MetaData :=
  {| tree := ∅; registry := ∅; finalizers := []; registrationOpen := true |}.

(** A call on the singleton: its outcome and the store it leaves. *)
Definition M (A : Type) : Type := MetaData → result A * MetaData.

Definition reset : M unit := λ _, (Ok tt, MetaData_clear).

(** [registry[key]] on the mutable map: a missing key is inserted with
    an empty entry. *)
Definition registry_index (key : string) (r : gmap string ParamInfo)
  : ParamInfo * gmap string ParamInfo :=
  match r !! key with
  | Some info => (info, r)
  | None => (ParamInfo_empty, <[key := ParamInfo_empty]> r)
  end.

(** [tree.hasKey(key)] and [tree.get<ParamType>(key, defaultValue)]: the
    stored text run through the parser of the type, the default when the
    key is missing. *)
Definition hasKey (t : gmap string string) (key : string) : bool :=
  bool_decide (is_Some (t !! key)).

Definition tree_parse (ty : ParamType) (text : string) : result ParamValue :=
  match ty with
  | TString => result_map VString (tree_parse_string text)
  | TBool => result_map VBool (tree_parse_bool text)
  | TInt => result_map VInt (tree_parse_int text)
  | TScalar => result_map VScalar (tree_parse_scalar text)
  end.

Definition tree_get (t : gmap string string) (key : string)
    (defaultValue : ParamValue) : result ParamValue :=
  match t !! key with
  | Some text => tree_parse (type_of defaultValue) text
  | None => Ok defaultValue
  end.

(** The default of [Get]: [Param::value], overwritten from the text the
    registry holds. *)
Definition default_from_text (compiled : ParamValue) (defVal : string) : ParamValue :=
  match compiled with
  | VString _ => VString defVal
  | VBool _ => VBool (String.eqb defVal "1")
  | VInt z => VInt (from_chars_int defVal z)
  | VScalar x => VScalar (scalar_from_text x defVal)
  end.

Definition not_registered (paramName : string) : exn :=
  runtime_error ("Accessing parameter " +:+ paramName
                 +:+ " without prior registration is not allowed.").

Definition Get (p : Param) (errorIfNotRegistered : bool) : M ParamValue := λ md,
  let paramName := name p in
  if errorIfNotRegistered && registrationOpen md then
    (Throw (runtime_error
       "Parameters can only retrieved after _all_ of them have been registered."), md)
  else if errorIfNotRegistered && bool_decide (registry md !! paramName = None) then
    (Throw (not_registered paramName), md)
  else
    let '(info, r) := registry_index paramName (registry md) in
    let defVal := defaultValue info in
    (tree_get (tree md) paramName (default_from_text (value p) defVal),
     with_registry r md).

Definition SetDefault (p : Param) (new_value : ParamValue) : M unit := λ md,
  let paramName := name p in
  match registry md !! paramName with
  | None => (Throw (not_registered paramName), md)
  | Some info =>
      (Ok tt, with_registry
                (<[paramName := with_defaultValue (to_text new_value) info]> (registry md))
                md)
  end.

Definition IsSet (p : Param) (errorIfNotRegistered : bool) : M bool := λ md,
  let paramName := name p in
  if errorIfNotRegistered && registrationOpen md then
    (Throw (runtime_error
       "Parameters can only checked after _all_ of them have been registered."), md)
  else if errorIfNotRegistered && bool_decide (registry md !! paramName = None) then
    (Throw (not_registered paramName), md)
  else (Ok (hasKey (tree md) paramName), md).

(** The entry [Register] builds, and the error of a second registration
    that does not match the first. *)
Definition info_of (p : Param) (usage : string) : ParamInfo :=
  {| paramName := name p; paramTypeName := className (type_of (value p));
     typeTagName := EmptyString; usageString := usage;
     defaultValue := to_text (value p); isHidden := false |}.

Definition registered_twice (p : Param) : exn :=
  logic_error ("Parameter " +:+ name p
               +:+ " registered twice with non-matching characteristics.").

Definition Register (p : Param) (usage : string) : M unit := λ md,
  let paramName := name p in
  if negb (registrationOpen md) then
    (Throw (logic_error ("Parameter registration was already closed before "
                         +:+ "the parameter '" +:+ paramName +:+ "' was registered.")), md)
  else
    let md := with_finalizers (finalizers md ++ [p]) md in
    let paramInfo := info_of p usage in
    match registry md !! paramName with
    | Some registered =>
        if ParamInfo_eqb registered paramInfo then (Ok tt, md)
        else (Throw (registered_twice p), md)
    | None => (Ok tt, with_registry (<[paramName := paramInfo]> (registry md)) md)
    end.

Definition Hide (p : Param) : M unit := λ md,
  let paramName := name p in
  if negb (registrationOpen md) then
    (Throw (logic_error ("Parameter '" +:+ paramName +:+ "' declared as hidden"
                         +:+ " when parameter registration was already closed.")), md)
  else
    match registry md !! paramName with
    | None => (Throw (logic_error ("Tried to declare unknown parameter '"
                                   +:+ paramName +:+ "' hidden.")), md)
    | Some info =>
        (Ok tt, with_registry (<[paramName := with_isHidden true info]> (registry md)) md)
    end.

(** The loop of [endRegistration] over the finalizers: each [retrieve]
    is [Get<Param>(true)], whose value the source discards; the values
    are collected here in the order of the calls.  The first exception
    ends the loop. *)
Fixpoint retrieve_all (ps : list Param) : M (list ParamValue) := λ md,
  match ps with
  | [] => (Ok [], md)
  | p :: ps' =>
      match Get p true md with
      | (Ok v, md') =>
          match retrieve_all ps' md' with
          | (Ok vs, md'') => (Ok (v :: vs), md'')
          | (Throw e, md'') => (Throw e, md'')
          end
      | (Throw e, md') => (Throw e, md')
      end
  end.

(** The error of a second [endRegistration]. *)
Definition already_closed : exn :=
  logic_error "Parameter registration was already closed. It is only possible to close it once.".

Definition endRegistration : M unit := λ md,
  if negb (registrationOpen md) then (Throw already_closed, md)
  else
    let md := with_registrationOpen false md in
    match retrieve_all (finalizers md) md with
    | (Ok _, md') => (Ok tt, with_finalizers [] md')
    | (Throw e, md') => (Throw e, md')
    end.

End ParameterSystem.

(** ** Source ingestion: the command line *)

(** What a call of the positional-argument callback does: the number of
    arguments it reports as handled, the key/value pairs it hands to the
    setter it is given (in order), the set of seen keys and the error
    message it leaves in its reference arguments. *)
Record PositionalOutcome : Type := {
  numHandled : Z;
  assignments : list (string * string);
  seenKeysAfter : gset string;
  errorMsg : string;
}.

(** The callback is called with the seen keys, [argv], [paramIdx] and
    [numPositionalParams]. *)
Definition PositionalArgumentCallback : Type :=
  gset string → list string → nat → Z → PositionalOutcome.

Definition noPositionalParameters_ : PositionalArgumentCallback :=
  λ seenKeys argv paramIdx _,
    {| numHandled := 0; assignments := []; seenKeysAfter := seenKeys;
       errorMsg := "Illegal parameter " +:+ str1 dquote
                     +:+ nth paramIdx argv EmptyString +:+ str1 dquote +:+ "." |}.

(** The setter handed to the callback: [MetaData::tree()[k] = v]. *)
Definition tree_assign (t : gmap string string) (kvs : list (string * string))
  : gmap string string :=
  foldl (λ t kv, <[kv.1 := kv.2]> t) t kvs.

(** The test at the head of the loop of [parseCommandLineOptions]:
    [strlen(argv[i]) < 4 || argv[i][0] != '-' || argv[i][1] != '-']. *)
Definition is_positional (arg : string) : bool :=
  (String.length arg <? 4)%nat
  || negb (bool_decide (String.get 0 arg = Some hyphen))
  || negb (bool_decide (String.get 1 arg = Some hyphen)).

(** The help options in the argument list, looked for when a preamble is
    given. *)
Definition is_help_option (arg : string) : bool :=
  String.eqb "-h" arg || String.eqb "--help" arg || String.eqb "--help-all" arg.

Section CommandLine.
Context `{Ext : Externals}.

(** A [--name=value] argument [arg] at index [i]: the message the
    function returns with, or the key/value pair to store.  [transformKey]
    may throw. *)
Inductive NamedOption : Type :=
  | NamedError (msg : string)
  | NamedValue (paramName paramValue : string).

Definition parseNamedOption (arg : string) (i : nat) (seenKeys : gset string)
  : result NamedOption :=
  match String.get 2 arg with
  | Some c =>
      if negb (isalpha c) then
        Ok (NamedError ("Parameter name of argument " +:+ to_string_unsigned (N.of_nat i)
               +:+ " ('" +:+ arg +:+ "') "
               +:+ "is invalid because it does not start with a letter."))
      else
        (* std::string s(argv[i] + 2) *)
        let s := substring 2 (String.length arg - 2) arg in
        let '(key, s) := parseKey s in
        paramName ← transformKey key true EmptyString;
        if bool_decide (paramName ∈ seenKeys) then
          Ok (NamedError ("Parameter '" +:+ paramName +:+ "' specified multiple times as a "
                            +:+ "command line parameter"))
        else
          match s with
          | String c' paramValue =>
              if is_char "=" c' then Ok (NamedValue paramName paramValue)
              else Ok (NamedError ("Parameter '" +:+ paramName +:+ "' is missing a value. "
                                     +:+ " Please use " +:+ arg +:+ "=value."))
          | EmptyString =>
              Ok (NamedError ("Parameter '" +:+ paramName +:+ "' is missing a value. "
                                +:+ " Please use " +:+ arg +:+ "=value."))
          end
  | None =>
      Ok (NamedError ("Parameter name of argument " +:+ to_string_unsigned (N.of_nat i)
             +:+ " ('" +:+ arg +:+ "') "
             +:+ "is invalid because it does not start with a letter."))
  end.

(** The main loop.  [rest] holds [argv[i]], [argv[i+1]], ...; [skip]
    counts the arguments a callback has reported as handled beyond the
    one it was called on, which [i += numHandled - 1] steps over.  The
    usage text some paths print is not part of the embedding. *)
Fixpoint parseCommandLine_loop (posArgCallback : PositionalArgumentCallback)
    (argv rest : list string) (i skip : nat) (seenKeys : gset string)
    (numPositionalParams : Z) : M string := λ md,
  match rest with
  | [] => (Ok EmptyString, md)
  | arg :: rest' =>
      match skip with
      | S skip' =>
          parseCommandLine_loop posArgCallback argv rest' (S i) skip' seenKeys
                                numPositionalParams md
      | O =>
          if is_positional arg then
            let out := posArgCallback seenKeys argv i numPositionalParams in
            let md := with_tree (tree_assign (tree md) (assignments out)) md in
            if numHandled out <? 1 then (Ok (errorMsg out), md)
            else
              parseCommandLine_loop posArgCallback argv rest' (S i)
                (Z.to_nat (numHandled out - 1)) (seenKeysAfter out)
                (numPositionalParams + 1) md
          else
            match parseNamedOption arg i seenKeys with
            | Throw e => (Throw e, md)
            | Ok (NamedError msg) => (Ok msg, md)
            | Ok (NamedValue paramName paramValue) =>
                parseCommandLine_loop posArgCallback argv rest' (S i) 0
                  ({[paramName]} ∪ seenKeys) numPositionalParams
                  (with_tree (<[paramName := paramValue]> (tree md)) md)
            end
      end
  end.

(** [argv] holds the [argc] arguments, the program name first. *)
Definition parseCommandLineOptions (argv : list string) (helpPreamble : string)
    (posArgCallback : PositionalArgumentCallback) : M string := λ md,
  if negb (String.eqb helpPreamble EmptyString)
     && existsb is_help_option (tail argv)
  then (Ok "Help called", md)
  else parseCommandLine_loop posArgCallback argv (tail argv) 1 0 ∅ 0 md.

(** ** Source ingestion: the parameter file *)

(** The lines [std::getline] hands out: the text between the newline
    characters. *)
Fixpoint getlines (content : string) : list string :=
  match content with
  | EmptyString => [EmptyString]
  | String c rest =>
      if is_char newline c then EmptyString :: getlines rest
      else match getlines rest with
           | l :: ls => String c l :: ls
           | [] => [str1 c]
           end
  end.

(** The values of [curLine] over the iterations of [while (ifs)]: after
    a last line without a newline the stream is still good, and one more
    [getline] fails and leaves the line empty. *)
Definition getline_calls (content : string) : list string :=
  let ls := getlines content in
  if String.eqb (List.last ls EmptyString) EmptyString then ls else ls ++ [EmptyString].

Definition blank_or_comment (curLine : string) : bool :=
  String.eqb curLine EmptyString
  || starts_with (λ c, is_char "#" c || is_char ";" c) curLine.

(** The body of the loop of [parseParameterFile] for line [curLineNum].
    The three [std::runtime_error] objects the source builds for a
    missing [=], an empty value and trailing text are not thrown; the
    text is processed further as if nothing had been found. *)
Definition parseParameterFile_line (fileName : string) (overwrite : bool)
    (curLineNum : N) (curLine : string) (seenKeys : gset string)
  : M (gset string) := λ md,
  let errorPrefix := fileName +:+ ":" +:+ to_string_unsigned curLineNum +:+ ": " in
  let curLine := removeLeadingSpace curLine in
  if blank_or_comment curLine then (Ok seenKeys, md)
  else
    let '(key, curLine) := parseKey curLine in
    match transformKey key true errorPrefix with
    | Throw e => (Throw e, md)
    | Ok canonicalKey =>
        if bool_decide (canonicalKey ∈ seenKeys) then
          (Throw (runtime_error (errorPrefix +:+ "Parameter '" +:+ canonicalKey
                                   +:+ "' seen multiple times in the same file")), md)
        else
          let seenKeys := {[canonicalKey]} ∪ seenKeys in
          let curLine := removeLeadingSpace curLine in
          match substr_from 1 curLine with
          | Throw e => (Throw e, md)
          | Ok curLine =>
              let curLine := removeLeadingSpace curLine in
              let parsed :=
                if starts_with (is_char dquote) curLine
                then parseQuotedValue curLine errorPrefix
                else Ok (parseUnquotedValue curLine) in
              match parsed with
              | Throw e => (Throw e, md)
              | Ok (value, _) =>
                  if overwrite || negb (hasKey (tree md) canonicalKey)
                  then (Ok seenKeys, with_tree (<[canonicalKey := value]> (tree md)) md)
                  else (Ok seenKeys, md)
              end
          end
    end.

(** [curLineNum] is an [unsigned]. *)
Definition next_line_number (curLineNum : N) : N := ((curLineNum + 1) mod 2 ^ 32)%N.

Fixpoint parseParameterFile_loop (fileName : string) (overwrite : bool)
    (lines : list string) (curLineNum : N) (seenKeys : gset string) : M unit := λ md,
  match lines with
  | [] => (Ok tt, md)
  | curLine :: lines' =>
      let curLineNum := next_line_number curLineNum in
      match parseParameterFile_line fileName overwrite curLineNum curLine seenKeys md with
      | (Throw e, md') => (Throw e, md')
      | (Ok seenKeys', md') =>
          parseParameterFile_loop fileName overwrite lines' curLineNum seenKeys' md'
      end
  end.

(** [file] is the content of the file named [fileName], or [None] when
    the stream cannot be opened and the loop is not entered. *)
Definition parseParameterFile (fileName : string) (file : option string)
    (overwrite : bool) : M unit := λ md,
  match file with
  | None => (Ok tt, md)
  | Some content =>
      parseParameterFile_loop fileName overwrite (getline_calls content) 0 ∅ md
  end.

End CommandLine.

(** ** The line-wrapping helper *)

(** [s.substr(pos, len)] with [int] arguments converted to [size_t]: a
    negative position lies behind the end, a negative length reaches to
    the end. *)
Definition substr (s : string) (pos len : Z) : result string :=
  if (pos <? 0) || (Z.of_nat (String.length s) <? pos) then Throw out_of_range
  else Ok (substring (Z.to_nat pos)
                     (if len <? 0 then String.length s else Z.to_nat len) s).

Definition char_at (s : string) (i : Z) : ascii :=
  default zero (String.get (Z.to_nat i) s).

Fixpoint spaces (n : nat) : string :=
  match n with O => EmptyString | S n' => String " " (spaces n') end.

(** The text a break inserts: a newline and the indentation. *)
Definition line_break (indentWidth : Z) : string :=
  str1 newline +:+ spaces (Z.to_nat indentWidth).

(** The local variables of [breakLines]. *)
Record BreakState : Type := {
  result_ : string;
  startInPos : Z;
  inPos : Z;
  lastBreakPos : Z;
  ttyPos : Z;
}.

(** One pass through the loop of [breakLines], the increments
    [++inPos, ++ttyPos] included. *)
Definition breakLines_body (msg : string) (indentWidth maxWidth : Z)
    (st : BreakState) : result BreakState :=
  let c := char_at msg (inPos st) in
  if is_char newline c then
    piece ← substr msg (startInPos st) (inPos st - startInPos st + 1);
    let startInPos' := inPos st + 1 in
    Ok {| result_ := result_ st +:+ piece;
          startInPos := startInPos';
          lastBreakPos := startInPos' + 1;
          inPos := inPos st + 1;
          ttyPos := -1 + 1 |}
  else
    let lastBreakPos' := if isspace c then inPos st else lastBreakPos st in
    if maxWidth <=? ttyPos st then
      if startInPos st <? lastBreakPos' then
        piece ← substr msg (startInPos st) (lastBreakPos' - startInPos st);
        let startInPos' := lastBreakPos' + 1 in
        Ok {| result_ := (result_ st +:+ piece) +:+ line_break indentWidth;
              startInPos := startInPos';
              lastBreakPos := startInPos';
              inPos := startInPos' + 1;
              ttyPos := indentWidth + 1 |}
      else
        piece ← substr msg (startInPos st) (inPos st - startInPos st);
        Ok {| result_ := (result_ st +:+ piece) +:+ line_break indentWidth;
              startInPos := inPos st;
              lastBreakPos := inPos st;
              inPos := inPos st + 1;
              ttyPos := indentWidth + 1 |}
    else
      Ok {| result_ := result_ st;
            startInPos := startInPos st;
            lastBreakPos := lastBreakPos';
            inPos := inPos st + 1;
            ttyPos := ttyPos st + 1 |}.

(** The end of [breakLines] from the state the loop leaves:
    [result += msg.substr(startInPos)]. *)
Definition breakLines_finish (msg : string) (st : BreakState) : result string :=
  piece ← substr msg (startInPos st) (-1); Ok (result_ st +:+ piece).

(** The loop, with the number of passes bounded by [fuel]; [None] when
    the bound is reached. *)
Fixpoint breakLines_loop (fuel : nat) (msg : string) (indentWidth maxWidth : Z)
    (st : BreakState) : option (result string) :=
  if inPos st <? Z.of_nat (String.length msg) then
    match fuel with
    | O => None
    | S fuel' =>
        match breakLines_body msg indentWidth maxWidth st with
        | Throw e => Some (Throw e)
        | Ok st' => breakLines_loop fuel' msg indentWidth maxWidth st'
        end
    end
  else Some (breakLines_finish msg st).

Definition breakLines_init : BreakState :=
  {| result_ := EmptyString; startInPos := 0; inPos := 0; lastBreakPos := 0; ttyPos := 0 |}.

(** A number of passes no run of the loop exceeds (see
    [breakLines_terminates]). *)
Definition breakLines_fuel (msg : string) : nat :=
  (String.length msg + 2) * (String.length msg + 3).

Definition breakLines (msg : string) (indentWidth maxWidth : Z) : option (result string) :=
  breakLines_loop (breakLines_fuel msg) msg indentWidth maxWidth breakLines_init.

(** ** Measuring text *)

(** The column reached after writing [s] from column [col]. *)
Fixpoint column (col : nat) (s : string) : nat :=
  match s with
  | EmptyString => col
  | String c s' => if is_char newline c then column 0 s' else column (S col) s'
  end.

(** No line of [s], written from column [col] on, is longer than [w]. *)
Fixpoint fits (w col : nat) (s : string) : Prop :=
  match s with
  | EmptyString => (col ≤ w)%nat
  | String c s' =>
      if is_char newline c then (col ≤ w)%nat ∧ fits w 0 s' else fits w (S col) s'
  end.

(** The number of newline characters of a text. *)
Fixpoint count_newlines (s : string) : nat :=
  match s with
  | EmptyString => O
  | String c s' => if is_char newline c then S (count_newlines s') else count_newlines s'
  end.

(** ** The loop of [breakLines] at work *)

(** The first [n] characters of a text, and the text behind them. *)
Fixpoint stake (n : nat) (s : string) : string :=
  match n, s with
  | S n', String c s' => String c (stake n' s')
  | _, _ => EmptyString
  end.

Fixpoint sdrop (n : nat) (s : string) : string :=
  match n, s with
  | S n', String _ s' => sdrop n' s'
  | _, _ => s
  end.

(** The text [breakLines] has produced so far together with the input it
    has passed over and not yet copied. *)
Definition pending (msg : string) (st : BreakState) : string :=
  substring (Z.to_nat (startInPos st)) (Z.to_nat (inPos st - startInPos st)) msg.

Definition written (msg : string) (st : BreakState) : string :=
  result_ st +:+ pending msg st.

(** The measure of the loop: the start of the pending text moves
    forward, and between two moves the read position does. *)
Definition breakLines_measure (msg : string) (st : BreakState) : Z :=
  let n := Z.of_nat (String.length msg) in
  (n + 1 - startInPos st) * (n + 3) + (n + 2 - inPos st).

(** The position of the last white space after the test of the current
    character. *)
Definition seen_break (msg : string) (st : BreakState) : Z :=
  if isspace (char_at msg (inPos st)) then inPos st else lastBreakPos st.

(** What holds of the positions at the head of the loop, whatever the
    widths. *)
Definition positions_ok (msg : string) (st : BreakState) : Prop :=
  let n := Z.of_nat (String.length msg) in
  0 ≤ startInPos st ≤ inPos st
  ∧ lastBreakPos st ≤ inPos st + 1
  ∧ startInPos st ≤ n + 1
  ∧ inPos st ≤ n + 2.

(** [wrapped indentWidth s t]: the text [t] is the text [s] with line
    breaks, a newline followed by the indentation, inserted or put in the
    place of single characters other than a newline. *)
Inductive wrapped (indentWidth : Z) : string → string → Prop :=
  | wrapped_end : wrapped indentWidth EmptyString EmptyString
  | wrapped_copy c s t :
      wrapped indentWidth s t → wrapped indentWidth (String c s) (String c t)
  | wrapped_insert s t :
      wrapped indentWidth s t → wrapped indentWidth s (line_break indentWidth +:+ t)
  | wrapped_replace c s t :
      is_char newline c = false →
      wrapped indentWidth s t →
      wrapped indentWidth (String c s) (line_break indentWidth +:+ t).

(** What holds at the head of the loop when the indentation is smaller
    than the width. *)
Definition wrapping_ok (msg : string) (indentWidth maxWidth : Z) (st : BreakState) : Prop :=
  positions_ok msg st
  ∧ startInPos st ≤ Z.of_nat (String.length msg)
  ∧ (lastBreakPos st ≤ inPos st ∨ ttyPos st = 0)
  ∧ (startInPos st < lastBreakPos st < inPos st →
     is_char newline (char_at msg (lastBreakPos st)) = false)
  ∧ Z.of_nat (column 0 (written msg st)) ≤ ttyPos st ≤ maxWidth
  ∧ fits (Z.to_nat maxWidth) 0 (written msg st)
  ∧ wrapped indentWidth (stake (Z.to_nat (startInPos st)) msg) (result_ st).

(** What holds at the head of the loop on a text whose lines fit. *)
Definition fitting_ok (msg : string) (st : BreakState) : Prop :=
  positions_ok msg st
  ∧ inPos st ≤ Z.of_nat (String.length msg)
  ∧ result_ st = stake (Z.to_nat (startInPos st)) msg
  ∧ ttyPos st = Z.of_nat (column 0 (stake (Z.to_nat (inPos st)) msg)).

(** ** Names *)

(** A canonical parameter name: letters and digits only, a letter first. *)
Definition valid_name (s : string) : bool :=
  starts_with isalpha s && all_chars isalnum s.

(** A character that [parseKey] takes into the key. *)
Definition key_char (c : ascii) : bool := negb (isspace c || is_char "=" c).

(** The kebab-case form of a name in the words of the specification: all
    lower case, a hyphen before each upper-case letter behind the first
    character. *)
Definition kebabCase (camelCaseName : string) : string :=
  match camelCaseName with
  | EmptyString => EmptyString
  | String c rest => String (tolower c) (hyphenate rest)
  end.

(** ** A sample of the surroundings

    An instance of [Externals] to run the embedding on examples: integers
    stand in for the floating-point type, the store parses a string as it
    is, a boolean from [1], [true], [0], [false], and an integer from an
    optional minus sign and digits. *)
Module Sample.

Definition parse_bool (text : string) : result bool :=
  if String.eqb text "1" || String.eqb text "true" then Ok true
  else if String.eqb text "0" || String.eqb text "false" then Ok false
  else Throw RangeError.

Definition parse_int (text : string) : result Z :=
  let body := match text with
              | String c s' => if is_char hyphen c then s' else text
              | EmptyString => text
              end in
  if starts_with isdigit body && all_chars isdigit body
  then Ok (from_chars_int text 0) else Throw RangeError.

Definition type_name (ty : ParamType) : string :=
  match ty with
  | TString => "std::string" | TBool => "bool" | TInt => "int" | TScalar => "double"
  end.

Definition externals : Externals :=
  {| Scalar := Z;
     scalar_to_text := λ x, NilZero.string_of_int (Z.to_int x);
     scalar_from_text := λ x text, from_chars_int text x;
     tree_parse_string := Ok;
     tree_parse_bool := parse_bool;
     tree_parse_int := parse_int;
     tree_parse_scalar := parse_int;
     className := type_name |}.

Global Existing Instance externals.

(** Three parameters, and a closed registry that knows them and holds a
    value for the first. *)
Definition EnableDebug : Param := {| name := "EnableDebug"; value := VBool false |}.
Definition OutputDir : Param := {| name := "OutputDir"; value := VString "out" |}.
Definition MaxIterations : Param := {| name := "MaxIterations"; value := VInt 20 |}.

Definition closed_store : MetaData :=
  {| tree := {[ "EnableDebug" := "true" ]};
     registry := {[ "EnableDebug" := info_of EnableDebug "Print more";
                    "OutputDir" := info_of OutputDir "Where to write";
                    "MaxIterations" := info_of MaxIterations "Upper bound" ]};
     finalizers := [];
     registrationOpen := false |}.

(** A fourth parameter, of the floating-point type, and a closed
    registry whose store holds a value for it and for the integer one. *)
Definition Tolerance : Param := {| name := "Tolerance"; value := VScalar 7 |}.

Definition supplied_store : MetaData :=
  {| tree := {[ "MaxIterations" := "50"; "Tolerance" := "-3" ]};
     registry := {[ "MaxIterations" := info_of MaxIterations "Upper bound";
                    "Tolerance" := info_of Tolerance "Residual to reach" ]};
     finalizers := [];
     registrationOpen := false |}.

(** A positional-argument callback that takes the argument it is called
    on and stores it under [Positional]. *)
Definition take_one : PositionalArgumentCallback :=
  λ seenKeys argv paramIdx _,
    {| numHandled := 1;
       assignments := [("Positional", nth paramIdx argv EmptyString)];
       seenKeysAfter := seenKeys;
       errorMsg := EmptyString |}.

End Sample.

(** ** Sessions

    The calls a program makes on the parameter system between two calls
    of [reset].  A caller that catches an exception goes on with the
    store the throwing call has left. *)
Section Sessions.
Context `{Ext : Externals}.

Inductive Call : Type :=
  | CallRegister (p : Param) (usage : string)
  | CallHide (p : Param)
  | CallEndRegistration
  | CallGet (p : Param) (errorIfNotRegistered : bool)
  | CallIsSet (p : Param) (errorIfNotRegistered : bool)
  | CallSetDefault (p : Param) (new_value : ParamValue)
  | CallParseCommandLineOptions (argv : list string) (helpPreamble : string)
                                (posArgCallback : PositionalArgumentCallback)
  | CallParseParameterFile (fileName : string) (file : option string) (overwrite : bool).

Definition run_call (c : Call) (md : MetaData) : MetaData :=
  match c with
  | CallRegister p usage => (Register p usage md).2
  | CallHide p => (Hide p md).2
  | CallEndRegistration => (endRegistration md).2
  | CallGet p b => (Get p b md).2
  | CallIsSet p b => (IsSet p b md).2
  | CallSetDefault p v => (SetDefault p v md).2
  | CallParseCommandLineOptions argv helpPreamble posArgCallback =>
      (parseCommandLineOptions argv helpPreamble posArgCallback md).2
  | CallParseParameterFile fileName file overwrite =>
      (parseParameterFile fileName file overwrite md).2
  end.

Definition run_calls (cs : list Call) (md : MetaData) : MetaData :=
  foldl (λ md c, run_call c md) md cs.

(** A sequence of [Register] calls. *)
Definition register_all (ps : list (Param * string)) (md : MetaData) : MetaData :=
  run_calls (map (λ pu, CallRegister pu.1 pu.2) ps) md.

(** The outcomes of [Get<Param>(true)] for a list of parameters on one
    store. *)
Fixpoint get_each (ps : list Param) (md : MetaData) : result (list ParamValue) :=
  match ps with
  | [] => Ok []
  | p :: ps' =>
      v ← (Get p true md).1;
      vs ← get_each ps' md;
      Ok (v :: vs)
  end.

End Sessions.

(** ** Quoted values and keys, written down

    The text that stands for a value between quotes: the two characters
    that need an escape sequence and the three that have one. *)
Definition escape_char (c : ascii) : string :=
  if is_char newline c then String backslash "n"
  else if is_char carriage_return c then String backslash "r"
  else if is_char tab c then String backslash "t"
  else if is_char dquote c then String backslash (str1 dquote)
  else if is_char backslash c then String backslash (str1 backslash)
  else str1 c.

Fixpoint escape (v : string) : string :=
  match v with
  | EmptyString => EmptyString
  | String c v' => escape_char c +:+ escape v'
  end.

Definition quote (v : string) : string :=
  String dquote (escape v +:+ str1 dquote).

(** The keys [transformKey] takes, read one character at a time: behind
    the first letter every character is a letter or a digit, or a hyphen
    with a letter behind it. *)
Fixpoint key_tail_ok (s : string) : bool :=
  match s with
  | EmptyString => true
  | String c s' =>
      (if is_char hyphen c then starts_with isalpha s' else isalnum c)
      && key_tail_ok s'
  end.

Definition key_ok (s : string) : bool :=
  match s with
  | EmptyString => false
  | String c rest => isalpha c && key_tail_ok rest
  end.

(** ** Stores a program can reach *)

Section Reachable.
Context `{Ext : Externals}.

(** Every pending finalizer is the finalizer of a name with an entry. *)
Definition finalizers_registered (md : MetaData) : Prop :=
  Forall (λ q, is_Some (registry md !! name q)) (finalizers md).

End Reachable.

(** ** Command lines and files, written down *)

(** The argument that gives the option [kv.1] the value [kv.2]. *)
Definition option_text (kv : string * string) : string :=
  "--" +:+ kv.1 +:+ String "=" kv.2.

(** The key/value pairs of a parameter file put into the store: with
    [overwrite] every pair, without it the pairs whose key the store
    does not hold. *)
Definition tree_assign_file (overwrite : bool) (t : gmap string string)
    (kvs : list (string * string)) : gmap string string :=
  foldl (λ t kv, if overwrite || negb (hasKey t kv.1) then <[kv.1 := kv.2]> t else t)
        t kvs.

(** ** More of the loop of [breakLines] *)

(** The characters of a text that are not white space. *)
Fixpoint nonspace (s : string) : string :=
  match s with
  | EmptyString => EmptyString
  | String c s' => if isspace c then nonspace s' else String c (nonspace s')
  end.

(** What holds at the head of the loop on a text without a newline. *)
Definition words_ok (msg : string) (st : BreakState) : Prop :=
  positions_ok msg st
  ∧ startInPos st ≤ Z.of_nat (String.length msg)
  ∧ lastBreakPos st ≤ inPos st
  ∧ (startInPos st < lastBreakPos st → isspace (char_at msg (lastBreakPos st)) = true)
  ∧ nonspace (result_ st) = nonspace (stake (Z.to_nat (startInPos st)) msg).

(** What holds at the head of the loop when the width is positive. *)
Definition returning_ok (msg : string) (st : BreakState) : Prop :=
  positions_ok msg st
  ∧ startInPos st ≤ Z.of_nat (String.length msg)
  ∧ (lastBreakPos st ≤ inPos st ∨ ttyPos st = 0).

(** ** The usage message *)

(** [getTtyWidth]: [isatty] tells whether the standard output is a
    terminal, [have_TIOCGWINSZ] whether the macro is defined, and [ws_col]
    is the number of columns the [ioctl] reports, an [unsigned short]. *)
Definition getTtyWidth (isatty have_TIOCGWINSZ : bool) (ws_col : Z) : Z :=
  if isatty then
    if have_TIOCGWINSZ then Z.max 80 ws_col else 100
  else 10 * 1000.

(** The types whose [Dune::className] the usage message knows. *)
Inductive CppType : Type :=
  | Tstd_string | Tfloat | Tdouble | Tlong_double | Tquad
  | Tint | Tunsigned_int | Tshort | Tunsigned_short | Tbool.

(** [paramMessage.back()] *)
Definition back (s : string) : option ascii :=
  String.get (String.length s - 1) s.

(** The loop that fills the message up with blanks while its size is
    below 50, with the number of passes bounded by [fuel]. *)
Fixpoint fill_up (fuel : nat) (paramMessage : string) : string :=
  match fuel with
  | O => paramMessage
  | S fuel' =>
      if (String.length paramMessage <? 50)%nat
      then fill_up fuel' (paramMessage +:+ " ")
      else paramMessage
  end.

Section Usage.
(** [Dune::className<T>()], and whether [HAVE_QUAD] is set. *)
Variable className_of : CppType → string.
Variable HAVE_QUAD : bool.

Definition is_string_type (paramTypeName : string) : bool :=
  String.eqb paramTypeName (className_of Tstd_string)
  || String.eqb paramTypeName "const char *".

(** The [=VALUE_TYPE] part of the message. *)
Definition value_type (paramTypeName : string) : string :=
  if is_string_type paramTypeName then "=STRING"
  else if String.eqb paramTypeName (className_of Tfloat)
          || String.eqb paramTypeName (className_of Tdouble)
          || String.eqb paramTypeName (className_of Tlong_double)
          || (HAVE_QUAD && String.eqb paramTypeName (className_of Tquad))
  then "=SCALAR"
  else if String.eqb paramTypeName (className_of Tint)
          || String.eqb paramTypeName (className_of Tunsigned_int)
          || String.eqb paramTypeName (className_of Tshort)
          || String.eqb paramTypeName (className_of Tunsigned_short)
  then "=INTEGER"
  else if String.eqb paramTypeName (className_of Tbool) then "=BOOLEAN"
  else if String.eqb paramTypeName EmptyString then EmptyString
  else "=VALUE".

(** The message of [printParamUsage] before it is broken into lines. *)
Definition paramMessage_of (paramInfo : ParamInfo) : string :=
  let paramMessage := "    " +:+ cmdLineName (paramName paramInfo) in
  let paramMessage := paramMessage +:+ value_type (paramTypeName paramInfo) in
  let paramMessage := paramMessage +:+ "  " in
  let paramMessage := fill_up 50 paramMessage in
  let paramMessage := paramMessage +:+ usageString paramInfo in
  if String.eqb (paramTypeName paramInfo) EmptyString then paramMessage
  else
    let paramMessage :=
      if bool_decide (back paramMessage = Some "."%char) then paramMessage
      else paramMessage +:+ "." in
    let paramMessage := paramMessage +:+ " Default: " in
    if String.eqb (paramTypeName paramInfo) "bool" then
      if String.eqb (defaultValue paramInfo) "0" then paramMessage +:+ "false"
      else paramMessage +:+ "true"
    else if is_string_type (paramTypeName paramInfo) then
      paramMessage +:+ str1 dquote +:+ defaultValue paramInfo +:+ str1 dquote
    else paramMessage +:+ defaultValue paramInfo.

(** What [printParamUsage] writes to the stream, on a terminal of
    [ttyWidth] columns. *)
Definition printParamUsage (ttyWidth : Z) (paramInfo : ParamInfo)
  : option (result string) :=
  match breakLines (paramMessage_of paramInfo) 52 ttyWidth with
  | Some (Ok paramMessage) => Some (Ok (paramMessage +:+ str1 newline))
  | Some (Throw e) => Some (Throw e)
  | None => None
  end.

End Usage.

(** The names [Dune::className] gives with the GNU demangler, for the
    examples. *)
Definition gnu_className (t : CppType) : string :=
  match t with
  | Tstd_string =>
      "std::__cxx11::basic_string<char, std::char_traits<char>, std::allocator<char> >"
  | Tfloat => "float"
  | Tdouble => "double"
  | Tlong_double => "long double"
  | Tquad => "__float128"
  | Tint => "int"
  | Tunsigned_int => "unsigned int"
  | Tshort => "short"
  | Tunsigned_short => "unsigned short"
  | Tbool => "bool"
  end.

(** ** Parameter names, lists and reports *)

(** The text before the first occurrence of [stop]. *)
Fixpoint before_char (stop : ascii) (s : string) : string :=
  match s with
  | EmptyString => EmptyString
  | String c s' => if is_char stop c then EmptyString else String c (before_char stop s')
  end.

(** [detail::getParamName<Parameter>()]: the [name] member when the
    struct has one; otherwise [class_name], what [Dune::className] returns
    for the struct, without its first seventeen characters, the length of
    [Opm::Parameters::], and without what follows the first [<]. *)
Definition getParamName (name_member : option string) (class_name : string) : string :=
  match name_member with
  | Some paramName => paramName
  | None => before_char "<" (sdrop 17 class_name)
  end.

(** A line of [printParamList], without the newline at its end. *)
Definition param_text (key value : string) (printDefaults : bool) (defaultValue : string)
  : string :=
  key +:+ "=" +:+ str1 dquote +:+ value +:+ str1 dquote
      +:+ (if printDefaults
           then " # default: " +:+ str1 dquote +:+ defaultValue +:+ str1 dquote
           else EmptyString).

Section Reports.
Context `{Ext : Externals}.

(** The text a stored value is printed as: [tree.get] with the empty
    text as the default, which hands out the stored text as it is. *)
Definition tree_text (t : gmap string string) (key : string) : string :=
  default EmptyString (t !! key).

(** [printParamList]: what is written to the stream, and how the call
    ends; [registry().at(key)] throws for a key without an entry. *)
Fixpoint printParamList (keyList : list string) (printDefaults : bool) (md : MetaData)
  : string * result unit :=
  match keyList with
  | [] => (EmptyString, Ok tt)
  | key :: keyList' =>
      match registry md !! key with
      | None => (EmptyString, Throw out_of_range)
      | Some paramInfo =>
          let value := if hasKey (tree md) key then tree_text (tree md) key
                       else defaultValue paramInfo in
          let '(os, outcome) := printParamList keyList' printDefaults md in
          (param_text key value printDefaults (defaultValue paramInfo)
             +:+ str1 newline +:+ os, outcome)
      end
  end.

(** The keys of a list that have no entry in the registry, in the order
    of the list: the loop that fills [unknownKeyList]. *)
Definition unknown_keys (allKeys : list string) (md : MetaData) : list string :=
  foldl (λ unknownKeyList key,
           if bool_decide (registry md !! key = None)
           then unknownKeyList ++ [key] else unknownKeyList)
        [] allKeys.

Definition unused_text (md : MetaData) (unused : string) : string :=
  unused +:+ "=" +:+ str1 dquote +:+ tree_text (tree md) unused +:+ str1 dquote
         +:+ str1 newline.

(** [printUnused]: [runTimeAllKeyList] is the list [getFlattenedKeyList]
    fills from the value store, the keys of the stored values in the order
    in which the store hands them out.  The result is what is written to
    the stream and what the function returns. *)
Definition printUnused (runTimeAllKeyList : list string) (md : MetaData) : string * bool :=
  let unknownKeyList := unknown_keys runTimeAllKeyList md in
  if (0 <? length unknownKeyList)%nat then
    ("# [unused run-time specified parameters]" +:+ str1 newline
       +:+ foldr (λ unused os, unused_text md unused +:+ os) EmptyString unknownKeyList,
     true)
  else (EmptyString, false).

(** [getLists]: how the call ends, and what it leaves in [usedParams]
    and [unusedParams], which it clears first.  [allKeysList] is the list
    [getFlattenedKeyList] fills from the value store. *)
Definition getLists (allKeysList : list string) (md : MetaData)
  : result unit * (list (string * string) * list (string * string)) :=
  if registrationOpen md then
    (Throw (runtime_error
       "Parameter lists can only retrieved after _all_ of them have been registered."),
     ([], []))
  else
    (Ok tt,
     foldl (λ '(usedParams, unusedParams) key,
              if bool_decide (registry md !! key = None)
              then (usedParams, unusedParams ++ [(key, tree_text (tree md) key)])
              else (usedParams ++ [(key, tree_text (tree md) key)], unusedParams))
           ([], []) allKeysList).

End Reports.

(** * Properties *)

(** ** Characters *)

Lemma is_char_true a c : is_char a c = true ↔ a = c.
Proof. unfold is_char. apply bool_decide_eq_true. Qed.

Lemma is_char_false a c : is_char a c = false ↔ a ≠ c.
Proof. unfold is_char. apply bool_decide_eq_false. Qed.

Lemma is_char_refl a : is_char a a = true.
Proof. by apply is_char_true. Qed.

Ltac by_cases_on_char c :=
  destruct c as [[] [] [] [] [] [] [] []]; vm_compute; try done; auto.

Lemma toupper_tolower_upper c : isupper c = true → toupper (tolower c) = c.
Proof. by_cases_on_char c. Qed.

Lemma isalpha_tolower_upper c : isupper c = true → isalpha (tolower c) = true.
Proof. by_cases_on_char c. Qed.

Lemma tolower_not_upper c : isupper c = false → tolower c = c.
Proof. unfold tolower. by intros ->. Qed.

Lemma isalnum_not_hyphen c : isalnum c = true → is_char hyphen c = false.
Proof. by_cases_on_char c. Qed.

(** ** The quoted-value lexer *)

(** A plain body is copied up to the closing quote. *)
Lemma parseQuotedValue_plain body rest errorPrefix :
  plain body = true →
  parseQuotedValue (String dquote (body +:+ String dquote rest)) errorPrefix
  = Ok (body, rest).
Proof.
  intros Hplain. unfold parseQuotedValue. rewrite is_char_refl.
  induction body as [|c body IH]; [done|].
  apply andb_prop in Hplain as [Hc Hbody].
  apply andb_prop in Hc as [Hq Hb].
  apply negb_true_iff in Hq, Hb.
  simpl. rewrite Hq, Hb. by rewrite (IH Hbody).
Qed.

Lemma parseQuotedValue_loop_escape errorPrefix e s :
  parseQuotedValue_loop errorPrefix (String backslash (String e s))
  = match escape_of e with
    | Some x => result_map (λ '(r, rest), (String x r, rest))
                           (parseQuotedValue_loop errorPrefix s)
    | None => Throw (runtime_error (errorPrefix +:+ "Unknown escape character '"
                       +:+ str1 backslash +:+ str1 e +:+ "'"))
    end.
Proof.
  cbn [parseQuotedValue_loop]. rewrite is_char_refl. unfold escape_of.
  repeat (destruct (is_char _ e); [done|]). done.
Qed.

Lemma parseQuotedValue_loop_backslash_end errorPrefix :
  parseQuotedValue_loop errorPrefix (str1 backslash)
  = Throw (runtime_error (errorPrefix +:+ "Unexpected end of quoted string")).
Proof. done. Qed.

(** The example of the specification: quote, [a], backslash, [n], [b],
    backslash, quote, [c], quote. *)
Example parseQuotedValue_example errorPrefix :
  parseQuotedValue
    (String dquote (String "a" (String backslash (String "n" (String "b"
       (String backslash (String dquote (String "c" (str1 dquote)))))))))
    errorPrefix
  = Ok (String "a" (String newline (String "b" (String dquote (str1 "c")))),
        EmptyString).
Proof. reflexivity. Qed.

Example parseQuotedValue_unknown_escape :
  parseQuotedValue (String dquote (String backslash (String "x" (str1 dquote))))
                   "params.ini:3: "
  = Throw (runtime_error ("params.ini:3: Unknown escape character '"
                            +:+ str1 backslash +:+ "x'")).
Proof. reflexivity. Qed.

(** A text that ends inside the quoted string, and not right behind a
    backslash, leaves the loop at the end of the text; the [substr] that
    follows throws [std::out_of_range]. *)
Lemma parseQuotedValue_loop_plain_end errorPrefix body :
  plain body = true → parseQuotedValue_loop errorPrefix body = Throw out_of_range.
Proof.
  induction body as [|c body IH]; simpl; [done|].
  intros Hplain. apply andb_prop in Hplain as [Hc Hbody].
  apply andb_prop in Hc as [Hq Hb]. apply negb_true_iff in Hq, Hb.
  rewrite Hq, Hb. by rewrite (IH Hbody).
Qed.

(** ** The name transformer *)

Lemma transformKey_loop_hyphenate errorPrefix s rest :
  all_chars isalnum rest = true →
  transformKey_loop errorPrefix s (hyphenate rest) = Ok rest.
Proof.
  induction rest as [|c rest IH]; simpl; [done|].
  intros [Hc Hrest]%andb_prop.
  destruct (isupper c) eqn:Hup.
  - cbn. rewrite (isalpha_tolower_upper _ Hup), (toupper_tolower_upper _ Hup).
    by rewrite (IH Hrest).
  - rewrite (tolower_not_upper _ Hup). cbn.
    rewrite (isalnum_not_hyphen _ Hc), Hc. cbn. by rewrite (IH Hrest).
Qed.

Lemma cmdLineName_upper c rest :
  isupper c = true →
  cmdLineName (String c rest) = "--" +:+ kebabCase (String c rest).
Proof. intros Hup. unfold cmdLineName. simpl. by rewrite Hup. Qed.

Lemma cmdLineName_not_upper c rest :
  isupper c = false →
  cmdLineName (String c rest) = "-" +:+ kebabCase (String c rest).
Proof. intros Hup. unfold cmdLineName. simpl. by rewrite Hup. Qed.

(** C7 (amended).  For a canonical name that starts with an upper-case
    letter, the command-line form [printParamUsage] prints is two hyphens
    followed by the kebab-case form, and [transformKey] with
    [capitalizeFirst = true] takes the kebab-case form back to the name. *)
Theorem transformKey_kebabCase_roundtrip (paramName errorPrefix : string) :
  valid_name paramName = true →
  starts_with isupper paramName = true →
  cmdLineName paramName = "--" +:+ kebabCase paramName
  ∧ transformKey (kebabCase paramName) true errorPrefix = Ok paramName.
Proof.
  destruct paramName as [|c rest]; [done|].
  intros [_ [Hc Hrest]%andb_prop]%andb_prop Hup. simpl in Hup.
  split; [by apply cmdLineName_upper|].
  unfold transformKey, kebabCase.
  rewrite (isalpha_tolower_upper _ Hup). cbn [negb].
  rewrite (toupper_tolower_upper _ Hup).
  by rewrite (transformKey_loop_hyphenate _ _ _ Hrest).
Qed.

Lemma transformKey_kebabCase_roundtrip_witness :
  valid_name "MaxIterations2" = true
  ∧ cmdLineName "MaxIterations2" = "--max-iterations2"
  ∧ transformKey (kebabCase "MaxIterations2") true EmptyString = Ok "MaxIterations2".
Proof.
  split; [reflexivity|].
  apply (transformKey_kebabCase_roundtrip "MaxIterations2" EmptyString); reflexivity.
Defined.

(** C7 (as stated, refuted).  [myParam] is made of letters only and
    starts with a letter; its kebab-case form is [my-param], which
    [transformKey] with [capitalizeFirst = true] takes to [MyParam]. *)
Lemma transformKey_kebabCase_lower_first :
  valid_name "myParam" = true
  ∧ kebabCase "myParam" = "my-param"
  ∧ cmdLineName "myParam" = "-my-param"
  ∧ transformKey (kebabCase "myParam") true EmptyString = Ok "MyParam"
  ∧ transformKey (kebabCase "myParam") true EmptyString ≠ Ok "myParam".
Proof. repeat split; try reflexivity. discriminate. Qed.

(** ** The decimal text of an [int] *)

Lemma digits_prefix_acc d (acc : positive) :
  digits_prefix (Z.pos acc) (NilEmpty.string_of_uint d)
  = Z.pos (Pos.of_uint_acc d acc).
Proof.
  revert acc. induction d as [|d IH|d IH|d IH|d IH|d IH|d IH|d IH|d IH|d IH|d IH];
    intros acc; [done|..];
    cbn [NilEmpty.string_of_uint digits_prefix Pos.of_uint_acc];
    rewrite <- IH; change (isdigit _) with true; cbn match; f_equal;
    unfold digit_value; cbn; lia.
Qed.

Lemma digits_prefix_of_uint d :
  digits_prefix 0 (NilEmpty.string_of_uint d) = Z.of_N (Pos.of_uint d).
Proof.
  induction d as [|d IH|d IH|d IH|d IH|d IH|d IH|d IH|d IH|d IH|d IH];
    [done|exact IH|..];
    cbn [NilEmpty.string_of_uint digits_prefix Pos.of_uint Z.of_N];
    change (isdigit _) with true; cbn match;
    by rewrite <- digits_prefix_acc.
Qed.

Lemma string_of_uint_digit d :
  d ≠ Decimal.Nil →
  starts_with isdigit (NilEmpty.string_of_uint d) = true
  ∧ starts_with (is_char hyphen) (NilEmpty.string_of_uint d) = false.
Proof. destruct d; done. Qed.

(** What [oss << z] writes, [std::from_chars] reads back. *)
Lemma from_chars_int_to_text z previous :
  INT_MIN ≤ z ≤ INT_MAX →
  from_chars_int (NilZero.string_of_int (Z.to_int z)) previous = z.
Proof.
  intros Hz. destruct z as [|p|p].
  - reflexivity.
  - cbn [Z.to_int NilZero.string_of_int].
    pose proof (Unsigned.to_uint_nonnil p) as Hnil.
    destruct (string_of_uint_digit _ Hnil) as [Hdigit Hminus].
    assert (NilZero.string_of_uint (Pos.to_uint p)
            = NilEmpty.string_of_uint (Pos.to_uint p)) as ->
      by (by destruct (Pos.to_uint p)).
    unfold from_chars_int.
    destruct (NilEmpty.string_of_uint (Pos.to_uint p)) as [|c s] eqn:E; [done|].
    cbn in Hdigit, Hminus. rewrite Hminus.
    cbn [starts_with]. rewrite Hdigit, <- E, digits_prefix_of_uint.
    rewrite Unsigned.of_to. cbn [Z.of_N].
    rewrite Z.mul_1_l.
    by rewrite (proj2 (Z.leb_le _ _) (proj1 Hz)), (proj2 (Z.leb_le _ _) (proj2 Hz)).
  - cbn [Z.to_int NilZero.string_of_int].
    pose proof (Unsigned.to_uint_nonnil p) as Hnil.
    destruct (string_of_uint_digit _ Hnil) as [Hdigit _].
    assert (NilZero.string_of_uint (Pos.to_uint p)
            = NilEmpty.string_of_uint (Pos.to_uint p)) as ->
      by (by destruct (Pos.to_uint p)).
    unfold from_chars_int. rewrite is_char_refl.
    destruct (NilEmpty.string_of_uint (Pos.to_uint p)) as [|c s] eqn:E; [done|].
    cbn in Hdigit. cbn [starts_with]. rewrite Hdigit, <- E, digits_prefix_of_uint.
    rewrite Unsigned.of_to. cbn [Z.of_N].
    replace (-1 * Z.pos p) with (Z.neg p) by lia.
    by rewrite (proj2 (Z.leb_le _ _) (proj1 Hz)), (proj2 (Z.leb_le _ _) (proj2 Hz)).
Qed.

(** ** The registry *)

Section RegistryProperties.
Context `{Ext : Externals}.

Lemma with_registry_id md : with_registry (registry md) md = md.
Proof. by destruct md. Qed.

Lemma registry_index_Some key r info :
  r !! key = Some info → registry_index key r = (info, r).
Proof. unfold registry_index. by intros ->. Qed.

Lemma registry_index_None key r :
  r !! key = None →
  registry_index key r = (ParamInfo_empty, <[key := ParamInfo_empty]> r).
Proof. unfold registry_index. by intros ->. Qed.

(** *** Resolution *)

(** On a closed registry, [Get] of a registered parameter. *)
Lemma Get_registered md p info b :
  (b = true → registrationOpen md = false) →
  registry md !! name p = Some info →
  Get p b md
  = (tree_get (tree md) (name p) (default_from_text (value p) (defaultValue info)), md).
Proof.
  intros Hclosed Hreg. unfold Get.
  destruct b; cbn [andb].
  - rewrite (Hclosed eq_refl), Hreg. cbn [bool_decide].
    rewrite bool_decide_eq_false_2 by done.
    rewrite (registry_index_Some _ _ _ Hreg). by rewrite with_registry_id.
  - rewrite (registry_index_Some _ _ _ Hreg). by rewrite with_registry_id.
Qed.

(** [Get<Param>(true)] never changes the store. *)
Lemma Get_checked_state md p : (Get p true md).2 = md.
Proof.
  unfold Get. cbn [andb].
  destruct (registrationOpen md); [done|].
  case_bool_decide as Hreg; [done|].
  destruct (registry md !! name p) as [info|] eqn:E; [|done].
  rewrite (registry_index_Some _ _ _ E). cbn. apply with_registry_id.
Qed.

Lemma IsSet_state md p b : (IsSet p b md).2 = md.
Proof.
  unfold IsSet. destruct b; cbn [andb]; [|done].
  destruct (registrationOpen md); [done|]. by case_bool_decide.
Qed.

Lemma tree_parse_type ty text v : tree_parse ty text = Ok v → type_of v = ty.
Proof.
  destruct ty; cbn [tree_parse];
    [destruct (tree_parse_string text)|destruct (tree_parse_bool text)
    |destruct (tree_parse_int text)|destruct (tree_parse_scalar text)];
    cbn; by intros [= <-].
Qed.

(** C1.  On a closed registry and for a registered parameter.  When the
    store holds a text under the name, [Get] returns what the store's
    parser for the declared type of the parameter makes of it: the string,
    boolean, integer or floating-point parser of the value store, its
    value wrapped as a value of that type and its exception handed on.
    When the store holds none, [Get] returns the default text of the
    registry entry read into the declared type: a string as it is, a
    boolean as the comparison with [1], an integer as the number whose
    decimal text the default is, the compiled-in integer where the text
    does not start with a number, and a floating-point value through the
    conversion of the surroundings.  In both cases a value [Get] returns
    has the declared type.  [IsSet] tells whether the store has the name.
    Neither call changes the store. *)
Theorem Get_IsSet_after_endRegistration md p info :
  registrationOpen md = false →
  registry md !! name p = Some info →
  (∀ text, tree md !! name p = Some text →
     Get p true md = (tree_parse (type_of (value p)) text, md)
     ∧ (∀ s, value p = VString s →
          Get p true md = (result_map VString (tree_parse_string text), md))
     ∧ (∀ b, value p = VBool b →
          Get p true md = (result_map VBool (tree_parse_bool text), md))
     ∧ (∀ z, value p = VInt z →
          Get p true md = (result_map VInt (tree_parse_int text), md))
     ∧ (∀ x, value p = VScalar x →
          Get p true md = (result_map VScalar (tree_parse_scalar text), md)))
  ∧ (tree md !! name p = None →
       Get p true md = (Ok (default_from_text (value p) (defaultValue info)), md)
       ∧ (∀ s, value p = VString s →
            Get p true md = (Ok (VString (defaultValue info)), md))
       ∧ (∀ b, value p = VBool b →
            Get p true md = (Ok (VBool (bool_decide (defaultValue info = "1"))), md))
       ∧ (∀ z, value p = VInt z →
            Get p true md = (Ok (VInt (from_chars_int (defaultValue info) z)), md)
            ∧ (∀ z', INT_MIN ≤ z' ≤ INT_MAX →
                     defaultValue info = NilZero.string_of_int (Z.to_int z') →
                     Get p true md = (Ok (VInt z'), md))
            ∧ (starts_with (λ c, isdigit c || is_char hyphen c) (defaultValue info)
               = false →
               Get p true md = (Ok (VInt z), md)))
       ∧ (∀ x, value p = VScalar x →
            Get p true md
            = (Ok (VScalar (scalar_from_text x (defaultValue info))), md)))
  ∧ (∀ v, (Get p true md).1 = Ok v → type_of v = type_of (value p))
  ∧ IsSet p true md = (Ok (bool_decide (is_Some (tree md !! name p))), md).
Proof.
  intros Hclosed Hreg.
  assert (HGet := Get_registered md p info true (λ _, Hclosed) Hreg).
  assert (Hty : type_of (default_from_text (value p) (defaultValue info))
                = type_of (value p)) by (by destruct (value p)).
  split; [|split; [|split]].
  - intros text Htext. rewrite HGet. unfold tree_get. rewrite Htext, Hty.
    split; [done|]. by repeat split; intros ? ->.
  - intros Hnone. rewrite HGet. unfold tree_get. rewrite Hnone.
    split; [done|]. split; [by intros s ->|]. split; [|split].
    + intros b ->. cbn. repeat f_equal.
      destruct (String.eqb_spec (defaultValue info) "1") as [->|Hne].
      * by rewrite bool_decide_eq_true_2.
      * by rewrite bool_decide_eq_false_2.
    + intros z ->. cbn [default_from_text]. split; [done|]. split.
      * intros z' Hz' ->. by rewrite from_chars_int_to_text.
      * intros Hstart. repeat f_equal. unfold from_chars_int.
        destruct (defaultValue info) as [|c s]; [done|]. cbn [starts_with] in Hstart.
        apply orb_false_iff in Hstart as [Hdigit Hminus].
        rewrite Hminus. cbn [starts_with]. by rewrite Hdigit.
    + by intros x ->.
  - intros v. rewrite HGet. cbn [fst]. unfold tree_get.
    destruct (tree md !! name p) as [text|].
    + intros Hv%tree_parse_type. by rewrite Hv.
    + by intros [= <-].
  - unfold IsSet. cbn [andb]. rewrite Hclosed, Hreg.
    by rewrite bool_decide_eq_false_2.
Qed.

(** The default text of an entry: what [Register] and [SetDefault] put
    there. *)
Lemma Register_fresh md p usage :
  registrationOpen md = true →
  registry md !! name p = None →
  ∃ md', Register p usage md = (Ok tt, md')
    ∧ registry md' !! name p = Some (info_of p usage)
    ∧ defaultValue (info_of p usage) = to_text (value p).
Proof.
  intros Hopen Hfresh. unfold Register. rewrite Hopen. cbn.
  rewrite Hfresh. eexists. split; [done|]. cbn. by rewrite lookup_insert_eq.
Qed.

Lemma SetDefault_registered md p info new_value :
  registry md !! name p = Some info →
  ∃ md', SetDefault p new_value md = (Ok tt, md')
    ∧ registry md' !! name p = Some (with_defaultValue (to_text new_value) info)
    ∧ registrationOpen md' = registrationOpen md
    ∧ tree md' = tree md.
Proof.
  intros Hreg. unfold SetDefault. rewrite Hreg. eexists. split; [done|].
  cbn. by rewrite lookup_insert_eq.
Qed.

Lemma default_from_text_string compiled s :
  type_of compiled = TString → default_from_text compiled (to_text (VString s)) = VString s.
Proof. by destruct compiled. Qed.

Lemma default_from_text_bool compiled b :
  type_of compiled = TBool → default_from_text compiled (to_text (VBool b)) = VBool b.
Proof. destruct compiled; try done. by destruct b. Qed.

Lemma default_from_text_int compiled z :
  type_of compiled = TInt → INT_MIN ≤ z ≤ INT_MAX →
  default_from_text compiled (to_text (VInt z)) = VInt z.
Proof.
  destruct compiled; try done. intros _ Hz. cbn.
  by rewrite from_chars_int_to_text.
Qed.

(** With the default text [Register] or [SetDefault] has written, and
    no value in the store, [Get] returns the value the text was written
    from: a string, a boolean, an [int], and a floating-point value that
    its text conversions take back to itself. *)
Lemma Get_written_default md p info v :
  registrationOpen md = false →
  registry md !! name p = Some info →
  tree md !! name p = None →
  defaultValue info = to_text v →
  type_of v = type_of (value p) →
  match v with
  | VInt z => INT_MIN ≤ z ≤ INT_MAX
  | VScalar _ => default_from_text (value p) (to_text v) = v
  | _ => True
  end →
  Get p true md = (Ok v, md).
Proof.
  intros Hclosed Hreg Htree Htext Hty Hv.
  rewrite (Get_registered md p info true (λ _, Hclosed) Hreg).
  unfold tree_get. rewrite Htree, Htext. do 2 f_equal.
  destruct v as [s|b|z|x]; [| | |done].
  - by apply default_from_text_string.
  - by apply default_from_text_bool.
  - by apply default_from_text_int.
Qed.

(** *** Registration *)

(** [Register] on an open registry, by cases on the entry of the name. *)
Lemma Register_open md p usage :
  registrationOpen md = true →
  Register p usage md
  = match registry md !! name p with
    | Some registered =>
        (if ParamInfo_eqb registered (info_of p usage) then Ok tt
         else Throw (registered_twice p),
         with_finalizers (finalizers md ++ [p]) md)
    | None =>
        (Ok tt, with_registry (<[name p := info_of p usage]> (registry md))
                  (with_finalizers (finalizers md ++ [p]) md))
    end.
Proof.
  intros Hopen. unfold Register. rewrite Hopen. cbn [negb].
  cbn [registry with_finalizers].
  destruct (registry md !! name p) as [registered|]; [|done].
  fold (info_of p usage). by destruct (ParamInfo_eqb _ _).
Qed.

Lemma Register_keeps_open md p usage :
  registrationOpen (Register p usage md).2 = registrationOpen md.
Proof.
  destruct (registrationOpen md) eqn:Hopen.
  - rewrite (Register_open _ _ _ Hopen).
    by destruct (registry md !! name p).
  - unfold Register. by rewrite Hopen.
Qed.

Lemma ParamInfo_eqb_true a b :
  ParamInfo_eqb a b = true
  ↔ paramName a = paramName b ∧ paramTypeName a = paramTypeName b
    ∧ typeTagName a = typeTagName b ∧ usageString a = usageString b.
Proof.
  unfold ParamInfo_eqb. rewrite !andb_true_iff, !String.eqb_eq.
  split.
  - by intros [[[-> ->] ->] ->].
  - by intros (-> & -> & -> & ->).
Qed.

Lemma ParamInfo_eqb_refl a : ParamInfo_eqb a a = true.
Proof. by apply ParamInfo_eqb_true. Qed.

(** After a successful [Register] the entry of the name agrees with the
    registration in the four compared fields. *)
Lemma Register_Ok_entry md md' p usage :
  Register p usage md = (Ok tt, md') →
  registrationOpen md' = true
  ∧ ∃ registered, registry md' !! name p = Some registered
      ∧ ParamInfo_eqb registered (info_of p usage) = true.
Proof.
  intros HReg.
  destruct (registrationOpen md) eqn:Hopen.
  2:{ unfold Register in HReg. by rewrite Hopen in HReg. }
  rewrite (Register_open _ _ _ Hopen) in HReg.
  destruct (registry md !! name p) as [registered|] eqn:E.
  - destruct (ParamInfo_eqb registered (info_of p usage)) eqn:Heq; [|done].
    injection HReg as <-. split; [done|]. exists registered. by cbn.
  - injection HReg as <-. split; [done|]. exists (info_of p usage).
    cbn. rewrite lookup_insert_eq. split; [done|]. apply ParamInfo_eqb_refl.
Qed.

(** C3.  After a successful registration of [p1] with [usage1], a
    registration of [p2] with [usage2] under the same name succeeds and
    leaves the registry as it is when the type name and the usage string
    are the same (the type tag of a registration is always empty); when
    the type name or the usage string differs it fails with the error for
    a conflicting registration, the registry left unchanged as well. *)
Theorem Register_twice md md1 p1 usage1 p2 usage2 :
  Register p1 usage1 md = (Ok tt, md1) →
  name p2 = name p1 →
  (className (type_of (value p2)) = className (type_of (value p1)) ∧ usage2 = usage1 →
     (Register p2 usage2 md1).1 = Ok tt
     ∧ registry (Register p2 usage2 md1).2 = registry md1
     ∧ size (registry (Register p2 usage2 md1).2) = size (registry md1))
  ∧ (className (type_of (value p2)) ≠ className (type_of (value p1)) ∨ usage2 ≠ usage1 →
       (Register p2 usage2 md1).1 = Throw (registered_twice p2)
       ∧ registry (Register p2 usage2 md1).2 = registry md1).
Proof.
  intros HReg Hname.
  destruct (Register_Ok_entry _ _ _ _ HReg) as (Hopen & registered & Hentry & Heq).
  rewrite (Register_open _ _ _ Hopen), Hname, Hentry.
  apply ParamInfo_eqb_true in Heq as (Hn & Ht & Hg & Hu). cbn in Hn, Ht, Hg, Hu.
  split.
  - intros [Hty ->].
    assert (ParamInfo_eqb registered (info_of p2 usage1) = true) as ->; [|done].
    apply ParamInfo_eqb_true. cbn. by rewrite Hname, Hty.
  - intros Hdiff.
    assert (ParamInfo_eqb registered (info_of p2 usage2) = false) as ->; [|done].
    apply not_true_is_false. intros (_ & Ht' & _ & Hu')%ParamInfo_eqb_true.
    cbn in Ht', Hu'. destruct Hdiff as [Hd|Hd]; apply Hd; congruence.
Qed.

(** The default value is not compared: a second registration that
    differs in the compiled-in value only succeeds, and the entry keeps
    the default text of the first. *)
Lemma Register_twice_other_default md md1 p usage v :
  Register p usage md = (Ok tt, md1) →
  type_of v = type_of (value p) →
  Register {| name := name p; value := v |} usage md1
  = (Ok tt, with_finalizers (finalizers md1 ++ [{| name := name p; value := v |}]) md1).
Proof.
  intros HReg Hty.
  destruct (Register_Ok_entry _ _ _ _ HReg) as (Hopen & registered & Hentry & Heq).
  rewrite (Register_open _ _ _ Hopen). cbn [name]. rewrite Hentry.
  assert (ParamInfo_eqb registered (info_of {| name := name p; value := v |} usage) = true)
    as ->; [|done].
  apply ParamInfo_eqb_true in Heq as (Hn & Ht & Hg & Hu).
  apply ParamInfo_eqb_true. cbn in *. by rewrite Hty.
Qed.

(** [register_all] on an open registry. *)
Lemma register_all_cons p usage ps md :
  register_all ((p, usage) :: ps) md = register_all ps (Register p usage md).2.
Proof. done. Qed.

Lemma register_all_finalizers ps md :
  registrationOpen md = true →
  finalizers (register_all ps md) = finalizers md ++ ps.*1.
Proof.
  revert md. induction ps as [|[p usage] ps IH]; intros md Hopen.
  - cbn. by rewrite app_nil_r.
  - rewrite register_all_cons, IH.
    + rewrite (Register_open _ _ _ Hopen).
      destruct (registry md !! name p); cbn; by rewrite <- app_assoc.
    + by rewrite Register_keeps_open.
Qed.

(** On a closed registry [Register] throws before it comes to the
    list of validators: the store stays as it is. *)
Lemma Register_closed md p usage :
  registrationOpen md = false →
  Register p usage md
  = (Throw (logic_error ("Parameter registration was already closed before "
                           +:+ "the parameter '" +:+ name p +:+ "' was registered.")),
     md).
Proof. intros Hclosed. unfold Register. by rewrite Hclosed. Qed.

(** C10 (amended).  On an open registry every [Register] call appends
    its validator, whatever its outcome: also when the name is registered
    already, where the call succeeds or fails and leaves the registry as
    it is, so that a call that fails with the registered-twice error has
    changed the list all the same.  After any sequence of [Register]
    calls on an open registry the list has grown by the number of
    calls. *)
Theorem Register_enqueues_validator_first md p usage :
  registrationOpen md = true →
  finalizers (Register p usage md).2 = finalizers md ++ [p]
  ∧ (∀ registered, registry md !! name p = Some registered →
       registry (Register p usage md).2 = registry md
       ∧ (ParamInfo_eqb registered (info_of p usage) = true →
            (Register p usage md).1 = Ok tt)
       ∧ (ParamInfo_eqb registered (info_of p usage) = false →
            (Register p usage md).1 = Throw (registered_twice p)))
  ∧ (∀ ps, length (finalizers (register_all ps md))
           = (length (finalizers md) + length ps)%nat).
Proof.
  intros Hopen. rewrite (Register_open _ _ _ Hopen). split; [|split].
  - by destruct (registry md !! name p).
  - intros registered ->. by repeat split; intros ->.
  - intros ps. rewrite (register_all_finalizers _ _ Hopen).
    by rewrite length_app, length_fmap.
Qed.

(** *** Queries without the registration check *)

(** C9.  [Get<Param>(false)] for a name without an entry leaves the
    registry with a new, empty entry under the name; the default it falls
    back to comes from the empty default text of that entry, so that a
    string parameter without a value in the store yields the empty string
    and not [Param::value]. *)
Theorem Get_unchecked_inserts_entry md p :
  registry md !! name p = None →
  registry (Get p false md).2 = <[name p := ParamInfo_empty]> (registry md)
  ∧ registry (Get p false md).2 !! name p = Some ParamInfo_empty
  ∧ defaultValue ParamInfo_empty = EmptyString
  ∧ size (registry (Get p false md).2) = S (size (registry md))
  ∧ (∀ s, value p = VString s →
       (Get p false md).1 = tree_get (tree md) (name p) (VString EmptyString)
       ∧ (tree md !! name p = None → (Get p false md).1 = Ok (VString EmptyString))).
Proof.
  intros Hnone. unfold Get. cbn [andb].
  rewrite (registry_index_None _ _ Hnone). cbn.
  split; [done|]. split; [apply lookup_insert_eq|]. split; [done|].
  split; [by apply map_size_insert_None|].
  intros s ->. split; [done|].
  intros Htree. unfold tree_get. by rewrite Htree.
Qed.

(** *** Closing the registration *)

Lemma retrieve_all_get_each ps md : retrieve_all ps md = (get_each ps md, md).
Proof.
  induction ps as [|p ps IH]; [done|]. cbn [retrieve_all get_each].
  destruct (Get p true md) as [r md'] eqn:E.
  assert (md' = md) as -> by (by rewrite <- (Get_checked_state md p), E).
  destruct r as [v|e]; [|done]. rewrite IH. cbn. by destruct (get_each ps md).
Qed.

Lemma get_each_Ok ps md vs :
  get_each ps md = Ok vs ↔ Forall2 (λ p v, (Get p true md).1 = Ok v) ps vs.
Proof.
  revert vs. induction ps as [|p ps IH]; intros vs; cbn [get_each].
  - split.
    + intros [= <-]. constructor.
    + by intros ->%Forall2_nil_inv_l.
  - split.
    + destruct (Get p true md).1 as [v|e] eqn:Ev; [|done]. cbn.
      destruct (get_each ps md) as [vs'|e] eqn:Evs; [|done]. cbn.
      intros [= <-]. constructor; [done|]. by apply IH.
    + intros (v & vs' & Hv & Hvs & ->)%Forall2_cons_inv_l.
      rewrite Hv. cbn. apply IH in Hvs. by rewrite Hvs.
Qed.

Lemma get_each_Throw ps md :
  Exists (λ p, is_Ok (Get p true md).1 = false) ps → ∃ e, get_each ps md = Throw e.
Proof.
  induction 1 as [p ps Hp|p ps _ [e IH]]; cbn [get_each].
  - destruct (Get p true md).1 as [v|e]; [done|]. by exists e.
  - destruct (Get p true md).1 as [v|e']; [|by exists e'].
    cbn. rewrite IH. by exists e.
Qed.

(** A malformed value in the store makes [Get] fail with the error of
    the store's parser. *)
Lemma Get_parse_error md p info text e :
  registrationOpen md = false →
  registry md !! name p = Some info →
  tree md !! name p = Some text →
  tree_parse (type_of (value p)) text = Throw e →
  Get p true md = (Throw e, md).
Proof.
  intros Hclosed Hreg Htext Hparse.
  rewrite (Get_registered md p info true (λ _, Hclosed) Hreg).
  unfold tree_get. rewrite Htext.
  assert (type_of (default_from_text (value p) (defaultValue info))
          = type_of (value p)) as Hty by (by destruct (value p)).
  by rewrite Hty, Hparse.
Qed.

Lemma endRegistration_closed md :
  registrationOpen md = false → endRegistration md = (Throw already_closed, md).
Proof. intros Hclosed. unfold endRegistration. by rewrite Hclosed. Qed.

Lemma endRegistration_open md :
  registrationOpen md = true →
  endRegistration md
  = match get_each (finalizers md) (with_registrationOpen false md) with
    | Ok _ => (Ok tt, with_finalizers [] (with_registrationOpen false md))
    | Throw e => (Throw e, with_registrationOpen false md)
    end.
Proof.
  intros Hopen. unfold endRegistration. rewrite Hopen. cbn [negb].
  rewrite retrieve_all_get_each. cbn [finalizers with_registrationOpen].
  by destruct (get_each _ _).
Qed.

(** Only [reset] opens the registration again. *)
Lemma parseCommandLine_loop_registry cb argv rest i skip seenKeys n md :
  ∃ t, (parseCommandLine_loop cb argv rest i skip seenKeys n md).2 = with_tree t md.
Proof.
  revert i skip seenKeys n md.
  induction rest as [|arg rest IH]; intros i skip seenKeys n md; cbn [parseCommandLine_loop].
  - exists (tree md). by destruct md.
  - destruct skip as [|skip']; [|apply IH].
    destruct (is_positional arg).
    + destruct (numHandled _ <? 1); [by eexists|].
      edestruct IH as [t Ht]. rewrite Ht. by eexists.
    + destruct (parseNamedOption arg i seenKeys) as [[msg|k v]|e];
        [exists (tree md); by destruct md| |exists (tree md); by destruct md].
      edestruct IH as [t Ht]. rewrite Ht. by eexists.
Qed.

Lemma parseCommandLineOptions_registry argv helpPreamble cb md :
  ∃ t, (parseCommandLineOptions argv helpPreamble cb md).2 = with_tree t md.
Proof.
  unfold parseCommandLineOptions.
  destruct (_ && _); [exists (tree md); by destruct md|].
  apply parseCommandLine_loop_registry.
Qed.

Lemma parseParameterFile_line_registry fileName overwrite n curLine seenKeys md :
  ∃ t, (parseParameterFile_line fileName overwrite n curLine seenKeys md).2
       = with_tree t md.
Proof.
  assert (Hid : ∀ A (r : result A), ∃ t, (r, md).2 = with_tree t md)
    by (intros; exists (tree md); by destruct md).
  unfold parseParameterFile_line.
  destruct (blank_or_comment _); [apply Hid|].
  destruct (parseKey _) as [key rest].
  destruct (transformKey _ _ _) as [canonicalKey|e]; [|apply Hid].
  case_bool_decide; [apply Hid|].
  destruct (substr_from _ _) as [rest'|e]; [|apply Hid].
  destruct (if starts_with _ _ then _ else _) as [[v rest'']|e]; [|apply Hid].
  destruct (_ || _); [by eexists|apply Hid].
Qed.

Lemma parseParameterFile_loop_registry fileName overwrite lines n seenKeys md :
  ∃ t, (parseParameterFile_loop fileName overwrite lines n seenKeys md).2
       = with_tree t md.
Proof.
  revert n seenKeys md.
  induction lines as [|l lines IH]; intros n seenKeys md; cbn [parseParameterFile_loop].
  - exists (tree md). by destruct md.
  - destruct (parseParameterFile_line_registry fileName overwrite
                (next_line_number n) l seenKeys md) as [t Ht].
    destruct (parseParameterFile_line _ _ _ _ _ _) as [[seenKeys'|e] md']; cbn in Ht; subst md'.
    + edestruct IH as [t' Ht']. rewrite Ht'. by eexists.
    + by eexists.
Qed.

Lemma parseParameterFile_registry fileName file overwrite md :
  ∃ t, (parseParameterFile fileName file overwrite md).2 = with_tree t md.
Proof.
  unfold parseParameterFile. destruct file.
  - apply parseParameterFile_loop_registry.
  - exists (tree md). by destruct md.
Qed.

Lemma run_call_stays_closed c md :
  registrationOpen md = false → registrationOpen (run_call c md) = false.
Proof.
  intros Hclosed. destruct c; cbn [run_call].
  - by rewrite Register_keeps_open.
  - unfold Hide. by rewrite Hclosed.
  - by rewrite (endRegistration_closed _ Hclosed).
  - unfold Get. destruct (_ && _); [done|]. destruct (_ && _); [done|].
    by destruct (registry_index _ _).
  - by rewrite IsSet_state.
  - unfold SetDefault. by destruct (registry md !! name p).
  - destruct (parseCommandLineOptions_registry argv helpPreamble posArgCallback md)
      as [t ->]. done.
  - destruct (parseParameterFile_registry fileName file overwrite md) as [t ->]. done.
Qed.

Lemma run_calls_stay_closed cs md :
  registrationOpen md = false → registrationOpen (run_calls cs md) = false.
Proof.
  revert md. induction cs as [|c cs IH]; intros md Hclosed; [done|].
  apply IH. by apply run_call_stays_closed.
Qed.

(** C6.  [endRegistration] on a closed registry fails with the error
    for a registration that is closed already.  On an open registry it
    closes the registration and runs the validators in the order of the
    list, each once, on the closed registry: when all of them return, the
    call succeeds and leaves the list empty; when one fails, as it does on
    a value in the store that the parser of the type rejects, the call
    fails.  After a successful call, and whatever calls other than [reset]
    follow it, a further call fails. *)
Theorem endRegistration_once md :
  (registrationOpen md = false → endRegistration md = (Throw already_closed, md))
  ∧ (registrationOpen md = true →
       let closed := with_registrationOpen false md in
       (∀ vs, Forall2 (λ p v, Get p true closed = (Ok v, closed)) (finalizers md) vs →
              endRegistration md = (Ok tt, with_finalizers [] closed))
       ∧ (Exists (λ p, is_Ok (Get p true closed).1 = false) (finalizers md) →
            ∃ e, endRegistration md = (Throw e, closed))
       ∧ (∀ p info text e,
            p ∈ finalizers md → registry md !! name p = Some info →
            tree md !! name p = Some text →
            tree_parse (type_of (value p)) text = Throw e →
            ∃ e', endRegistration md = (Throw e', closed)))
  ∧ (∀ md', endRegistration md = (Ok tt, md') →
       registrationOpen md = true
       ∧ md' = with_finalizers [] (with_registrationOpen false md)
       ∧ (∃ vs, Forall2 (λ p v, Get p true (with_registrationOpen false md)
                                = (Ok v, with_registrationOpen false md))
                        (finalizers md) vs)
       ∧ ∀ cs, endRegistration (run_calls cs md')
               = (Throw already_closed, run_calls cs md')).
Proof.
  split; [apply endRegistration_closed|]. split.
  - intros Hopen closed.
    assert (Hthrow : Exists (λ p, is_Ok (Get p true closed).1 = false) (finalizers md) →
                     ∃ e, endRegistration md = (Throw e, closed)).
    { intros [e He]%get_each_Throw. exists e.
      rewrite (endRegistration_open _ Hopen). fold closed. by rewrite He. }
    split; [|split; [done|]].
    + intros vs Hvs. rewrite (endRegistration_open _ Hopen). fold closed.
      assert (get_each (finalizers md) closed = Ok vs) as ->; [|done].
      apply get_each_Ok. eapply Forall2_impl; [done|]. by intros p v ->.
    + intros p info text e Hp Hreg Htext Hparse. apply Hthrow.
      apply Exists_exists. exists p. split; [done|].
      by rewrite (Get_parse_error closed p info text e).
  - intros md' Hend.
    destruct (registrationOpen md) eqn:Hopen.
    2:{ by rewrite (endRegistration_closed _ Hopen) in Hend. }
    rewrite (endRegistration_open _ Hopen) in Hend.
    destruct (get_each _ _) as [vs|e] eqn:Evs; [|done].
    injection Hend as <-. split; [done|]. split; [done|]. split.
    + exists vs. apply get_each_Ok in Evs.
      eapply Forall2_impl; [done|]. intros p v Hv. cbn beta in Hv.
      pose proof (Get_checked_state (with_registrationOpen false md) p) as Hst.
      destruct (Get p true _) as [r md2]. cbn in Hv, Hst. by subst.
    + intros cs. apply endRegistration_closed. by apply run_calls_stay_closed.
Qed.

End RegistryProperties.

(** ** Source ingestion *)

Section IngestionProperties.
Context `{Ext : Externals}.

(** *** The command line *)

Lemma is_positional_spec arg :
  is_positional arg = true
  ↔ (String.length arg < 4)%nat ∨ String.prefix "--" arg = false.
Proof.
  unfold is_positional.
  destruct arg as [|a [|b rest]]; cbn [String.length String.get String.prefix].
  - split; [left; lia|done].
  - split; [left; lia|done].
  - rewrite !orb_true_iff, !negb_true_iff, Nat.ltb_lt.
    rewrite !bool_decide_eq_false.
    destruct (ascii_dec "-" a) as [<-|Ha]; [destruct (ascii_dec "-" b) as [<-|Hb]|].
    + unfold hyphen. destruct rest; cbn [String.prefix]; intuition congruence.
    + split; [by right|]. intros _. right. by intros [= ->].
    + split; [by right|]. intros _. left. right. by intros [= ->].
Qed.

Lemma substring_all s : substring 0 (String.length s) s = s.
Proof. induction s as [|c s IH]; [done|]. cbn. by rewrite IH. Qed.

(** A key that [transformKey] accepts ends at the [=] that follows it. *)
Lemma parseKey_stops key rest :
  all_chars key_char key = true →
  parseKey (key +:+ String "=" rest) = (key, String "=" rest).
Proof.
  induction key as [|c key IH]; [done|].
  intros [Hc Hkey]%andb_prop. apply negb_true_iff in Hc.
  change (String c key +:+ String "=" rest) with (String c (key +:+ String "=" rest)).
  cbn [parseKey]. rewrite Hc. by rewrite (IH Hkey).
Qed.

(** A key that [transformKey] accepts has neither white space nor [=]. *)
Lemma isalnum_key_char c : isalnum c = true → key_char c = true.
Proof. by_cases_on_char c. Qed.

Lemma hyphen_key_char c : is_char hyphen c = true → key_char c = true.
Proof. by intros <-%is_char_true. Qed.

Lemma transformKey_loop_key_chars errorPrefix s rest paramName :
  transformKey_loop errorPrefix s rest = Ok paramName →
  all_chars key_char rest = true.
Proof.
  revert paramName.
  assert (H : ∀ n rest paramName, (String.length rest ≤ n)%nat →
              transformKey_loop errorPrefix s rest = Ok paramName →
              all_chars key_char rest = true); [|by eauto].
  clear rest. intros n. induction n as [|n IH]; intros [|c rest] paramName Hlen;
    cbn [String.length] in Hlen; try done; try lia.
  cbn [transformKey_loop all_chars].
  destruct (is_char hyphen c) eqn:Hhyphen.
  - rewrite (hyphen_key_char _ Hhyphen). destruct rest as [|d rest]; [done|].
    destruct (isalpha d) eqn:Hd; [|done].
    destruct (transformKey_loop errorPrefix s rest) as [r|] eqn:Hrest; [|done].
    intros _. cbn [all_chars andb].
    rewrite (isalnum_key_char d) by (unfold isalnum; by rewrite Hd).
    cbn in Hlen. apply (IH rest r); [lia|done].
  - destruct (isalnum c) eqn:Hc; [|done]. cbn [negb].
    destruct (transformKey_loop errorPrefix s rest) as [r|] eqn:Hrest; [|done].
    intros _. rewrite (isalnum_key_char _ Hc). apply (IH rest r); [lia|done].
Qed.

Lemma transformKey_key_chars errorPrefix s b paramName :
  transformKey s b errorPrefix = Ok paramName →
  starts_with isalpha s = true ∧ all_chars key_char s = true.
Proof.
  destruct s as [|c rest]; [done|]. cbn [transformKey starts_with all_chars].
  destruct (isalpha c) eqn:Hc; [|done]. cbn [negb].
  destruct (transformKey_loop errorPrefix (String c rest) rest) as [r|] eqn:Hrest; [|done].
  intros _. split; [done|].
  rewrite (isalnum_key_char c) by (unfold isalnum; by rewrite Hc).
  by eapply transformKey_loop_key_chars.
Qed.

(** The named branch on [--key=value]: the name is transformed, looked
    up among the seen keys, and paired with the text behind the [=]. *)
Lemma parseNamedOption_key_value key value i seenKeys paramName :
  transformKey key true EmptyString = Ok paramName →
  parseNamedOption ("--" +:+ key +:+ String "=" value) i seenKeys
  = Ok (if bool_decide (paramName ∈ seenKeys)
        then NamedError ("Parameter '" +:+ paramName
                           +:+ "' specified multiple times as a "
                           +:+ "command line parameter")
        else NamedValue paramName value).
Proof.
  intros Htr. destruct (transformKey_key_chars _ _ _ _ Htr) as [Hc Hkey].
  destruct key as [|c key]; [done|]. cbn in Hc.
  unfold parseNamedOption.
  set (tail := key +:+ String "=" value).
  change ("--" +:+ String c key +:+ String "=" value)
    with (String "-" (String "-" (String c tail))).
  cbn [String.get]. rewrite Hc. cbn [negb].
  cbn [String.length Nat.sub substring]. rewrite substring_all.
  change (String c tail) with (String c key +:+ String "=" value).
  rewrite (parseKey_stops _ _ Hkey), Htr. cbn.
  case_bool_decide; [done|]. by rewrite is_char_refl.
Qed.

Lemma is_positional_false arg :
  is_positional arg = false
  ↔ (4 ≤ String.length arg)%nat ∧ String.prefix "--" arg = true.
Proof.
  rewrite <- not_true_iff_false, is_positional_spec.
  destruct (String.prefix "--" arg); split; intros H.
  - split; [|done]. lia.
  - intros [?|[=]]. lia.
  - tauto.
  - by destruct H.
Qed.

Lemma prefix_two_hyphens s : String.prefix "--" ("--" +:+ s) = true.
Proof. by destruct s. Qed.

(** C4 (amended).  An argument the loop comes to is handed to the
    positional-argument callback when it is shorter than four characters
    or does not start with two hyphens: the outcome is what the callback
    makes of it.  An argument of four characters or more that starts with
    two hyphens is processed as a named option and not shown to the
    callback; for [--key=value] with a key that [transformKey] accepts,
    the transformed name is looked up among the seen keys, and when it is
    new it is added to them and the value is stored under it. *)
Theorem parseCommandLine_dispatch
    (cb : PositionalArgumentCallback) argv arg rest i seenKeys n md :
  ((String.length arg < 4)%nat ∨ String.prefix "--" arg = false →
     parseCommandLine_loop cb argv (arg :: rest) i 0 seenKeys n md
     = let out := cb seenKeys argv i n in
       let md' := with_tree (tree_assign (tree md) (assignments out)) md in
       if numHandled out <? 1 then (Ok (errorMsg out), md')
       else parseCommandLine_loop cb argv rest (S i) (Z.to_nat (numHandled out - 1))
              (seenKeysAfter out) (n + 1) md')
  ∧ ((4 ≤ String.length arg)%nat ∧ String.prefix "--" arg = true →
       parseCommandLine_loop cb argv (arg :: rest) i 0 seenKeys n md
       = match parseNamedOption arg i seenKeys with
         | Throw e => (Throw e, md)
         | Ok (NamedError msg) => (Ok msg, md)
         | Ok (NamedValue paramName paramValue) =>
             parseCommandLine_loop cb argv rest (S i) 0 ({[paramName]} ∪ seenKeys) n
               (with_tree (<[paramName := paramValue]> (tree md)) md)
         end)
  ∧ (∀ key value paramName,
       arg = "--" +:+ key +:+ String "=" value →
       transformKey key true EmptyString = Ok paramName →
       parseCommandLine_loop cb argv (arg :: rest) i 0 seenKeys n md
       = if bool_decide (paramName ∈ seenKeys)
         then (Ok ("Parameter '" +:+ paramName +:+ "' specified multiple times as a "
                     +:+ "command line parameter"), md)
         else parseCommandLine_loop cb argv rest (S i) 0 ({[paramName]} ∪ seenKeys) n
                (with_tree (<[paramName := value]> (tree md)) md)).
Proof.
  split; [|split].
  - intros Hpos%is_positional_spec. cbn [parseCommandLine_loop]. by rewrite Hpos.
  - intros Hpos%is_positional_false. cbn [parseCommandLine_loop]. by rewrite Hpos.
  - intros key value paramName -> Htr.
    assert (is_positional ("--" +:+ key +:+ String "=" value) = false) as Hpos.
    { apply is_positional_false. split; [|apply prefix_two_hyphens].
      destruct key as [|c key]; [done|].
      change ("--" +:+ String c key +:+ String "=" value)
        with (String "-" (String "-" (String c (key +:+ String "=" value)))).
      destruct key as [|d key];
        [change (EmptyString +:+ String "=" value) with (String "=" value)
        |change (String d key +:+ String "=" value)
           with (String d (key +:+ String "=" value))];
        cbn [String.length]; lia. }
    cbn [parseCommandLine_loop]. rewrite Hpos.
    rewrite (parseNamedOption_key_value _ _ _ _ _ Htr).
    by case_bool_decide.
Qed.

(** The example of the documentation: [--my-opt=abc] stores [abc]
    under [MyOpt]; a repeated name is reported. *)
Example parseCommandLine_named :
  parseCommandLineOptions ["prog"; "--my-opt=abc"] EmptyString noPositionalParameters_
    MetaData_clear
  = (Ok EmptyString, with_tree {[ "MyOpt" := "abc" ]} MetaData_clear)
  ∧ (parseCommandLineOptions ["prog"; "--max-iterations=10"; "--max-iterations=20"]
       EmptyString noPositionalParameters_ MetaData_clear).1
    = Ok "Parameter 'MaxIterations' specified multiple times as a command line parameter".
Proof. split; vm_compute; reflexivity. Qed.

(** *** The parameter file *)

(** A line of the form [key = value], a trailing comment included, is
    stored; the second occurrence of a key fails with the file name and
    the line number. *)
Example parseParameterFile_well_formed :
  parseParameterFile "params.ini" (Some "foo-bar = 42   # note") true MetaData_clear
  = (Ok tt, with_tree {[ "FooBar" := "42" ]} MetaData_clear)
  ∧ (parseParameterFile "params.ini"
       (Some ("foo-bar = 42" +:+ str1 newline +:+ "foo-bar = 43")) true
       MetaData_clear).1
    = Throw (runtime_error
        "params.ini:2: Parameter 'FooBar' seen multiple times in the same file").
Proof. split; vm_compute; reflexivity. Qed.

(** C2 (the code at failing inputs).  None of the three deviations
    fails: a key followed by text without [=] loses the first character
    of that text and stores the rest; a missing value is stored as the
    empty text; a comment in place of the value is stored as [#]; text
    behind the value is dropped.  Only a line that ends right behind the
    key fails, with the [std::out_of_range] of [substr], which carries
    neither the file name nor the line number. *)
Theorem parseParameterFile_accepts_malformed_lines :
  parseParameterFile "params.ini" (Some "foo 42") true MetaData_clear
  = (Ok tt, with_tree {[ "Foo" := "2" ]} MetaData_clear)
  ∧ parseParameterFile "params.ini" (Some "foo =") true MetaData_clear
    = (Ok tt, with_tree {[ "Foo" := EmptyString ]} MetaData_clear)
  ∧ parseParameterFile "params.ini" (Some "foo = # note") true MetaData_clear
    = (Ok tt, with_tree {[ "Foo" := "#" ]} MetaData_clear)
  ∧ parseParameterFile "params.ini" (Some "foo = 1 bar") true MetaData_clear
    = (Ok tt, with_tree {[ "Foo" := "1" ]} MetaData_clear)
  ∧ parseParameterFile "params.ini" (Some "foo") true MetaData_clear
    = (Throw out_of_range, MetaData_clear).
Proof. repeat split; vm_compute; reflexivity. Qed.

End IngestionProperties.

(** ** The line-wrapping helper *)

(** *** Texts *)

Lemma app_String c s t : String c s +:+ t = String c (s +:+ t).
Proof. done. Qed.

Lemma app_empty_l s : EmptyString +:+ s = s.
Proof. done. Qed.

Lemma app_empty_r s : s +:+ EmptyString = s.
Proof. induction s as [|c s IH]; [done|]. by rewrite app_String, IH. Qed.

Lemma sapp_assoc s t u : (s +:+ t) +:+ u = s +:+ (t +:+ u).
Proof. induction s as [|c s IH]; [done|]. by rewrite !app_String, IH. Qed.

Lemma substring_stake_sdrop n m s : substring n m s = stake m (sdrop n s).
Proof.
  revert n m. induction s as [|c s IH]; intros [|n] [|m]; cbn; try done.
  by rewrite (IH 0%nat m).
Qed.

Lemma sdrop_length n s : String.length (sdrop n s) = (String.length s - n)%nat.
Proof. revert n. induction s as [|c s IH]; intros [|n]; cbn; auto. Qed.

Lemma sdrop_sdrop a b s : sdrop b (sdrop a s) = sdrop (a + b) s.
Proof.
  revert a. induction s as [|c s IH]; intros [|a]; cbn; try done.
  by destruct b.
Qed.

Lemma stake_all n s : (String.length s ≤ n)%nat → stake n s = s.
Proof.
  revert n. induction s as [|c s IH]; intros [|n] Hn; cbn in *; try done; try lia.
  rewrite IH; [done|lia].
Qed.

Lemma stake_add a b s : stake (a + b) s = stake a s +:+ stake b (sdrop a s).
Proof.
  revert s. induction a as [|a IH]; intros [|c s]; cbn; try done.
  - by destruct b.
  - by rewrite app_String, IH.
Qed.

Lemma stake_sdrop n s : stake n s +:+ sdrop n s = s.
Proof.
  revert s. induction n as [|n IH]; intros [|c s]; cbn; try done.
  by rewrite app_String, IH.
Qed.

Lemma stake_length k s : (String.length (stake k s) ≤ k)%nat.
Proof.
  revert s. induction k as [|k IH]; intros [|c s]; cbn; try lia.
  specialize (IH s). lia.
Qed.

(** The character at a position inside the text heads the text behind
    the position. *)
Lemma sdrop_char_at i s :
  (i < String.length s)%nat →
  sdrop i s = String (char_at s (Z.of_nat i)) (sdrop (S i) s).
Proof.
  unfold char_at. rewrite Nat2Z.id.
  revert i. induction s as [|c s IH]; intros [|i] Hi; cbn in *; try done; try lia.
  apply IH. lia.
Qed.

Lemma substring_split a k1 k2 s :
  substring a (k1 + k2) s = substring a k1 s +:+ substring (a + k1) k2 s.
Proof. by rewrite !substring_stake_sdrop, stake_add, sdrop_sdrop. Qed.

Lemma substring_one i s :
  (i < String.length s)%nat → substring i 1 s = str1 (char_at s (Z.of_nat i)).
Proof.
  intros Hi. rewrite substring_stake_sdrop, (sdrop_char_at _ _ Hi). cbn.
  by destruct (sdrop (S i) s).
Qed.

Lemma substring_zero a s : substring a 0 s = EmptyString.
Proof. rewrite substring_stake_sdrop. by destruct (sdrop a s). Qed.

Lemma substring_to_end a k s :
  (String.length s ≤ a + k)%nat → substring a k s = sdrop a s.
Proof.
  intros Hk. rewrite substring_stake_sdrop. apply stake_all.
  rewrite sdrop_length. lia.
Qed.

Lemma substring_length a k s : (String.length (substring a k s) ≤ k)%nat.
Proof. rewrite substring_stake_sdrop. apply stake_length. Qed.

Lemma stake_split a b s :
  (a ≤ b)%nat → stake b s = stake a s +:+ substring a (b - a) s.
Proof.
  intros Hab. replace b with (a + (b - a))%nat at 1 by lia.
  by rewrite stake_add, substring_stake_sdrop.
Qed.

(** *** Columns, widths and newlines *)

Lemma column_app col s t : column col (s +:+ t) = column (column col s) t.
Proof.
  revert col. induction s as [|c s IH]; intros col; [done|].
  rewrite app_String. cbn. destruct (is_char newline c); apply IH.
Qed.

Lemma column_le col s : (column col s ≤ col + String.length s)%nat.
Proof.
  revert col. induction s as [|c s IH]; intros col; cbn; [lia|].
  destruct (is_char newline c).
  - specialize (IH 0%nat). lia.
  - specialize (IH (S col)). lia.
Qed.

Lemma column_str1 col c :
  column col (str1 c) = if is_char newline c then 0%nat else S col.
Proof. cbn. by destruct (is_char newline c). Qed.

Lemma fits_column w col s : fits w col s → (column col s ≤ w)%nat.
Proof.
  revert col. induction s as [|c s IH]; intros col; cbn; [done|].
  destruct (is_char newline c); [intros [_ H]|intros H]; by apply IH.
Qed.

Lemma fits_start w col s : fits w col s → (col ≤ w)%nat.
Proof.
  revert col. induction s as [|c s IH]; intros col; cbn; [done|].
  destruct (is_char newline c); [by intros [? _]|].
  intros H%IH. lia.
Qed.

Lemma fits_app w col s t :
  fits w col (s +:+ t) ↔ fits w col s ∧ fits w (column col s) t.
Proof.
  revert col. induction s as [|c s IH]; intros col.
  - rewrite app_empty_l. cbn. split; [|by intros [_ ?]].
    intros H. split; [|done]. by eapply fits_start.
  - rewrite app_String. cbn. destruct (is_char newline c); rewrite IH; tauto.
Qed.

Lemma fits_short w col s : (col + String.length s ≤ w)%nat → fits w col s.
Proof.
  revert col. induction s as [|c s IH]; intros col Hlen; cbn in *; [lia|].
  destruct (is_char newline c).
  - split; [lia|]. apply IH. lia.
  - apply IH. lia.
Qed.

Lemma count_newlines_app s t :
  count_newlines (s +:+ t) = (count_newlines s + count_newlines t)%nat.
Proof.
  induction s as [|c s IH]; [done|]. rewrite app_String. cbn.
  destruct (is_char newline c); lia.
Qed.

Lemma space_not_newline : is_char newline " " = false.
Proof. reflexivity. Qed.

Lemma column_spaces col k : column col (spaces k) = (col + k)%nat.
Proof.
  revert col. induction k as [|k IH]; intros col; cbn; [lia|].
  rewrite space_not_newline, IH. lia.
Qed.

Lemma fits_spaces w col k : fits w col (spaces k) ↔ (col + k ≤ w)%nat.
Proof.
  revert col. induction k as [|k IH]; intros col; cbn; [lia|].
  rewrite space_not_newline, IH. lia.
Qed.

Lemma count_newlines_spaces k : count_newlines (spaces k) = 0%nat.
Proof. induction k as [|k IH]; [done|]. cbn. by rewrite space_not_newline. Qed.

(** A line break ends the line and leaves the cursor behind the
    indentation. *)
Lemma column_line_break indentWidth col :
  column col (line_break indentWidth) = Z.to_nat indentWidth.
Proof.
  unfold line_break. rewrite column_app.
  change (column col (str1 newline)) with 0%nat. by rewrite column_spaces.
Qed.

Lemma fits_line_break indentWidth w col :
  fits w col (line_break indentWidth) ↔ (col ≤ w)%nat ∧ (Z.to_nat indentWidth ≤ w)%nat.
Proof.
  unfold line_break. rewrite fits_app.
  change (fits w col (str1 newline)) with ((col ≤ w)%nat ∧ (0 ≤ w)%nat).
  change (column col (str1 newline)) with 0%nat.
  rewrite fits_spaces. lia.
Qed.

Lemma count_newlines_line_break indentWidth :
  count_newlines (line_break indentWidth) = 1%nat.
Proof. unfold line_break. by rewrite count_newlines_app, count_newlines_spaces. Qed.

(** *** Texts with line breaks put in *)

Lemma wrapped_refl indentWidth s : wrapped indentWidth s s.
Proof. induction s as [|c s IH]; by constructor. Qed.

Lemma wrapped_app indentWidth s1 t1 s2 t2 :
  wrapped indentWidth s1 t1 → wrapped indentWidth s2 t2 →
  wrapped indentWidth (s1 +:+ s2) (t1 +:+ t2).
Proof.
  intros H1 H2. induction H1 as [|c s t _ IH|s t _ IH|c s t Hc _ IH].
  - done.
  - rewrite !app_String. by constructor.
  - rewrite sapp_assoc. by constructor.
  - rewrite app_String, sapp_assoc. by constructor.
Qed.

Lemma wrapped_break_at_end indentWidth :
  wrapped indentWidth EmptyString (line_break indentWidth).
Proof.
  rewrite <- (app_empty_r (line_break indentWidth)). do 2 constructor.
Qed.

Lemma wrapped_break_for_char indentWidth c :
  is_char newline c = false → wrapped indentWidth (str1 c) (line_break indentWidth).
Proof.
  intros Hc. rewrite <- (app_empty_r (line_break indentWidth)).
  apply wrapped_replace; [done|constructor].
Qed.

(** Every newline of the text is a newline of the wrapped text. *)
Lemma wrapped_count_newlines indentWidth s t :
  wrapped indentWidth s t → (count_newlines s ≤ count_newlines t)%nat.
Proof.
  induction 1 as [|c s t _ IH|s t _ IH|c s t Hc _ IH].
  - done.
  - cbn. destruct (is_char newline c); lia.
  - rewrite count_newlines_app, count_newlines_line_break. lia.
  - rewrite count_newlines_app, count_newlines_line_break. cbn. rewrite Hc. lia.
Qed.

(** *** The loop *)

Section BreakLinesProperties.
Variables (msg : string) (indentWidth maxWidth : Z).

Lemma substr_inside pos len :
  0 ≤ pos ≤ Z.of_nat (String.length msg) → 0 ≤ len →
  substr msg pos len = Ok (substring (Z.to_nat pos) (Z.to_nat len) msg).
Proof.
  intros Hpos Hlen. unfold substr.
  rewrite orb_false_intro by (apply Z.ltb_ge; lia).
  by rewrite (proj2 (Z.ltb_ge len 0)) by lia.
Qed.

Lemma substr_rest pos :
  0 ≤ pos ≤ Z.of_nat (String.length msg) →
  substr msg pos (-1) = Ok (sdrop (Z.to_nat pos) msg).
Proof.
  intros Hpos. unfold substr.
  rewrite orb_false_intro by (apply Z.ltb_ge; lia).
  cbn [Z.ltb Z.compare]. f_equal. apply substring_to_end. lia.
Qed.

Lemma substring_Z_split a b c :
  0 ≤ a ≤ b → b ≤ c →
  substring (Z.to_nat a) (Z.to_nat (c - a)) msg
  = substring (Z.to_nat a) (Z.to_nat (b - a)) msg
    +:+ substring (Z.to_nat b) (Z.to_nat (c - b)) msg.
Proof.
  intros Hab Hbc.
  replace (Z.to_nat (c - a)) with (Z.to_nat (b - a) + Z.to_nat (c - b))%nat by lia.
  rewrite substring_split. do 2 f_equal. lia.
Qed.

Lemma substring_Z_one i :
  0 ≤ i < Z.of_nat (String.length msg) →
  substring (Z.to_nat i) 1 msg = str1 (char_at msg i).
Proof.
  intros Hi. rewrite substring_one by lia. by rewrite Z2Nat.id by lia.
Qed.

Lemma stake_Z_split a b :
  0 ≤ a ≤ b →
  stake (Z.to_nat b) msg
  = stake (Z.to_nat a) msg +:+ substring (Z.to_nat a) (Z.to_nat (b - a)) msg.
Proof.
  intros Hab. rewrite (stake_split (Z.to_nat a)) by lia. do 2 f_equal. lia.
Qed.

(** The pending text one position further. *)
Lemma pending_step st :
  0 ≤ startInPos st ≤ inPos st → inPos st < Z.of_nat (String.length msg) →
  substring (Z.to_nat (startInPos st)) (Z.to_nat (inPos st + 1 - startInPos st)) msg
  = pending msg st +:+ str1 (char_at msg (inPos st)).
Proof.
  intros Hpos Hin. rewrite (substring_Z_split _ (inPos st)) by lia.
  unfold pending. f_equal.
  replace (Z.to_nat (inPos st + 1 - inPos st)) with 1%nat by lia.
  apply substring_Z_one. lia.
Qed.

(** The four ways through the body of the loop. *)
Lemma breakLines_body_newline st :
  0 ≤ startInPos st ≤ inPos st → inPos st < Z.of_nat (String.length msg) →
  is_char newline (char_at msg (inPos st)) = true →
  breakLines_body msg indentWidth maxWidth st
  = Ok {| result_ := result_ st +:+ pending msg st +:+ str1 newline;
          startInPos := inPos st + 1; lastBreakPos := inPos st + 2;
          inPos := inPos st + 1; ttyPos := 0 |}.
Proof.
  intros Hpos Hin Hc. unfold breakLines_body. rewrite Hc.
  rewrite substr_inside by lia. cbn.
  replace (inPos st + 1 + 1) with (inPos st + 2) by lia.
  do 2 f_equal. f_equal.
  replace (inPos st - startInPos st + 1) with (inPos st + 1 - startInPos st) by lia.
  rewrite pending_step by done. apply is_char_true in Hc. by rewrite <- Hc.
Qed.

Lemma breakLines_body_plain st :
  is_char newline (char_at msg (inPos st)) = false →
  ttyPos st < maxWidth →
  breakLines_body msg indentWidth maxWidth st
  = Ok {| result_ := result_ st; startInPos := startInPos st;
          lastBreakPos := seen_break msg st;
          inPos := inPos st + 1; ttyPos := ttyPos st + 1 |}.
Proof.
  intros Hc Htty. unfold breakLines_body. rewrite Hc.
  by rewrite (proj2 (Z.leb_gt maxWidth (ttyPos st))) by lia.
Qed.

Lemma breakLines_body_space_break st :
  0 ≤ startInPos st ≤ Z.of_nat (String.length msg) →
  is_char newline (char_at msg (inPos st)) = false →
  maxWidth ≤ ttyPos st →
  startInPos st < seen_break msg st →
  breakLines_body msg indentWidth maxWidth st
  = Ok {| result_ := (result_ st
                      +:+ substring (Z.to_nat (startInPos st))
                            (Z.to_nat (seen_break msg st - startInPos st)) msg)
                     +:+ line_break indentWidth;
          startInPos := seen_break msg st + 1; lastBreakPos := seen_break msg st + 1;
          inPos := seen_break msg st + 1 + 1; ttyPos := indentWidth + 1 |}.
Proof.
  intros Hpos Hc Htty Hbreak. unfold breakLines_body. rewrite Hc.
  rewrite (proj2 (Z.leb_le maxWidth (ttyPos st))) by lia.
  fold (seen_break msg st). rewrite (proj2 (Z.ltb_lt _ _) Hbreak).
  by rewrite substr_inside by lia.
Qed.

Lemma breakLines_body_forced_break st :
  0 ≤ startInPos st ≤ inPos st → inPos st < Z.of_nat (String.length msg) →
  is_char newline (char_at msg (inPos st)) = false →
  maxWidth ≤ ttyPos st →
  seen_break msg st ≤ startInPos st →
  breakLines_body msg indentWidth maxWidth st
  = Ok {| result_ := (result_ st +:+ pending msg st) +:+ line_break indentWidth;
          startInPos := inPos st; lastBreakPos := inPos st;
          inPos := inPos st + 1; ttyPos := indentWidth + 1 |}.
Proof.
  intros Hpos Hin Hc Htty Hbreak. unfold breakLines_body. rewrite Hc.
  rewrite (proj2 (Z.leb_le maxWidth (ttyPos st))) by lia.
  fold (seen_break msg st). rewrite (proj2 (Z.ltb_ge _ _) Hbreak).
  by rewrite substr_inside by lia.
Qed.

Lemma seen_break_bound st :
  lastBreakPos st ≤ inPos st + 1 → seen_break msg st ≤ inPos st + 1.
Proof. unfold seen_break. destruct (isspace _); lia. Qed.

(** *** Termination *)

(** Every pass keeps [positions_ok] and lowers the measure. *)
Lemma breakLines_body_positions st :
  positions_ok msg st → inPos st < Z.of_nat (String.length msg) →
  ∃ st', breakLines_body msg indentWidth maxWidth st = Ok st'
         ∧ positions_ok msg st'
         ∧ 0 ≤ breakLines_measure msg st' < breakLines_measure msg st.
Proof.
  unfold positions_ok. intros (Hpos & Hlb & Hstart & Hin) Hguard.
  pose proof (seen_break_bound st Hlb) as Hsb.
  destruct (is_char newline (char_at msg (inPos st))) eqn:Hc.
  { eexists. split; [by apply breakLines_body_newline|].
    unfold breakLines_measure. cbn. split; [lia|]. nia. }
  destruct (Z.lt_ge_cases (ttyPos st) maxWidth) as [Htty|Htty].
  { eexists. split; [by apply breakLines_body_plain|].
    unfold breakLines_measure. cbn. split; [lia|]. nia. }
  destruct (Z.lt_ge_cases (startInPos st) (seen_break msg st)) as [Hbreak|Hbreak].
  - eexists. split; [apply breakLines_body_space_break; (done || lia)|].
    unfold breakLines_measure. cbn. split; [lia|]. nia.
  - eexists. split; [by apply breakLines_body_forced_break|].
    unfold breakLines_measure. cbn. split; [lia|]. nia.
Qed.

(** The loop under an invariant that every pass keeps: with fuel for
    the measure of the state it starts from, the loop runs to its end. *)
Lemma breakLines_loop_invariant (I : BreakState → Prop) :
  (∀ st, I st → inPos st < Z.of_nat (String.length msg) →
         ∃ st', breakLines_body msg indentWidth maxWidth st = Ok st'
                ∧ I st'
                ∧ 0 ≤ breakLines_measure msg st' < breakLines_measure msg st) →
  ∀ fuel st, I st → breakLines_measure msg st ≤ Z.of_nat fuel →
  ∃ st', breakLines_loop fuel msg indentWidth maxWidth st
         = Some (breakLines_finish msg st')
         ∧ I st' ∧ Z.of_nat (String.length msg) ≤ inPos st'.
Proof.
  intros Hstep fuel. induction fuel as [|fuel IH]; intros st HI Hfuel.
  - cbn [breakLines_loop].
    destruct (Z.ltb_spec (inPos st) (Z.of_nat (String.length msg))) as [Hguard|Hguard].
    + destruct (Hstep st HI Hguard) as (st' & _ & _ & Hm). lia.
    + by exists st.
  - cbn [breakLines_loop].
    destruct (Z.ltb_spec (inPos st) (Z.of_nat (String.length msg))) as [Hguard|Hguard].
    + destruct (Hstep st HI Hguard) as (st' & -> & HI' & Hm).
      apply IH; [done|lia].
    + by exists st.
Qed.

Lemma breakLines_init_positions : positions_ok msg breakLines_init.
Proof. unfold positions_ok. cbn. lia. Qed.

Lemma breakLines_init_measure :
  breakLines_measure msg breakLines_init ≤ Z.of_nat (breakLines_fuel msg).
Proof. unfold breakLines_measure, breakLines_fuel. cbn. nia. Qed.

(** [breakLines] comes to an end, for any text and any widths: the fuel
    of [breakLines_fuel] is never used up. *)
Lemma breakLines_terminates :
  ∃ st, breakLines msg indentWidth maxWidth = Some (breakLines_finish msg st).
Proof.
  destruct (breakLines_loop_invariant (positions_ok msg) breakLines_body_positions
              (breakLines_fuel msg) breakLines_init
              breakLines_init_positions breakLines_init_measure)
    as (st & Hloop & _). by exists st.
Qed.

(** *** The width of the lines and the newlines of the text *)

(** Every pass keeps [wrapping_ok]. *)
Lemma breakLines_body_wrapping st :
  0 ≤ indentWidth < maxWidth →
  wrapping_ok msg indentWidth maxWidth st →
  inPos st < Z.of_nat (String.length msg) →
  ∃ st', breakLines_body msg indentWidth maxWidth st = Ok st'
         ∧ wrapping_ok msg indentWidth maxWidth st'
         ∧ 0 ≤ breakLines_measure msg st' < breakLines_measure msg st.
Proof.
  intros widths (HG & Hstart & Hlb & Hnl & Hcol & Hfits & Hwr) Hguard.
  destruct (breakLines_body_positions st HG Hguard) as (st' & Hbody & HG' & Hm).
  exists st'. split; [done|]. split; [|done]. split; [done|].
  destruct HG as (Hpos & Hlb1 & _ & _).
  pose proof (seen_break_bound st Hlb1) as Hsb.
  destruct (is_char newline (char_at msg (inPos st))) eqn:Hc.
  { (* an author newline *)
    rewrite breakLines_body_newline in Hbody by done. injection Hbody as <-.
    unfold written, pending. cbn [result_ startInPos inPos lastBreakPos ttyPos].
    replace (inPos st + 1 - (inPos st + 1)) with 0 by lia.
    rewrite substring_zero, app_empty_r.
    fold (pending msg st). rewrite <- sapp_assoc. fold (written msg st).
    split; [lia|]. split; [by right|]. split; [lia|].
    rewrite column_app, fits_app. cbn [column fits str1].
    rewrite is_char_refl.
    split; [lia|]. split; [repeat split; [done|lia..]|].
    rewrite (stake_Z_split (startInPos st)), pending_step by (done || lia).
    apply is_char_true in Hc. rewrite <- Hc. unfold written. rewrite sapp_assoc.
    apply wrapped_app; [done|apply wrapped_refl]. }
  assert (Hseen : startInPos st < seen_break msg st → seen_break msg st ≤ inPos st →
                  is_char newline (char_at msg (seen_break msg st)) = false).
  { unfold seen_break. destruct (isspace _); [done|]. intros H1 H2.
    destruct (Z.eq_dec (lastBreakPos st) (inPos st)) as [->|Hne]; [done|].
    apply Hnl. lia. }
  destruct (Z.lt_ge_cases (ttyPos st) maxWidth) as [Htty|Htty].
  { (* no break *)
    rewrite breakLines_body_plain in Hbody by done. injection Hbody as <-.
    unfold written, pending. cbn [result_ startInPos inPos lastBreakPos ttyPos].
    rewrite pending_step by done. rewrite <- sapp_assoc. fold (written msg st).
    split; [done|]. split; [left; unfold seen_break; destruct (isspace _); lia|].
    split; [intros H1; apply Hseen; lia|].
    rewrite column_app, fits_app, column_str1. cbn [fits str1]. rewrite Hc.
    split; [lia|]. split; [|done]. split; [done|]. lia. }
  assert (Hlb' : seen_break msg st ≤ inPos st).
  { unfold seen_break. destruct (isspace _); lia. }
  destruct (Z.lt_ge_cases (startInPos st) (seen_break msg st)) as [Hbreak|Hbreak].
  - (* a break at the last white space *)
    rewrite breakLines_body_space_break in Hbody by (done || lia).
    injection Hbody as <-.
    assert (Hwritten : written msg st
              = (result_ st +:+ substring (Z.to_nat (startInPos st))
                                  (Z.to_nat (seen_break msg st - startInPos st)) msg)
                +:+ substring (Z.to_nat (seen_break msg st))
                      (Z.to_nat (inPos st - seen_break msg st)) msg).
    { unfold written, pending. rewrite sapp_assoc. f_equal.
      apply substring_Z_split; lia. }
    rewrite Hwritten in Hfits. apply fits_app in Hfits as [Hfits _].
    pose proof (fits_column _ _ _ Hfits) as Hcolumn.
    set (piece := substring (Z.to_nat (startInPos st))
                    (Z.to_nat (seen_break msg st - startInPos st)) msg) in *.
    unfold written, pending. cbn [result_ startInPos inPos lastBreakPos ttyPos].
    replace (seen_break msg st + 1 + 1 - (seen_break msg st + 1)) with 1 by lia.
    set (next := substring (Z.to_nat (seen_break msg st + 1)) (Z.to_nat 1) msg).
    pose proof (substring_length (Z.to_nat (seen_break msg st + 1)) (Z.to_nat 1) msg)
      as Hnext.
    fold next in Hnext.
    split; [lia|]. split; [left; lia|]. split; [lia|].
    set (head := result_ st +:+ piece) in *.
    rewrite !fits_app, !column_app, column_line_break, fits_line_break.
    pose proof (column_le (Z.to_nat indentWidth) next).
    split; [lia|]. split.
    { repeat split; [done|lia|lia|]. apply fits_short. lia. }
    rewrite (stake_Z_split (startInPos st)) by lia.
    rewrite (substring_Z_split _ (seen_break msg st)) by lia. fold piece.
    replace (Z.to_nat (seen_break msg st + 1 - seen_break msg st)) with 1%nat by lia.
    rewrite substring_Z_one by lia. rewrite <- sapp_assoc.
    apply wrapped_app; [apply wrapped_app; [done|apply wrapped_refl]|].
    apply wrapped_break_for_char. by apply Hseen.
  - (* a break inside a word *)
    rewrite breakLines_body_forced_break in Hbody by done.
    injection Hbody as <-.
    unfold written, pending in *.
    cbn [result_ startInPos inPos lastBreakPos ttyPos].
    fold (pending msg st) in *.
    set (head := result_ st +:+ pending msg st) in *.
    replace (inPos st + 1 - inPos st) with 1 by lia.
    rewrite substring_Z_one by lia.
    split; [lia|]. split; [left; lia|]. split; [lia|].
    rewrite !fits_app, !column_app, column_line_break, fits_line_break, column_str1.
    cbn [fits str1]. rewrite Hc.
    pose proof (fits_column _ _ _ Hfits).
    split; [lia|]. split; [repeat split; (done || lia)|].
    rewrite (stake_Z_split (startInPos st)) by lia.
    fold (pending msg st). subst head.
    rewrite <- (app_empty_r (stake _ msg +:+ pending msg st)).
    apply wrapped_app; [apply wrapped_app; [done|apply wrapped_refl]|].
    apply wrapped_break_at_end.
Qed.

Lemma breakLines_init_wrapping :
  0 ≤ indentWidth < maxWidth → wrapping_ok msg indentWidth maxWidth breakLines_init.
Proof.
  intros widths. split; [apply breakLines_init_positions|].
  unfold written, pending.
  cbn [breakLines_init result_ startInPos inPos lastBreakPos ttyPos].
  change (Z.to_nat (0 - 0)) with 0%nat. rewrite substring_zero, app_empty_l.
  change (stake (Z.to_nat 0) msg) with EmptyString.
  cbn [column fits]. repeat split; try lia. constructor.
Qed.

(** The width of the lines.  With an indentation that is not negative
    and smaller than the maximum width, [breakLines] returns a text; no
    line of that text is longer than the maximum width, and the text has
    at least as many newline characters as the input. *)
Theorem breakLines_wrapping :
  0 ≤ indentWidth < maxWidth →
  ∃ out, breakLines msg indentWidth maxWidth = Some (Ok out)
         ∧ fits (Z.to_nat maxWidth) 0 out
         ∧ (count_newlines msg ≤ count_newlines out)%nat
         ∧ wrapped indentWidth msg out.
Proof.
  intros widths.
  destruct (breakLines_loop_invariant (wrapping_ok msg indentWidth maxWidth)
              (λ st, breakLines_body_wrapping st widths)
              (breakLines_fuel msg) breakLines_init
              (breakLines_init_wrapping widths) breakLines_init_measure)
    as (st & Hloop & (HG & Hstart & _ & _ & _ & Hfits & Hwr) & Hend).
  destruct HG as (Hpos & _).
  assert (Hpending : pending msg st = sdrop (Z.to_nat (startInPos st)) msg).
  { unfold pending. apply substring_to_end. lia. }
  assert (Hwrapped : wrapped indentWidth msg (written msg st)).
  { unfold written. rewrite Hpending.
    rewrite <- (stake_sdrop (Z.to_nat (startInPos st)) msg) at 1.
    apply wrapped_app; [done|apply wrapped_refl]. }
  exists (written msg st). split; [|split; [done|split; [|done]]].
  - unfold breakLines. rewrite Hloop. unfold breakLines_finish.
    rewrite substr_rest by lia. cbn. unfold written. by rewrite Hpending.
  - by eapply wrapped_count_newlines.
Qed.

(** *** Texts that need no wrapping *)

Lemma stake_step i :
  0 ≤ i < Z.of_nat (String.length msg) →
  stake (Z.to_nat (i + 1)) msg = stake (Z.to_nat i) msg +:+ str1 (char_at msg i).
Proof.
  intros Hi. rewrite (stake_Z_split i) by lia.
  replace (Z.to_nat (i + 1 - i)) with 1%nat by lia.
  by rewrite substring_Z_one.
Qed.

Lemma breakLines_body_fitting st :
  fits (Z.to_nat maxWidth) 0 msg →
  fitting_ok msg st → inPos st < Z.of_nat (String.length msg) →
  ∃ st', breakLines_body msg indentWidth maxWidth st = Ok st'
         ∧ fitting_ok msg st'
         ∧ 0 ≤ breakLines_measure msg st' < breakLines_measure msg st.
Proof.
  intros Hfits (HG & Hin & Hres & Htty) Hguard.
  destruct (breakLines_body_positions st HG Hguard)
    as (st' & Hbody & HG' & Hm).
  exists st'. split; [done|]. split; [|done]. split; [done|].
  destruct HG as (Hpos & _).
  pose proof (stake_step (inPos st) ltac:(lia)) as Hstep.
  destruct (is_char newline (char_at msg (inPos st))) eqn:Hc.
  - rewrite breakLines_body_newline in Hbody by done. injection Hbody as <-.
    cbn [result_ startInPos inPos lastBreakPos ttyPos].
    split; [lia|]. rewrite Hstep, column_app, column_str1, Hc.
    split; [|done]. rewrite Hres.
    rewrite (stake_Z_split (startInPos st) (inPos st)) by lia.
    apply is_char_true in Hc. rewrite <- Hc. fold (pending msg st).
    by rewrite sapp_assoc.
  - assert (ttyPos st < maxWidth) as Hlt.
    { rewrite <- (stake_sdrop (Z.to_nat (inPos st + 1)) msg) in Hfits.
      apply fits_app in Hfits as [Hfits%fits_column _].
      rewrite Hstep, column_app, column_str1, Hc in Hfits. lia. }
    rewrite breakLines_body_plain in Hbody by done. injection Hbody as <-.
    cbn [result_ startInPos inPos lastBreakPos ttyPos].
    split; [lia|]. split; [done|].
    rewrite Hstep, column_app, column_str1, Hc. lia.
Qed.

(** A text whose lines are within the width comes back as it is. *)
Lemma breakLines_fitting_text :
  fits (Z.to_nat maxWidth) 0 msg →
  breakLines msg indentWidth maxWidth = Some (Ok msg).
Proof.
  intros Hfits.
  destruct (breakLines_loop_invariant (fitting_ok msg)
              (λ st, breakLines_body_fitting st Hfits)
              (breakLines_fuel msg) breakLines_init)
    as (st & Hloop & (HG & Hin & Hres & _) & Hend).
  - split; [apply breakLines_init_positions|]. cbn. split; [lia|done].
  - apply breakLines_init_measure.
  - destruct HG as (Hpos & _).
    unfold breakLines. rewrite Hloop. unfold breakLines_finish.
    rewrite substr_rest by lia. cbn. by rewrite Hres, stake_sdrop.
Qed.

End BreakLinesProperties.

(** A usage text of the documentation, wrapped at twelve columns with
    an indentation of four. *)
Lemma breakLines_wrapping_witness :
  ∃ out, breakLines "Relative weight of the upwind node" 4 12 = Some (Ok out)
         ∧ fits 12 0 out
         ∧ (count_newlines "Relative weight of the upwind node" ≤ count_newlines out)%nat
         ∧ wrapped 4 "Relative weight of the upwind node" out.
Proof.
  apply (breakLines_wrapping "Relative weight of the upwind node" 4 12). lia.
Defined.

Example breakLines_example :
  breakLines "Relative weight of the upwind node" 4 12
  = Some (Ok ("Relative" +:+ line_break 4 +:+ "weight" +:+ line_break 4 +:+ "of the"
              +:+ line_break 4 +:+ "upwind" +:+ line_break 4 +:+ "node")).
Proof. vm_compute. reflexivity. Qed.

(** With an indentation as large as the width every continuation line
    holds the indentation and one character of the text. *)
Example breakLines_not_within_width :
  breakLines "a b c d e f" 3 3
  = Some (Ok ("a b" +:+ line_break 3 +:+ "c" +:+ line_break 3 +:+ "d"
              +:+ line_break 3 +:+ "e" +:+ line_break 3 +:+ "f"))
  ∧ ¬ fits 3 0 ("a b" +:+ line_break 3 +:+ "c" +:+ line_break 3 +:+ "d"
                +:+ line_break 3 +:+ "e" +:+ line_break 3 +:+ "f")
  ∧ breakLines (str1 newline +:+ "abcdefgh") 0 4
    = Some (Ok (str1 newline +:+ "a" +:+ str1 newline +:+ "cdef" +:+ str1 newline +:+ "gh")).
Proof.
  split; [vm_compute; reflexivity|]. split; [|vm_compute; reflexivity].
  vm_compute. intros H. decompose [and] H. lia.
Qed.

(** C8 (the code at the failing input).  The text behind a newline of the
    input does not come back unaltered.  Of [ab], a newline and
    [Relative weight], wrapped at six columns with an indentation of two,
    the line behind the newline is broken behind its first letter and the
    second letter, the [e], is in no line of the output; of [Usage:], a
    newline and [--enable-debug], wrapped at ten columns, the second
    hyphen is lost.  Behind the newline branch the position of the last
    break is set one character too far. *)
Theorem breakLines_drops_character :
  breakLines ("ab" +:+ str1 newline +:+ "Relative weight") 2 6
  = Some (Ok ("ab" +:+ str1 newline +:+ "R" +:+ line_break 2 +:+ "lati"
              +:+ line_break 2 +:+ "ve" +:+ line_break 2 +:+ "weig"
              +:+ line_break 2 +:+ "ht"))
  ∧ nonspace ("ab" +:+ str1 newline +:+ "Relative weight") = "abRelativeweight"
  ∧ nonspace ("ab" +:+ str1 newline +:+ "R" +:+ line_break 2 +:+ "lati"
              +:+ line_break 2 +:+ "ve" +:+ line_break 2 +:+ "weig"
              +:+ line_break 2 +:+ "ht") = "abRlativeweight"
  ∧ breakLines ("Usage:" +:+ str1 newline +:+ "--enable-debug") 2 10
    = Some (Ok ("Usage:" +:+ str1 newline +:+ "-" +:+ line_break 2 +:+ "enable-d"
                +:+ line_break 2 +:+ "ebug")).
Proof. repeat split; vm_compute; reflexivity. Qed.

(** ** The theorems at work on the sample *)

(** C5 (the code at the failing input).  The opening quote followed by
    [unterminated], the example of the specification, does not fail with
    the error for an unterminated string, which the source words
    [Unexpected end of quoted string] and raises only behind a trailing
    backslash: it fails with the [std::out_of_range] of [substr], whatever
    the error prefix, and so does a parameter file with such a value. *)
Theorem parseQuotedValue_unterminated errorPrefix :
  parseQuotedValue (String dquote "unterminated") errorPrefix = Throw out_of_range
  ∧ parseQuotedValue (String dquote ("unterminated" +:+ str1 backslash)) errorPrefix
    = Throw (runtime_error (errorPrefix +:+ "Unexpected end of quoted string"))
  ∧ parseParameterFile "params.ini" (Some ("key = " +:+ String dquote "unterminated"))
      true MetaData_clear
    = (Throw out_of_range, MetaData_clear).
Proof. repeat split; vm_compute; reflexivity. Qed.

(** C1 on the sample stores.  On the first, [EnableDebug] has a stored
    text, [OutputDir] has none and comes back with its default, and so
    does [MaxIterations], whose default text [20] is read as the integer.
    On the second, the integer parameter has the stored text [50] and the
    floating-point one the stored text [-3]. *)
Lemma Get_IsSet_after_endRegistration_witness :
  Get Sample.EnableDebug true Sample.closed_store
  = (Ok (VBool true), Sample.closed_store)
  ∧ Get Sample.OutputDir true Sample.closed_store
    = (Ok (VString "out"), Sample.closed_store)
  ∧ IsSet Sample.OutputDir true Sample.closed_store
    = (Ok false, Sample.closed_store)
  ∧ Get Sample.MaxIterations true Sample.closed_store
    = (Ok (VInt 20), Sample.closed_store)
  ∧ Get Sample.MaxIterations true Sample.supplied_store
    = (Ok (VInt 50), Sample.supplied_store)
  ∧ Get Sample.Tolerance true Sample.supplied_store
    = (Ok (VScalar (-3)), Sample.supplied_store)
  ∧ IsSet Sample.Tolerance true Sample.supplied_store
    = (Ok true, Sample.supplied_store).
Proof.
  destruct (Get_IsSet_after_endRegistration Sample.closed_store Sample.EnableDebug
              (info_of Sample.EnableDebug "Print more") eq_refl eq_refl)
    as (Hstored & _ & _).
  destruct (Get_IsSet_after_endRegistration Sample.closed_store Sample.OutputDir
              (info_of Sample.OutputDir "Where to write") eq_refl eq_refl)
    as (_ & Hdefault & _ & Hset).
  destruct (Get_IsSet_after_endRegistration Sample.closed_store Sample.MaxIterations
              (info_of Sample.MaxIterations "Upper bound") eq_refl eq_refl)
    as (_ & Hint & _).
  destruct (Get_IsSet_after_endRegistration Sample.supplied_store Sample.MaxIterations
              (info_of Sample.MaxIterations "Upper bound") eq_refl eq_refl)
    as (Hint_stored & _).
  destruct (Get_IsSet_after_endRegistration Sample.supplied_store Sample.Tolerance
              (info_of Sample.Tolerance "Residual to reach") eq_refl eq_refl)
    as (Hscalar_stored & _ & _ & Hset').
  split.
  { destruct (Hstored "true" eq_refl) as (_ & _ & Hbool & _).
    exact (Hbool false eq_refl). }
  split.
  { destruct (Hdefault eq_refl) as (_ & Hstring & _). exact (Hstring "out" eq_refl). }
  split; [exact Hset|]. split.
  { destruct (Hint eq_refl) as (_ & _ & _ & Hz & _).
    destruct (Hz 20 eq_refl) as (_ & Hdecimal & _).
    apply (Hdecimal 20); [unfold INT_MIN, INT_MAX; lia|reflexivity]. }
  split.
  { destruct (Hint_stored "50" eq_refl) as (_ & _ & _ & Hz & _).
    exact (Hz 20 eq_refl). }
  split; [|exact Hset'].
  destruct (Hscalar_stored "-3" eq_refl) as (_ & _ & _ & _ & Hx).
  exact (Hx 7 eq_refl).
Defined.

(** C3 on [MaxIterations]: registered again with the same usage text,
    and with another one. *)
Lemma Register_twice_witness :
  (Register Sample.MaxIterations "Upper bound"
     (Register Sample.MaxIterations "Upper bound" MetaData_clear).2).1 = Ok tt
  ∧ (Register Sample.MaxIterations "Another text"
       (Register Sample.MaxIterations "Upper bound" MetaData_clear).2).1
    = Throw (registered_twice Sample.MaxIterations).
Proof.
  pose proof (Register_twice MetaData_clear
                (Register Sample.MaxIterations "Upper bound" MetaData_clear).2
                Sample.MaxIterations "Upper bound") as H.
  destruct (H Sample.MaxIterations "Upper bound" eq_refl eq_refl) as [Hsame _].
  destruct (H Sample.MaxIterations "Another text" eq_refl eq_refl) as [_ Hother].
  split.
  - by destruct Hsame as [? _].
  - destruct Hother as [? _]; [by right|done].
Defined.

(** C10 on [MaxIterations]: the conflicting second registration throws
    and has its validator in the list all the same. *)
Lemma Register_enqueues_validator_first_witness :
  finalizers (Register Sample.MaxIterations "Another text"
                (Register Sample.MaxIterations "Upper bound" MetaData_clear).2).2
  = [Sample.MaxIterations; Sample.MaxIterations]
  ∧ (Register Sample.MaxIterations "Another text"
       (Register Sample.MaxIterations "Upper bound" MetaData_clear).2).1
    = Throw (registered_twice Sample.MaxIterations).
Proof.
  destruct (Register_enqueues_validator_first
              (Register Sample.MaxIterations "Upper bound" MetaData_clear).2
              Sample.MaxIterations "Another text" eq_refl) as (Hf & Hr & _).
  split; [exact Hf|].
  destruct (Hr (info_of Sample.MaxIterations "Upper bound") eq_refl)
    as (_ & _ & Hthrow).
  exact (Hthrow eq_refl).
Defined.

(** C10 (as stated, refuted).  On the closed sample store a [Register]
    call fails and leaves no validator behind: the list is as empty as
    before, and the whole store is unchanged. *)
Lemma Register_closed_leaves_no_validator :
  Register Sample.MaxIterations "Upper bound" Sample.closed_store
  = (Throw (logic_error
       ("Parameter registration was already closed before "
          +:+ "the parameter 'MaxIterations' was registered.")),
     Sample.closed_store)
  ∧ finalizers (Register Sample.MaxIterations "Upper bound" Sample.closed_store).2 = []
  ∧ length (finalizers (Register Sample.MaxIterations "Upper bound"
                          Sample.closed_store).2)
    ≠ S (length (finalizers Sample.closed_store)).
Proof. repeat split. discriminate. Qed.

(** C9 on [OutputDir], never registered: the query leaves an empty
    entry behind and returns the empty text, not [out]. *)
Lemma Get_unchecked_inserts_entry_witness :
  registry (Get Sample.OutputDir false MetaData_clear).2
  = {[ "OutputDir" := ParamInfo_empty ]}
  ∧ (Get Sample.OutputDir false MetaData_clear).1 = Ok (VString EmptyString).
Proof.
  destruct (Get_unchecked_inserts_entry MetaData_clear Sample.OutputDir eq_refl)
    as (Hr & _ & _ & _ & Hs).
  split; [exact Hr|]. destruct (Hs "out" eq_refl) as [_ Hempty]. exact (Hempty eq_refl).
Defined.

(** C4 at the argument list of the documentation: [--my-opt=abc] is a
    named option, and the loop ends with [abc] stored under [MyOpt]. *)
Lemma parseCommandLine_dispatch_witness :
  parseCommandLine_loop noPositionalParameters_ ["prog"; "--my-opt=abc"]
    ["--my-opt=abc"] 1 0 ∅ 0 MetaData_clear
  = (Ok EmptyString, with_tree {[ "MyOpt" := "abc" ]} MetaData_clear).
Proof.
  destruct (parseCommandLine_dispatch noPositionalParameters_
              ["prog"; "--my-opt=abc"] "--my-opt=abc" [] 1 ∅ 0 MetaData_clear)
    as (_ & _ & Hnamed).
  rewrite (Hnamed "my-opt" "abc" "MyOpt" eq_refl eq_refl).
  case_bool_decide as Hseen; [by apply not_elem_of_empty in Hseen|].
  reflexivity.
Defined.

(** C4 (as stated, refuted).  The argument [--x] starts with two
    hyphens and is handed to the callback all the same: the default
    callback rejects it with its own message, and a callback that takes
    one argument stores it, where the named branch would have reported a
    missing value. *)
Lemma parseCommandLine_short_option_is_positional :
  String.prefix "--" "--x" = true
  ∧ parseCommandLineOptions ["prog"; "--x"] EmptyString noPositionalParameters_
      MetaData_clear
    = (Ok ("Illegal parameter " +:+ str1 dquote +:+ "--x" +:+ str1 dquote +:+ "."),
       MetaData_clear)
  ∧ parseCommandLineOptions ["prog"; "--x"] EmptyString Sample.take_one MetaData_clear
    = (Ok EmptyString, with_tree {[ "Positional" := "--x" ]} MetaData_clear)
  ∧ parseNamedOption "--x" 1 ∅
    = Ok (NamedError "Parameter 'X' is missing a value.  Please use --x=value.").
Proof. repeat split; vm_compute; reflexivity. Qed.

(** * Further properties *)

(** ** The lexer *)

(** X1.  [removeLeadingSpace] takes white space off the front of the
    text and nothing else: what is left does not start with white space. *)
Theorem removeLeadingSpace_spec s :
  ∃ blank, s = blank +:+ removeLeadingSpace s
           ∧ all_chars isspace blank = true
           ∧ starts_with isspace (removeLeadingSpace s) = false.
Proof.
  induction s as [|c s (blank & Heq & Hblank & Hstart)].
  - by exists EmptyString.
  - cbn [removeLeadingSpace]. destruct (isspace c) eqn:Hc.
    + exists (String c blank). cbn [all_chars]. rewrite Hc, Hblank.
      split; [|done]. change (String c blank +:+ removeLeadingSpace s)
        with (String c (blank +:+ removeLeadingSpace s)). by rewrite <- Heq.
    + exists EmptyString. by rewrite <- Hc.
Qed.

(** X2.  [parseKey] cuts the text in two in front of the first white
    space or [=]: the key has neither, and what the argument is left with
    is empty or starts with one of them. *)
Theorem parseKey_spec s :
  (parseKey s).1 +:+ (parseKey s).2 = s
  ∧ all_chars key_char (parseKey s).1 = true
  ∧ starts_with key_char (parseKey s).2 = false.
Proof.
  induction s as [|c s (Heq & Hkey & Hrest)]; [done|].
  cbn [parseKey]. destruct (isspace c || is_char "=" c) eqn:Hc.
  - cbn. unfold key_char. by rewrite Hc.
  - destruct (parseKey s) as [key rest]. cbn [fst snd all_chars] in *.
    rewrite app_String, Heq, Hkey. unfold key_char at 1. by rewrite Hc.
Qed.

(** X3.  [parseUnquotedValue] cuts the text in two in front of the first
    white space. *)
Theorem parseUnquotedValue_spec s :
  (parseUnquotedValue s).1 +:+ (parseUnquotedValue s).2 = s
  ∧ all_chars (λ c, negb (isspace c)) (parseUnquotedValue s).1 = true
  ∧ starts_with (λ c, negb (isspace c)) (parseUnquotedValue s).2 = false.
Proof.
  induction s as [|c s (Heq & Hvalue & Hrest)]; [done|].
  cbn [parseUnquotedValue]. destruct (isspace c) eqn:Hc.
  - cbn. by rewrite Hc.
  - destruct (parseUnquotedValue s) as [value rest]. cbn [fst snd all_chars] in *.
    by rewrite app_String, Heq, Hvalue, Hc.
Qed.

Lemma parseQuotedValue_loop_escape_char errorPrefix c s :
  parseQuotedValue_loop errorPrefix (escape_char c +:+ s)
  = result_map (λ '(r, rest), (String c r, rest))
               (parseQuotedValue_loop errorPrefix s).
Proof.
  unfold escape_char.
  destruct (is_char newline c) eqn:H1; [by apply is_char_true in H1 as <-|].
  destruct (is_char carriage_return c) eqn:H2; [by apply is_char_true in H2 as <-|].
  destruct (is_char tab c) eqn:H3; [by apply is_char_true in H3 as <-|].
  destruct (is_char dquote c) eqn:H4; [by apply is_char_true in H4 as <-|].
  destruct (is_char backslash c) eqn:H5; [by apply is_char_true in H5 as <-|].
  change (str1 c +:+ s) with (String c s). cbn [parseQuotedValue_loop].
  by rewrite H5, H4.
Qed.

Lemma parseQuotedValue_loop_escape_text errorPrefix v rest :
  parseQuotedValue_loop errorPrefix (escape v +:+ String dquote rest) = Ok (v, rest).
Proof.
  induction v as [|c v IH].
  - done.
  - cbn [escape]. by rewrite sapp_assoc, parseQuotedValue_loop_escape_char, IH.
Qed.

(** X4.  Every text is the value of a quoted string: behind the opening
    quote [parseQuotedValue] undoes the escape sequences up to the
    closing quote and leaves what follows it. *)
Theorem parseQuotedValue_quote v rest errorPrefix :
  parseQuotedValue (quote v +:+ rest) errorPrefix = Ok (v, rest).
Proof.
  unfold quote.
  change (String dquote (escape v +:+ str1 dquote) +:+ rest)
    with (String dquote ((escape v +:+ str1 dquote) +:+ rest)).
  cbn [parseQuotedValue]. rewrite is_char_refl, sapp_assoc.
  apply parseQuotedValue_loop_escape_text.
Qed.

(** ** The name transformer *)

Lemma isalpha_isalnum c : isalpha c = true → isalnum c = true.
Proof. unfold isalnum. by intros ->. Qed.

Lemma isupper_toupper c : isalpha c = true → isupper (toupper c) = true.
Proof. by_cases_on_char c. Qed.

Lemma toupper_upper c : isupper c = true → toupper c = c.
Proof. by_cases_on_char c. Qed.

Lemma isupper_isalpha c : isupper c = true → isalpha c = true.
Proof. unfold isalpha. by intros ->. Qed.

(** Induction on the length of a text, for the loops that step over two
    characters at a time. *)
Lemma string_length_ind (P : string → Prop) :
  (∀ s, (∀ t, (String.length t < String.length s)%nat → P t) → P s) → ∀ s, P s.
Proof.
  intros step s. remember (String.length s) as n eqn:Hn.
  revert s Hn. induction n as [n IH] using lt_wf_ind. intros s ->.
  apply step. intros t Ht. by apply (IH (String.length t)).
Qed.

Lemma transformKey_loop_canonical errorPrefix s rest r :
  transformKey_loop errorPrefix s rest = Ok r →
  all_chars isalnum r = true ∧ (String.length r ≤ String.length rest)%nat.
Proof.
  revert r. induction rest as [rest IH] using string_length_ind. intros r.
  destruct rest as [|c rest]; [by intros [= <-]|].
  cbn [transformKey_loop]. destruct (is_char hyphen c).
  - destruct rest as [|d rest]; [done|].
    destruct (isalpha d) eqn:Hd; [|done].
    destruct (transformKey_loop errorPrefix s rest) as [r'|] eqn:Hrest; [|done].
    intros [= <-]. destruct (IH rest ltac:(cbn; lia) r' Hrest) as [Hr' Hlen].
    cbn [all_chars String.length].
    rewrite (isalpha_isalnum _ (isupper_isalpha _ (isupper_toupper _ Hd))), Hr'.
    split; [done|lia].
  - destruct (isalnum c) eqn:Hc; [|done]. cbn [negb].
    destruct (transformKey_loop errorPrefix s rest) as [r'|] eqn:Hrest; [|done].
    intros [= <-]. destruct (IH rest ltac:(cbn; lia) r' Hrest) as [Hr' Hlen].
    cbn [all_chars String.length]. rewrite Hc, Hr'. split; [done|lia].
Qed.

Lemma transformKey_valid_name s capitalizeFirstLetter errorPrefix r :
  transformKey s capitalizeFirstLetter errorPrefix = Ok r →
  valid_name r = true
  ∧ (capitalizeFirstLetter = true → starts_with isupper r = true)
  ∧ (String.length r ≤ String.length s)%nat.
Proof.
  destruct s as [|c rest]; [done|]. cbn [transformKey].
  destruct (isalpha c) eqn:Hc; [|done]. cbn [negb].
  destruct (transformKey_loop errorPrefix (String c rest) rest) as [r'|] eqn:Hrest; [|done].
  intros [= <-]. destruct (transformKey_loop_canonical _ _ _ _ Hrest) as [Hr' Hlen].
  unfold valid_name. cbn [starts_with all_chars String.length]. rewrite Hr'.
  split; [|split; [|lia]].
  - destruct capitalizeFirstLetter.
    + pose proof (isupper_isalpha _ (isupper_toupper _ Hc)) as Hup.
      by rewrite Hup, (isalpha_isalnum _ Hup).
    + by rewrite Hc, (isalpha_isalnum _ Hc).
  - intros ->. by apply isupper_toupper.
Qed.

(** X5.  A name [transformKey] returns is canonical: a letter followed
    by letters and digits, no longer than the key; with
    [capitalizeFirstLetter] its first letter is upper case. *)
Theorem transformKey_canonical s capitalizeFirstLetter errorPrefix r :
  transformKey s capitalizeFirstLetter errorPrefix = Ok r →
  valid_name r = true
  ∧ (capitalizeFirstLetter = true → starts_with isupper r = true)
  ∧ (String.length r ≤ String.length s)%nat.
Proof. apply transformKey_valid_name. Qed.

Lemma transformKey_canonical_witness :
  transformKey "max-iterations2" true EmptyString = Ok "MaxIterations2"
  ∧ valid_name "MaxIterations2" = true
  ∧ starts_with isupper "MaxIterations2" = true.
Proof.
  split; [reflexivity|].
  destruct (transformKey_canonical "max-iterations2" true EmptyString "MaxIterations2"
              eq_refl) as (Hvalid & Hupper & _).
  split; [exact Hvalid|exact (Hupper eq_refl)].
Defined.

Lemma transformKey_loop_alnum errorPrefix s rest :
  all_chars isalnum rest = true → transformKey_loop errorPrefix s rest = Ok rest.
Proof.
  induction rest as [|c rest IH]; [done|].
  intros [Hc Hrest]%andb_prop. cbn [transformKey_loop].
  by rewrite (isalnum_not_hyphen _ Hc), Hc, (IH Hrest).
Qed.

(** X6.  [transformKey] leaves the names it returns as they are: a
    second pass with the same flag, whatever the error prefix, gives the
    same name. *)
Theorem transformKey_idempotent s capitalizeFirstLetter errorPrefix errorPrefix' r :
  transformKey s capitalizeFirstLetter errorPrefix = Ok r →
  transformKey r capitalizeFirstLetter errorPrefix' = Ok r.
Proof.
  intros (Hvalid & Hupper & _)%transformKey_valid_name.
  destruct r as [|c r]; [done|].
  apply andb_prop in Hvalid as [Hc [_ Hr]%andb_prop]. cbn [starts_with] in *.
  cbn [transformKey]. rewrite Hc. cbn [negb].
  rewrite (transformKey_loop_alnum _ _ _ Hr). cbn.
  destruct capitalizeFirstLetter; [|done].
  by rewrite (toupper_upper _ (Hupper eq_refl)).
Qed.

Lemma transformKey_idempotent_witness :
  transformKey "MaxIterations2" true "params.ini:1: " = Ok "MaxIterations2".
Proof.
  exact (transformKey_idempotent "max-iterations2" true EmptyString "params.ini:1: "
           "MaxIterations2" eq_refl).
Defined.

Lemma transformKey_loop_accepts errorPrefix s rest :
  is_Ok (transformKey_loop errorPrefix s rest) = key_tail_ok rest.
Proof.
  induction rest as [rest IH] using string_length_ind.
  destruct rest as [|c rest]; [done|].
  cbn [transformKey_loop key_tail_ok]. destruct (is_char hyphen c).
  - destruct rest as [|d rest]; [done|]. cbn [starts_with key_tail_ok].
    destruct (isalpha d) eqn:Hd; [|done].
    rewrite (isalnum_not_hyphen _ (isalpha_isalnum _ Hd)), (isalpha_isalnum _ Hd).
    rewrite <- (IH rest) by (cbn; lia).
    by destruct (transformKey_loop errorPrefix s rest).
  - destruct (isalnum c); [|done]. cbn [negb andb].
    rewrite <- (IH rest) by (cbn; lia).
    by destruct (transformKey_loop errorPrefix s rest).
Qed.

(** X7.  [transformKey] takes exactly the keys that start with a letter
    and go on with letters, digits and hyphens, each hyphen with a letter
    behind it; the flag and the error prefix make no difference to that. *)
Theorem transformKey_accepts s capitalizeFirstLetter errorPrefix :
  is_Ok (transformKey s capitalizeFirstLetter errorPrefix) = key_ok s.
Proof.
  destruct s as [|c rest]; [done|]. cbn [transformKey key_ok].
  destruct (isalpha c); [|done]. cbn [negb andb].
  rewrite <- (transformKey_loop_accepts errorPrefix (String c rest) rest).
  by destruct (transformKey_loop errorPrefix (String c rest) rest).
Qed.

(** ** The life cycle of the registry *)

(** The decimal text of an integer read back by [std::from_chars],
    whether or not an [int] holds the integer. *)
Lemma from_chars_int_of_text z previous :
  from_chars_int (NilZero.string_of_int (Z.to_int z)) previous
  = if (INT_MIN <=? z) && (z <=? INT_MAX) then z else previous.
Proof.
  destruct z as [|p|p]; [reflexivity|..];
    cbn [Z.to_int NilZero.string_of_int];
    pose proof (Unsigned.to_uint_nonnil p) as Hnil;
    destruct (string_of_uint_digit _ Hnil) as [Hdigit Hminus];
    (assert (NilZero.string_of_uint (Pos.to_uint p)
             = NilEmpty.string_of_uint (Pos.to_uint p)) as ->
       by (by destruct (Pos.to_uint p)));
    unfold from_chars_int; rewrite ?is_char_refl;
    destruct (NilEmpty.string_of_uint (Pos.to_uint p)) as [|c s] eqn:E; try done;
    cbn in Hdigit, Hminus; rewrite ?Hminus;
    cbn [starts_with]; rewrite Hdigit, <- E, digits_prefix_of_uint;
    rewrite Unsigned.of_to; cbn [Z.of_N].
  - by rewrite Z.mul_1_l.
  - by replace (-1 * Z.pos p) with (Z.neg p) by lia.
Qed.

Section LifeCycle.
Context `{Ext : Externals}.

(** The compiled-in value of a parameter, written into the registry and
    read back as the default. *)
Lemma default_from_text_compiled v :
  (∀ x, v = VScalar x → scalar_from_text x (scalar_to_text x) = x) →
  default_from_text v (to_text v) = v.
Proof.
  intros Hscalar. destruct v as [s|b|z|x]; cbn [default_from_text to_text].
  - done.
  - by destruct b.
  - rewrite from_chars_int_of_text. by destruct (_ && _).
  - by rewrite Hscalar.
Qed.

Lemma get_each_defaults ps md :
  registrationOpen md = false →
  Forall (λ q, is_Some (registry md !! name q) ∧ tree md !! name q = None) ps →
  ∃ vs, get_each ps md = Ok vs.
Proof.
  intros Hclosed. induction 1 as [|q ps [[info Hq] Htree] _ [vs IH]].
  - by exists [].
  - cbn [get_each]. rewrite (Get_registered md q info true (λ _, Hclosed) Hq).
    unfold tree_get. rewrite Htree, IH. cbn. by eexists.
Qed.

(** X8.  The life of a parameter: registered on an open registry whose
    store holds no values, it cannot be read before the registration is
    closed; [endRegistration] then succeeds, and [Get] returns the
    compiled-in value, [IsSet] that no value was given. *)
Theorem Register_endRegistration_Get md p usage :
  registrationOpen md = true →
  tree md = ∅ →
  finalizers_registered md →
  registry md !! name p = None →
  (∀ x, value p = VScalar x → scalar_from_text x (scalar_to_text x) = x) →
  ∃ md1 md2,
    Register p usage md = (Ok tt, md1)
    ∧ (Get p true md1).1
      = Throw (runtime_error
          "Parameters can only retrieved after _all_ of them have been registered.")
    ∧ endRegistration md1 = (Ok tt, md2)
    ∧ Get p true md2 = (Ok (value p), md2)
    ∧ IsSet p true md2 = (Ok false, md2).
Proof.
  intros Hopen Htree Hfin Hfresh Hscalar.
  rewrite (Register_open _ _ _ Hopen), Hfresh.
  set (md1 := with_registry _ _).
  assert (registry md1 !! name p = Some (info_of p usage)) as Hp
    by apply lookup_insert_eq.
  assert (∀ key, tree md1 !! key = None) as Hnone
    by (intros key; cbn; by rewrite Htree).
  destruct (get_each_defaults (finalizers md1) (with_registrationOpen false md1) eq_refl)
    as [vs Hvs].
  { cbn. apply Forall_app. split.
    - eapply Forall_impl; [exact Hfin|]. cbn. intros q Hq. split; [|apply Hnone].
      by apply lookup_insert_is_Some', or_intror.
    - constructor; [|done]. split; [by eexists|apply Hnone]. }
  exists md1, (with_finalizers [] (with_registrationOpen false md1)).
  split; [done|]. split; [unfold Get; cbn; by rewrite Hopen|].
  split; [rewrite endRegistration_open by done; by rewrite Hvs|].
  split.
  - rewrite (Get_registered _ p (info_of p usage) true) by done.
    unfold tree_get. cbn [tree with_finalizers with_registrationOpen].
    rewrite Hnone. cbn [info_of defaultValue].
    by rewrite (default_from_text_compiled _ Hscalar).
  - unfold IsSet. cbn. rewrite bool_decide_eq_false_2 by (rewrite lookup_insert_eq; done).
    unfold hasKey. rewrite Htree.
    by rewrite bool_decide_eq_false_2 by (rewrite lookup_empty; by intros [? ?]).
Qed.

End LifeCycle.

Lemma Register_endRegistration_Get_witness :
  ∃ md1 md2,
    Register Sample.MaxIterations "Upper bound" MetaData_clear = (Ok tt, md1)
    ∧ (Get Sample.MaxIterations true md1).1
      = Throw (runtime_error
          "Parameters can only retrieved after _all_ of them have been registered.")
    ∧ endRegistration md1 = (Ok tt, md2)
    ∧ Get Sample.MaxIterations true md2 = (Ok (VInt 20), md2)
    ∧ IsSet Sample.MaxIterations true md2 = (Ok false, md2).
Proof.
  apply (Register_endRegistration_Get MetaData_clear Sample.MaxIterations "Upper bound");
    try reflexivity.
  - constructor.
  - intros x [=].
Defined.

Section Invariants.
Context `{Ext : Externals}.

Lemma finalizers_registered_insert md key info :
  finalizers_registered md →
  finalizers_registered (with_registry (<[key := info]> (registry md)) md).
Proof.
  unfold finalizers_registered. cbn. intros Hmd.
  eapply Forall_impl; [exact Hmd|]. intros q Hq.
  by apply lookup_insert_is_Some', or_intror.
Qed.

Lemma finalizers_registered_with_tree md t :
  finalizers_registered md → finalizers_registered (with_tree t md).
Proof. done. Qed.

Lemma run_call_finalizers_registered c md :
  finalizers_registered md → finalizers_registered (run_call c md).
Proof.
  intros Hmd. destruct c as [p usage|p| |p b|p b|p v|argv preamble cb|fileName file overwrite];
    cbn [run_call].
  - unfold Register. destruct (registrationOpen md); [|done]. cbn [negb].
    cbn [registry finalizers with_finalizers].
    destruct (registry md !! name p) as [registered|] eqn:Hp.
    + destruct (ParamInfo_eqb registered (info_of p usage)); cbn;
        (apply Forall_app; split; [done|constructor; [by eexists|done]]).
    + cbn. apply Forall_app. split.
      * eapply Forall_impl; [exact Hmd|]. intros q Hq.
        by apply lookup_insert_is_Some', or_intror.
      * constructor; [|done]. apply lookup_insert_is_Some'. by left.
  - unfold Hide. destruct (registrationOpen md); [|done]. cbn [negb].
    destruct (registry md !! name p); [|done]. by apply finalizers_registered_insert.
  - destruct (registrationOpen md) eqn:Hopen.
    + rewrite (endRegistration_open _ Hopen).
      destruct (get_each _ _); [constructor|done].
    + by rewrite (endRegistration_closed _ Hopen).
  - destruct b; [by rewrite Get_checked_state|].
    unfold Get. cbn [andb]. unfold registry_index.
    destruct (registry md !! name p); cbn; [by destruct md|].
    by apply finalizers_registered_insert.
  - by rewrite IsSet_state.
  - unfold SetDefault. destruct (registry md !! name p); [|done].
    by apply finalizers_registered_insert.
  - destruct (parseCommandLineOptions_registry argv preamble cb md) as [t ->].
    by apply finalizers_registered_with_tree.
  - destruct (parseParameterFile_registry fileName file overwrite md) as [t ->].
    by apply finalizers_registered_with_tree.
Qed.

Lemma run_calls_finalizers_registered cs md :
  finalizers_registered md → finalizers_registered (run_calls cs md).
Proof.
  revert md. induction cs as [|c cs IH]; intros md Hmd; [done|].
  apply IH. by apply run_call_finalizers_registered.
Qed.

(** X9.  Whatever a program calls, starting from the initial store: a
    finalizer waits in the list only for a name that has an entry in the
    registry. *)
Theorem reachable_finalizers_registered cs :
  finalizers_registered (run_calls cs MetaData_clear).
Proof. apply run_calls_finalizers_registered. constructor. Qed.

Lemma type_of_default_from_text compiled defVal :
  type_of (default_from_text compiled defVal) = type_of compiled.
Proof. by destruct compiled. Qed.

Lemma get_each_Throw_inv ps md e :
  get_each ps md = Throw e → ∃ p, p ∈ ps ∧ (Get p true md).1 = Throw e.
Proof.
  induction ps as [|p ps IH]; [done|]. cbn [get_each].
  destruct (Get p true md).1 as [v|e'] eqn:Hp; cbn.
  - destruct (get_each ps md) as [vs|e'] eqn:Hps; cbn; [done|].
    intros [= <-]. destruct (IH eq_refl) as (q & Hq & Hget).
    exists q. split; [by right|done].
  - intros [= <-]. exists p. split; [by left|done].
Qed.

(** X10.  On a store a program can reach, [endRegistration] fails in two
    ways only: the registration was closed before, or the store holds,
    for a parameter whose finalizer waits, a text that the parser of the
    parameter's type rejects; the exception is the parser's. *)
Theorem endRegistration_errors cs e md' :
  endRegistration (run_calls cs MetaData_clear) = (Throw e, md') →
  (registrationOpen (run_calls cs MetaData_clear) = false ∧ e = already_closed)
  ∨ ∃ p text,
      p ∈ finalizers (run_calls cs MetaData_clear)
      ∧ tree (run_calls cs MetaData_clear) !! name p = Some text
      ∧ tree_parse (type_of (value p)) text = Throw e.
Proof.
  assert (finalizers_registered (run_calls cs MetaData_clear)) as Hreg
    by (apply run_calls_finalizers_registered; constructor).
  set (md := run_calls cs MetaData_clear) in *.
  destruct (registrationOpen md) eqn:Hopen.
  - rewrite (endRegistration_open _ Hopen).
    destruct (get_each (finalizers md) (with_registrationOpen false md))
      as [vs|e'] eqn:Heach; [done|].
    intros [= <- _]. right.
    destruct (get_each_Throw_inv _ _ _ Heach) as (p & Hp & Hget).
    cbn in Hp. unfold finalizers_registered in Hreg.
    rewrite Forall_forall in Hreg. destruct (Hreg p Hp) as [info Hinfo].
    rewrite (Get_registered _ p info true) in Hget by done.
    cbn [fst] in Hget. unfold tree_get in Hget. cbn [tree with_registrationOpen] in Hget.
    destruct (tree md !! name p) as [text|] eqn:Htext; [|done].
    exists p, text. split; [done|]. split; [done|].
    by rewrite type_of_default_from_text in Hget.
  - rewrite (endRegistration_closed _ Hopen). intros [= <- _]. by left.
Qed.

End Invariants.

Lemma endRegistration_errors_witness :
  ∃ p text,
    p ∈ [Sample.EnableDebug]
    ∧ ({[ "EnableDebug" := "maybe" ]} : gmap string string) !! name p = Some text
    ∧ tree_parse (type_of (value p)) text = Throw RangeError.
Proof.
  destruct (endRegistration_errors
              [CallRegister Sample.EnableDebug "Print more";
               CallParseCommandLineOptions ["prog"; "--enable-debug=maybe"] EmptyString
                 noPositionalParameters_]
              RangeError
              (with_registrationOpen false
                 (run_calls
                    [CallRegister Sample.EnableDebug "Print more";
                     CallParseCommandLineOptions ["prog"; "--enable-debug=maybe"]
                       EmptyString noPositionalParameters_]
                    MetaData_clear))
              eq_refl) as [[Hclosed _]|H].
  - discriminate Hclosed.
  - exact H.
Defined.

Section Defaults.
Context `{Ext : Externals}.

(** X11.  [SetDefault] has no guard on the state of the registration:
    on a closed registry too it overwrites the default text of a
    registered parameter, and a [Get] that finds no value in the store
    returns the new default.  For a name without an entry it throws and
    leaves the store as it is. *)
Theorem SetDefault_Get md p info v :
  registry md !! name p = Some info →
  registrationOpen md = false →
  tree md !! name p = None →
  type_of v = type_of (value p) →
  match v with
  | VInt z => INT_MIN ≤ z ≤ INT_MAX
  | VScalar x => ∀ x0, scalar_from_text x0 (scalar_to_text x) = x
  | _ => True
  end →
  (∃ md', SetDefault p v md = (Ok tt, md')
          ∧ Get p true md' = (Ok v, md')
          ∧ tree md' = tree md
          ∧ registrationOpen md' = false)
  ∧ (∀ q, registry md !! name q = None →
          SetDefault q v md = (Throw (not_registered (name q)), md)).
Proof.
  intros Hinfo Hclosed Htree Hty Hv. split.
  - destruct (SetDefault_registered md p info v Hinfo) as (md' & Hset & Hreg & Hopen & Ht).
    exists md'. split; [done|]. rewrite Hopen, Ht. split; [|done].
    apply (Get_written_default md' p (with_defaultValue (to_text v) info) v);
      rewrite ?Hopen, ?Ht; try done.
    destruct v as [s|b|z|x]; try done.
    destruct (value p) as [| | |x0]; try done. cbn. by rewrite Hv.
  - intros q Hq. unfold SetDefault. by rewrite Hq.
Qed.

(** X12.  [Hide] changes the hidden flag of the entry and nothing that
    [Get] or [IsSet] look at; a later [Register] of the parameter does
    what it would have done without the [Hide] and leaves it hidden. *)
Theorem Hide_keeps_values md p info :
  registrationOpen md = true →
  registry md !! name p = Some info →
  ∃ md', Hide p md = (Ok tt, md')
    ∧ registry md' = <[name p := with_isHidden true info]> (registry md)
    ∧ (∀ q b, (Get q b md').1 = (Get q b md).1)
    ∧ (∀ q b, (IsSet q b md').1 = (IsSet q b md).1)
    ∧ (∀ usage, (Register p usage md').1 = (Register p usage md).1
                ∧ isHidden <$> registry (Register p usage md').2 !! name p = Some true).
Proof.
  intros Hopen Hinfo. unfold Hide. rewrite Hopen, Hinfo. cbn [negb].
  eexists. split; [done|]. split; [done|].
  assert (∀ q, bool_decide (<[name p := with_isHidden true info]> (registry md) !! name q = None)
               = bool_decide (registry md !! name q = None)) as Hnone.
  { intros q. apply bool_decide_ext. destruct (decide (name p = name q)) as [Heq|Hne].
    - rewrite <- Heq, lookup_insert_eq, Hinfo. split; intros [=].
    - by rewrite lookup_insert_ne. }
  split; [|split].
  - intros q b. unfold Get. cbn [registrationOpen registry tree with_registry].
    rewrite Hnone. destruct (b && registrationOpen md); [done|].
    destruct (b && bool_decide (registry md !! name q = None)); [done|].
    unfold registry_index. destruct (decide (name p = name q)) as [Heq|Hne].
    + by rewrite <- Heq, lookup_insert_eq, Hinfo.
    + rewrite lookup_insert_ne by done. by destruct (registry md !! name q).
  - intros q b. unfold IsSet. cbn [registrationOpen registry tree with_registry].
    rewrite Hnone. destruct (b && registrationOpen md); [done|].
    by destruct (b && bool_decide (registry md !! name q = None)).
  - intros usage. rewrite !Register_open by done.
    cbn [registry with_registry]. rewrite lookup_insert_eq, Hinfo.
    replace (ParamInfo_eqb (with_isHidden true info) (info_of p usage))
      with (ParamInfo_eqb info (info_of p usage)) by done.
    split; [done|]. cbn. by rewrite lookup_insert_eq.
Qed.

End Defaults.

Lemma SetDefault_Get_witness :
  ∃ md', SetDefault Sample.MaxIterations (VInt 50) Sample.closed_store = (Ok tt, md')
         ∧ Get Sample.MaxIterations true md' = (Ok (VInt 50), md').
Proof.
  destruct (SetDefault_Get Sample.closed_store Sample.MaxIterations
              (info_of Sample.MaxIterations "Upper bound") (VInt 50)
              eq_refl eq_refl eq_refl eq_refl) as [(md' & Hset & Hget & _) _].
  - cbn. unfold INT_MIN, INT_MAX. lia.
  - by exists md'.
Defined.

Lemma Hide_keeps_values_witness :
  ∃ md', Hide Sample.OutputDir
           (Register Sample.OutputDir "Where to write" MetaData_clear).2 = (Ok tt, md')
    ∧ (Register Sample.OutputDir "Where to write" md').1 = Ok tt
    ∧ isHidden <$> registry (Register Sample.OutputDir "Where to write" md').2
                     !! "OutputDir" = Some true.
Proof.
  destruct (Hide_keeps_values
              (Register Sample.OutputDir "Where to write" MetaData_clear).2
              Sample.OutputDir (info_of Sample.OutputDir "Where to write")
              eq_refl eq_refl) as (md' & Hhide & _ & _ & _ & Hregister).
  exists md'. split; [exact Hhide|].
  destruct (Hregister "Where to write") as [Hr Hhidden].
  split; [|exact Hhidden]. rewrite Hr. reflexivity.
Defined.

(** ** The command line *)

Lemma tree_assign_app t kvs kvs' :
  tree_assign t (kvs ++ kvs') = tree_assign (tree_assign t kvs) kvs'.
Proof. apply foldl_app. Qed.

Section CommandLineProperties.
Context `{Ext : Externals}.

Lemma with_tree_id md : with_tree (tree md) md = md.
Proof. by destruct md. Qed.

Lemma with_tree_assign_nil md : with_tree (tree_assign (tree md) []) md = md.
Proof. by destruct md. Qed.

Lemma with_tree_twice t t' md : with_tree t' (with_tree t md) = with_tree t' md.
Proof. done. Qed.

Lemma parseCommandLine_loop_assignments cb argv rest i skip seenKeys n :
  ∃ msg kvs, ∀ md,
    parseCommandLine_loop cb argv rest i skip seenKeys n md
    = (msg, with_tree (tree_assign (tree md) kvs) md).
Proof.
  revert i skip seenKeys n.
  induction rest as [|arg rest IH]; intros i skip seenKeys n; cbn [parseCommandLine_loop].
  - exists (Ok EmptyString), []. intros md. by rewrite with_tree_assign_nil.
  - destruct skip as [|skip']; [|apply IH].
    destruct (is_positional arg).
    + set (out := cb seenKeys argv i n).
      destruct (numHandled out <? 1); [by exists (Ok (errorMsg out)), (assignments out)|].
      destruct (IH (S i) (Z.to_nat (numHandled out - 1)) (seenKeysAfter out) (n + 1))
        as (msg & kvs & Hloop).
      exists msg, (assignments out ++ kvs). intros md.
      by rewrite Hloop, tree_assign_app.
    + destruct (parseNamedOption arg i seenKeys) as [[msg|paramName paramValue]|e].
      * exists (Ok msg), []. intros md. by rewrite with_tree_assign_nil.
      * destruct (IH (S i) 0%nat ({[paramName]} ∪ seenKeys) n) as (msg & kvs & Hloop).
        exists msg, ((paramName, paramValue) :: kvs). intros md. by rewrite Hloop.
      * exists (Throw e), []. intros md. by rewrite with_tree_assign_nil.
Qed.

(** X13.  What [parseCommandLineOptions] returns and what it stores is
    decided by its arguments alone, the callback going by what it is
    called with: the call comes to a message and a list of key/value
    pairs put into the value store one after the other, whatever the
    store holds, whatever is registered, and whether or not the
    registration is closed; nothing but the value store changes. *)
Theorem parseCommandLineOptions_assignments argv helpPreamble cb :
  ∃ msg kvs, ∀ md,
    parseCommandLineOptions argv helpPreamble cb md
    = (msg, with_tree (tree_assign (tree md) kvs) md).
Proof.
  unfold parseCommandLineOptions. destruct (_ && _).
  - exists (Ok "Help called"), []. intros md. by rewrite with_tree_assign_nil.
  - apply parseCommandLine_loop_assignments.
Qed.

Lemma is_positional_option_text key value paramName :
  transformKey key true EmptyString = Ok paramName →
  is_positional (option_text (key, value)) = false.
Proof.
  intros Htr. apply is_positional_false. split; [|apply prefix_two_hyphens].
  destruct key as [|c key]; [done|]. unfold option_text. cbn [fst snd].
  change ("--" +:+ String c key +:+ String "=" value)
    with (String "-" (String "-" (String c (key +:+ String "=" value)))).
  destruct key as [|d key];
    [change (EmptyString +:+ String "=" value) with (String "=" value)
    |change (String d key +:+ String "=" value)
       with (String d (key +:+ String "=" value))];
    cbn [String.length]; lia.
Qed.

(** A run of options with names that differ from each other and from
    the names seen before: each value is stored under the name of its
    option, and the loop goes on behind them. *)
Lemma parseCommandLine_loop_options cb argv kvs names rest i seenKeys n md :
  Forall2 (λ kv paramName, transformKey kv.1 true EmptyString = Ok paramName) kvs names →
  NoDup names →
  (∀ paramName, paramName ∈ names → paramName ∉ seenKeys) →
  parseCommandLine_loop cb argv (map option_text kvs ++ rest) i 0 seenKeys n md
  = parseCommandLine_loop cb argv rest (i + length kvs) 0
      (list_to_set names ∪ seenKeys) n
      (with_tree (tree_assign (tree md) (zip names kvs.*2)) md).
Proof.
  intros Hnames. revert i seenKeys md.
  induction Hnames as [|[key value] paramName kvs names Htr _ IH];
    intros i seenKeys md Hdup Hseen.
  - cbn [map app length zip zip_with list_to_set].
    by rewrite Nat.add_0_r, with_tree_assign_nil, (left_id_L ∅ (∪)).
  - cbn [map app parseCommandLine_loop]. cbn [fst] in Htr.
    rewrite (is_positional_option_text _ _ _ Htr).
    unfold option_text. cbn [fst snd].
    rewrite (parseNamedOption_key_value _ _ _ _ _ Htr).
    rewrite bool_decide_eq_false_2 by (apply Hseen; by left).
    apply NoDup_cons in Hdup as [Hfresh Hdup].
    rewrite IH; [|done|].
    + cbn [length fmap list_fmap zip zip_with list_to_set tree with_tree].
      replace (S i + length kvs)%nat with (i + S (length kvs))%nat by lia.
      f_equal. by rewrite (assoc_L (∪)), (comm_L (∪) (list_to_set names)).
    + intros other Hother [->%elem_of_singleton|Hin]%elem_of_union; [done|].
      apply (Hseen other); [by right|done].
Qed.

Lemma not_help_option_text kv : is_help_option (option_text kv) = false.
Proof.
  assert (∀ s key value,
            all_chars (λ c, negb (is_char "=" c)) s = true →
            s ≠ key +:+ String "=" value) as Hneq.
  { induction s as [|c s IH]; intros [|d key] value Hs;
      rewrite ?app_empty_l, ?app_String; try done;
      apply andb_prop in Hs as [Hc Hs].
    - apply negb_true_iff, is_char_false in Hc. by intros [= -> _].
    - intros [= _ Heq]. by apply (IH key value). }
  destruct kv as [key value]. unfold is_help_option, option_text. cbn [fst snd].
  change ("--" +:+ key +:+ String "=" value)
    with (String "-" (String "-" (key +:+ String "=" value))).
  rewrite !orb_false_iff. repeat split; apply String.eqb_neq.
  - intros [= Heq]. by apply (Hneq "help" key value).
  - intros [= Heq]. by apply (Hneq "help-all" key value).
Qed.

Lemma no_help_option_texts kvs : existsb is_help_option (map option_text kvs) = false.
Proof.
  induction kvs as [|kv kvs IH]; [done|]. cbn [map existsb].
  by rewrite not_help_option_text, IH.
Qed.

Lemma parseCommandLineOptions_named_list prog kvs names helpPreamble cb md :
  Forall2 (λ kv paramName, transformKey kv.1 true EmptyString = Ok paramName) kvs names →
  NoDup names →
  parseCommandLineOptions (prog :: map option_text kvs) helpPreamble cb md
  = (Ok EmptyString, with_tree (tree_assign (tree md) (zip names kvs.*2)) md).
Proof.
  intros Hnames Hdup. unfold parseCommandLineOptions. cbn [tail].
  rewrite no_help_option_texts, andb_false_r.
  rewrite <- (app_nil_r (map option_text kvs)).
  rewrite (parseCommandLine_loop_options _ _ _ names)
    by (done || intros ? _; apply not_elem_of_empty).
  done.
Qed.

(** X14.  A command line of options [--key=value] whose names differ
    from each other is taken whole: the call returns the empty message
    and every value is in the store under the transformed name of its
    option, put there in the order of the arguments. *)
Theorem parseCommandLineOptions_options prog kvs names helpPreamble cb md :
  Forall2 (λ kv paramName, transformKey kv.1 true EmptyString = Ok paramName) kvs names →
  NoDup names →
  parseCommandLineOptions (prog :: map option_text kvs) helpPreamble cb md
  = (Ok EmptyString, with_tree (tree_assign (tree md) (zip names kvs.*2)) md).
Proof. apply parseCommandLineOptions_named_list. Qed.

End CommandLineProperties.

Lemma parseCommandLineOptions_options_witness :
  parseCommandLineOptions ["prog"; "--max-iterations=10"; "--output-dir=/tmp"]
    "Usage" noPositionalParameters_ MetaData_clear
  = (Ok EmptyString,
     with_tree (<["OutputDir" := "/tmp"]> (<["MaxIterations" := "10"]> ∅)) MetaData_clear).
Proof.
  apply (parseCommandLineOptions_options "prog"
           [("max-iterations", "10"); ("output-dir", "/tmp")]
           ["MaxIterations"; "OutputDir"]).
  - repeat constructor.
  - apply (bool_decide_unpack _). reflexivity.
Defined.

Section CommandLineErrors.
Context `{Ext : Externals}.

Lemma no_help_called helpPreamble kvs rest :
  helpPreamble = EmptyString ∨ existsb is_help_option rest = false →
  negb (String.eqb helpPreamble EmptyString)
  && existsb is_help_option (map option_text kvs ++ rest) = false.
Proof.
  intros [->|Hrest]; [done|].
  by rewrite existsb_app, no_help_option_texts, Hrest, andb_false_r.
Qed.

(** X15.  Without a callback for positional arguments the first
    argument that is not an option ends the call: the message names it,
    the options in front of it are in the store, and what follows it is
    not looked at. *)
Theorem parseCommandLineOptions_illegal prog kvs names arg rest helpPreamble md :
  Forall2 (λ kv paramName, transformKey kv.1 true EmptyString = Ok paramName) kvs names →
  NoDup names →
  (String.length arg < 4)%nat ∨ String.prefix "--" arg = false →
  helpPreamble = EmptyString ∨ existsb is_help_option (arg :: rest) = false →
  parseCommandLineOptions (prog :: map option_text kvs ++ arg :: rest) helpPreamble
    noPositionalParameters_ md
  = (Ok ("Illegal parameter " +:+ str1 dquote +:+ arg +:+ str1 dquote +:+ "."),
     with_tree (tree_assign (tree md) (zip names kvs.*2)) md).
Proof.
  intros Hnames Hdup Hpos%is_positional_spec Hhelp.
  unfold parseCommandLineOptions. cbn [tail]. rewrite (no_help_called _ _ _ Hhelp).
  rewrite (parseCommandLine_loop_options _ _ _ names)
    by (done || intros ? _; apply not_elem_of_empty).
  cbn [parseCommandLine_loop]. rewrite Hpos. cbn.
  replace (nth (length kvs) (map option_text kvs ++ arg :: rest) EmptyString) with arg;
    [done|].
  by rewrite <- (length_map option_text kvs), nth_middle.
Qed.

(** X16.  An option whose name was given before ends the call: the
    message names the parameter, the value given first stays in the
    store, and what follows is not looked at. *)
Theorem parseCommandLineOptions_duplicate
    prog kvs names key value paramName rest helpPreamble cb md :
  Forall2 (λ kv paramName, transformKey kv.1 true EmptyString = Ok paramName) kvs names →
  NoDup names →
  transformKey key true EmptyString = Ok paramName →
  paramName ∈ names →
  helpPreamble = EmptyString ∨ existsb is_help_option rest = false →
  parseCommandLineOptions (prog :: map option_text kvs ++ option_text (key, value) :: rest)
    helpPreamble cb md
  = (Ok ("Parameter '" +:+ paramName +:+ "' specified multiple times as a "
           +:+ "command line parameter"),
     with_tree (tree_assign (tree md) (zip names kvs.*2)) md).
Proof.
  intros Hnames Hdup Htr Hin Hhelp.
  unfold parseCommandLineOptions. cbn [tail]. rewrite no_help_called.
  - rewrite (parseCommandLine_loop_options _ _ _ names)
      by (done || intros ? _; apply not_elem_of_empty).
    cbn [parseCommandLine_loop].
    rewrite (is_positional_option_text _ _ _ Htr).
    unfold option_text at 1. cbn [fst snd].
    rewrite (parseNamedOption_key_value _ _ _ _ _ Htr).
    rewrite bool_decide_eq_true_2; [done|].
    apply elem_of_union_l. by apply elem_of_list_to_set.
  - destruct Hhelp as [->|Hrest]; [by left|right].
    cbn [existsb]. by rewrite not_help_option_text.
Qed.

End CommandLineErrors.

Lemma parseCommandLineOptions_illegal_witness :
  parseCommandLineOptions ["prog"; "--max-iterations=10"; "case.data"; "--output-dir=/tmp"]
    "Usage" noPositionalParameters_ MetaData_clear
  = (Ok ("Illegal parameter " +:+ str1 dquote +:+ "case.data" +:+ str1 dquote +:+ "."),
     with_tree (<["MaxIterations" := "10"]> ∅) MetaData_clear).
Proof.
  apply (parseCommandLineOptions_illegal "prog" [("max-iterations", "10")]
           ["MaxIterations"] "case.data" ["--output-dir=/tmp"]).
  - repeat constructor.
  - apply (bool_decide_unpack _). reflexivity.
  - right. reflexivity.
  - right. reflexivity.
Defined.

Lemma parseCommandLineOptions_duplicate_witness :
  parseCommandLineOptions ["prog"; "--max-iterations=10"; "--max-iterations=20"]
    EmptyString noPositionalParameters_ MetaData_clear
  = (Ok "Parameter 'MaxIterations' specified multiple times as a command line parameter",
     with_tree (<["MaxIterations" := "10"]> ∅) MetaData_clear).
Proof.
  apply (parseCommandLineOptions_duplicate "prog" [("max-iterations", "10")]
           ["MaxIterations"] "max-iterations" "20" "MaxIterations" []).
  - repeat constructor.
  - apply (bool_decide_unpack _). reflexivity.
  - reflexivity.
  - apply (bool_decide_unpack _). reflexivity.
  - by left.
Defined.

(** ** The parameter file *)

Lemma removeLeadingSpace_blank blank s :
  all_chars isspace blank = true →
  removeLeadingSpace (blank +:+ s) = removeLeadingSpace s.
Proof.
  induction blank as [|c blank IH]; [done|]. intros [Hc Hblank]%andb_prop.
  rewrite app_String. cbn [removeLeadingSpace]. rewrite Hc. by apply IH.
Qed.

Lemma removeLeadingSpace_id s :
  starts_with isspace s = false → removeLeadingSpace s = s.
Proof. destruct s as [|c s]; [done|]. cbn. by intros ->. Qed.

Lemma parseKey_app key rest :
  all_chars key_char key = true →
  starts_with key_char rest = false →
  parseKey (key +:+ rest) = (key, rest).
Proof.
  intros Hkey Hrest. induction key as [|c key IH].
  - rewrite app_empty_l. destruct rest as [|c rest]; [done|].
    cbn in *. unfold key_char in Hrest. apply negb_false_iff in Hrest. by rewrite Hrest.
  - apply andb_prop in Hkey as [Hc Hkey]. rewrite app_String. cbn [parseKey].
    unfold key_char in Hc. apply negb_true_iff in Hc. by rewrite Hc, (IH Hkey).
Qed.

Lemma parseUnquotedValue_app value rest :
  all_chars (λ c, negb (isspace c)) value = true →
  rest = EmptyString ∨ starts_with isspace rest = true →
  parseUnquotedValue (value +:+ rest) = (value, rest).
Proof.
  intros Hvalue Hrest. induction value as [|c value IH].
  - rewrite app_empty_l. destruct Hrest as [->|Hrest]; [done|].
    destruct rest as [|c rest]; [done|]. cbn in *. by rewrite Hrest.
  - apply andb_prop in Hvalue as [Hc Hvalue]. rewrite app_String. cbn [parseUnquotedValue].
    apply negb_true_iff in Hc. by rewrite Hc, (IH Hvalue).
Qed.

Lemma transformKey_loop_prefix errorPrefix errorPrefix' s s' rest r :
  transformKey_loop errorPrefix s rest = Ok r →
  transformKey_loop errorPrefix' s' rest = Ok r.
Proof.
  revert r. induction rest as [rest IH] using string_length_ind. intros r.
  destruct rest as [|c rest]; [done|].
  cbn [transformKey_loop]. destruct (is_char hyphen c).
  - destruct rest as [|d rest]; [done|]. destruct (isalpha d); [|done].
    destruct (transformKey_loop errorPrefix s rest) as [r'|] eqn:Hrest; [|done].
    by rewrite (IH rest ltac:(cbn; lia) r' Hrest).
  - destruct (isalnum c); [|done]. cbn [negb].
    destruct (transformKey_loop errorPrefix s rest) as [r'|] eqn:Hrest; [|done].
    by rewrite (IH rest ltac:(cbn; lia) r' Hrest).
Qed.

(** The error prefix does not change what [transformKey] returns. *)
Lemma transformKey_prefix errorPrefix errorPrefix' s b r :
  transformKey s b errorPrefix = Ok r → transformKey s b errorPrefix' = Ok r.
Proof.
  destruct s as [|c rest]; [done|]. cbn [transformKey].
  destruct (isalpha c); [|done]. cbn [negb].
  destruct (transformKey_loop errorPrefix (String c rest) rest) as [r'|] eqn:Hrest; [|done].
  by rewrite (transformKey_loop_prefix _ errorPrefix' _ (String c rest) _ _ Hrest).
Qed.

Lemma isalpha_not_space c : isalpha c = true → isspace c = false.
Proof. by_cases_on_char c. Qed.

Lemma isalpha_not_comment c :
  isalpha c = true → is_char "#" c || is_char ";" c = false.
Proof. by_cases_on_char c. Qed.

Lemma starts_with_app P s t :
  s ≠ EmptyString → starts_with P (s +:+ t) = starts_with P s.
Proof. by destruct s. Qed.

Section ParameterFileProperties.
Context `{Ext : Externals}.

(** X17.  A line [key = value] of a parameter file, with white space
    around its parts and, behind white space, a comment at its end: when
    the key is well formed and new in the file, the value is stored under
    the transformed key; with [overwrite = false] a value the store has
    for the key stays. *)
Theorem parseParameterFile_line_stores
    fileName overwrite curLineNum seenKeys md
    blank1 key blank2 blank3 value rest canonicalKey :
  all_chars isspace blank1 = true →
  all_chars isspace blank2 = true →
  all_chars isspace blank3 = true →
  transformKey key true EmptyString = Ok canonicalKey →
  canonicalKey ∉ seenKeys →
  all_chars (λ c, negb (isspace c)) value = true →
  starts_with (λ c, negb (is_char dquote c || is_char "#" c || is_char ";" c)) value = true →
  rest = EmptyString
  ∨ starts_with isspace rest = true ∧ blank_or_comment (removeLeadingSpace rest) = true →
  parseParameterFile_line fileName overwrite curLineNum
    (blank1 +:+ key +:+ blank2 +:+ String "=" (blank3 +:+ value +:+ rest)) seenKeys md
  = (Ok ({[canonicalKey]} ∪ seenKeys),
     if overwrite || negb (hasKey (tree md) canonicalKey)
     then with_tree (<[canonicalKey := value]> (tree md)) md else md).
Proof.
  intros Hblank1 Hblank2 Hblank3 Htr Hnew Hvalue Hfirst Hrest.
  destruct (transformKey_key_chars _ _ _ _ Htr) as [Halpha Hkey].
  destruct key as [|c key]; [done|]. cbn [starts_with] in Halpha.
  destruct value as [|v value]; [done|]. cbn [starts_with] in Hfirst.
  apply negb_true_iff, orb_false_iff in Hfirst as [[Hquote _]%orb_false_iff _].
  pose proof Hvalue as [Hv _]%andb_prop. apply negb_true_iff in Hv.
  unfold parseParameterFile_line.
  rewrite removeLeadingSpace_blank by done.
  rewrite !app_String.
  rewrite removeLeadingSpace_id by (cbn; by apply isalpha_not_space).
  unfold blank_or_comment. cbn [String.eqb starts_with orb].
  rewrite (isalpha_not_comment _ Halpha).
  rewrite <- app_String.
  rewrite parseKey_app; [|done|].
  2:{ destruct blank2 as [|b blank2]; [done|].
      apply andb_prop in Hblank2 as [Hb _]. rewrite app_String. cbn [starts_with].
      unfold key_char. by rewrite Hb. }
  rewrite (transformKey_prefix _ _ _ _ _ Htr).
  rewrite bool_decide_eq_false_2 by done.
  rewrite removeLeadingSpace_blank by done.
  rewrite removeLeadingSpace_id by done.
  cbn [substr_from].
  rewrite removeLeadingSpace_blank by done.
  rewrite removeLeadingSpace_id by (cbn; done).
  cbn [starts_with]. rewrite Hquote.
  rewrite <- app_String.
  rewrite parseUnquotedValue_app; [by destruct (_ || _)|done|].
  destruct Hrest as [->|[Hrest _]]; [by left|by right].
Qed.

End ParameterFileProperties.

Lemma parseParameterFile_line_stores_witness :
  parseParameterFile_line "params.ini" false 3 "  foo-bar = 42   # note" ∅
    Sample.closed_store
  = (Ok {[ "FooBar" ]},
     with_tree (<["FooBar" := "42"]> (tree Sample.closed_store)) Sample.closed_store).
Proof.
  pose proof (parseParameterFile_line_stores "params.ini" false 3 ∅ Sample.closed_store
                "  " "foo-bar" " " " " "42" "   # note" "FooBar"
                eq_refl eq_refl eq_refl eq_refl) as H.
  rewrite (right_id_L ∅ (∪)) in H. apply H.
  - apply not_elem_of_empty.
  - reflexivity.
  - reflexivity.
  - right. split; reflexivity.
Defined.

Lemma tree_assign_file_app overwrite t kvs kvs' :
  tree_assign_file overwrite t (kvs ++ kvs')
  = tree_assign_file overwrite (tree_assign_file overwrite t kvs) kvs'.
Proof. apply foldl_app. Qed.

(** Without [overwrite] the values of the store stay. *)
Lemma tree_assign_file_keeps t kvs key text :
  t !! key = Some text → tree_assign_file false t kvs !! key = Some text.
Proof.
  revert t. induction kvs as [|[k v] kvs IH]; intros t Hkey; [done|].
  cbn [tree_assign_file foldl fst snd orb]. apply IH.
  unfold hasKey. case_bool_decide as Hk; [done|]. cbn [negb].
  rewrite lookup_insert_ne; [done|]. intros ->. apply Hk. by eexists.
Qed.

Section ParameterFileAssignments.
Context `{Ext : Externals}.

Lemma with_tree_assign_file_nil overwrite md :
  with_tree (tree_assign_file overwrite (tree md) []) md = md.
Proof. by destruct md. Qed.

Lemma parseParameterFile_line_assignment fileName overwrite n curLine seenKeys :
  ∃ outcome kvs,
    (∀ md, parseParameterFile_line fileName overwrite n curLine seenKeys md
           = (outcome, with_tree (tree_assign_file overwrite (tree md) kvs) md))
    ∧ NoDup kvs.*1
    ∧ (∀ key, key ∈ kvs.*1 → key ∉ seenKeys)
    ∧ (∀ seenKeys', outcome = Ok seenKeys' →
         seenKeys ⊆ seenKeys' ∧ ∀ key, key ∈ kvs.*1 → key ∈ seenKeys').
Proof.
  assert (Hnone : ∀ outcome : result (gset string),
            (∀ seenKeys', outcome = Ok seenKeys' → seenKeys ⊆ seenKeys') →
            ∃ outcome' kvs,
              (∀ md, (outcome, md)
                     = (outcome', with_tree (tree_assign_file overwrite (tree md) kvs) md))
              ∧ NoDup kvs.*1
              ∧ (∀ key, key ∈ kvs.*1 → key ∉ seenKeys)
              ∧ (∀ seenKeys', outcome' = Ok seenKeys' →
                   seenKeys ⊆ seenKeys' ∧ ∀ key, key ∈ kvs.*1 → key ∈ seenKeys')).
  { intros outcome Hsub. exists outcome, [].
    split; [intros md; by rewrite with_tree_assign_file_nil|].
    split; [constructor|]. split; [by intros key ?%elem_of_nil|].
    intros seenKeys' Hok. split; [by apply Hsub|by intros key ?%elem_of_nil]. }
  unfold parseParameterFile_line.
  destruct (blank_or_comment _); [by apply Hnone; intros ? [= <-]|].
  destruct (parseKey _) as [key rest].
  destruct (transformKey _ _ _) as [canonicalKey|e]; [|by apply Hnone].
  case_bool_decide as Hseen; [by apply Hnone|].
  destruct (substr_from _ _) as [rest'|e]; [|by apply Hnone].
  destruct (if starts_with _ _ then _ else _) as [[v rest'']|e]; [|by apply Hnone].
  exists (Ok ({[canonicalKey]} ∪ seenKeys)), [(canonicalKey, v)].
  split; [|split; [|split]].
  - intros md. cbn [tree_assign_file foldl fst snd].
    destruct (overwrite || negb (hasKey (tree md) canonicalKey)); [done|].
    by destruct md.
  - cbn. apply NoDup_singleton.
  - cbn. by intros k ->%list_elem_of_singleton.
  - intros seenKeys' [= <-]. split; [apply union_subseteq_r|].
    cbn. intros k ->%list_elem_of_singleton. apply elem_of_union_l.
    by apply elem_of_singleton.
Qed.

Lemma parseParameterFile_loop_assignments fileName overwrite lines n seenKeys :
  ∃ outcome kvs,
    (∀ md, parseParameterFile_loop fileName overwrite lines n seenKeys md
           = (outcome, with_tree (tree_assign_file overwrite (tree md) kvs) md))
    ∧ NoDup kvs.*1
    ∧ (∀ key, key ∈ kvs.*1 → key ∉ seenKeys).
Proof.
  revert n seenKeys. induction lines as [|curLine lines IH]; intros n seenKeys.
  - exists (Ok tt), []. split; [intros md; by rewrite with_tree_assign_file_nil|].
    split; [constructor|by intros key ?%elem_of_nil].
  - cbn [parseParameterFile_loop].
    destruct (parseParameterFile_line_assignment fileName overwrite
                (next_line_number n) curLine seenKeys)
      as (outcome & kvs & Hline & Hdup & Hnew & Hseen).
    destruct outcome as [seenKeys'|e].
    + destruct (Hseen seenKeys' eq_refl) as [Hsub Hin].
      destruct (IH (next_line_number n) seenKeys') as (outcome & kvs' & Hloop & Hdup' & Hnew').
      exists outcome, (kvs ++ kvs'). split; [|split].
      * intros md. by rewrite Hline, Hloop, tree_assign_file_app.
      * rewrite fmap_app. apply NoDup_app. split; [done|]. split; [|done].
        intros key Hkey Hkey'. by apply (Hnew' key Hkey'), Hin.
      * rewrite fmap_app. intros key [Hkey|Hkey]%elem_of_app; [by apply Hnew|].
        intros Hold. by apply (Hnew' key Hkey), Hsub.
    + exists (Throw e), kvs. split; [|done]. intros md. by rewrite Hline.
Qed.

(** X18.  A call of [parseParameterFile] comes to an outcome and a list
    of key/value pairs with keys that differ from each other, the same
    for every store: with [overwrite] each pair is put into the value
    store, without it the pairs whose key the store does not hold, so
    that no value of the store is changed.  Nothing but the value store
    changes. *)
Theorem parseParameterFile_assignments fileName file overwrite :
  ∃ outcome kvs,
    (∀ md, parseParameterFile fileName file overwrite md
           = (outcome, with_tree (tree_assign_file overwrite (tree md) kvs) md))
    ∧ NoDup kvs.*1
    ∧ (overwrite = false →
       ∀ md key text,
         tree md !! key = Some text →
         tree (parseParameterFile fileName file overwrite md).2 !! key = Some text).
Proof.
  assert (∃ outcome kvs,
            (∀ md, parseParameterFile fileName file overwrite md
                   = (outcome, with_tree (tree_assign_file overwrite (tree md) kvs) md))
            ∧ NoDup kvs.*1) as (outcome & kvs & Hfile & Hdup).
  { unfold parseParameterFile. destruct file as [content|].
    - destruct (parseParameterFile_loop_assignments fileName overwrite
                  (getline_calls content) 0 ∅) as (outcome & kvs & Hloop & Hdup & _).
      by exists outcome, kvs.
    - exists (Ok tt), []. split; [|constructor].
      intros md. by rewrite with_tree_assign_file_nil. }
  exists outcome, kvs. split; [done|]. split; [done|].
  intros -> md key text Hkey. rewrite Hfile. cbn. by apply tree_assign_file_keeps.
Qed.

End ParameterFileAssignments.

(** *** The exceptions of the parameter file *)

Lemma transformKey_loop_Throw errorPrefix s rest e :
  transformKey_loop errorPrefix s rest = Throw e → e = invalid_name errorPrefix s.
Proof.
  induction rest as [rest IH] using string_length_ind.
  destruct rest as [|c rest]; [done|].
  cbn [transformKey_loop]. destruct (is_char hyphen c).
  - destruct rest as [|d rest]; [by intros [= <-]|].
    destruct (isalpha d); [|by intros [= <-]].
    destruct (transformKey_loop errorPrefix s rest) eqn:Hrest; [done|].
    intros [= <-]. by apply (IH rest ltac:(cbn; lia)).
  - destruct (isalnum c); [|by intros [= <-]]. cbn [negb].
    destruct (transformKey_loop errorPrefix s rest) eqn:Hrest; [done|].
    intros [= <-]. by apply (IH rest ltac:(cbn; lia)).
Qed.

(** The exceptions of [transformKey] start with the error prefix. *)
Lemma transformKey_Throw s b errorPrefix e :
  transformKey s b errorPrefix = Throw e →
  ∃ msg, e = runtime_error (errorPrefix +:+ msg).
Proof.
  destruct s as [|c rest]; [intros [= <-]; by eexists|]. cbn [transformKey].
  destruct (isalpha c); [|intros [= <-]; by eexists]. cbn [negb].
  destruct (transformKey_loop errorPrefix (String c rest) rest) eqn:Hrest; [done|].
  intros [= <-]. rewrite (transformKey_loop_Throw _ _ _ _ Hrest). by eexists.
Qed.

Lemma parseQuotedValue_loop_Throw errorPrefix s e :
  parseQuotedValue_loop errorPrefix s = Throw e →
  e = out_of_range ∨ ∃ msg, e = runtime_error (errorPrefix +:+ msg).
Proof.
  induction s as [s IH] using string_length_ind.
  destruct s as [|c s]; [intros [= <-]; by left|].
  cbn [parseQuotedValue_loop]. destruct (is_char backslash c).
  - destruct s as [|d s]; [intros [= <-]; right; by eexists|].
    assert (∀ x, result_map (λ '(r, rest), (String x r, rest))
                   (parseQuotedValue_loop errorPrefix s) = Throw e →
                 e = out_of_range ∨ ∃ msg, e = runtime_error (errorPrefix +:+ msg))
      as Hcontinue.
    { intros x. destruct (parseQuotedValue_loop errorPrefix s) as [[r rest]|e'] eqn:Hs;
        [done|].
      intros [= <-]. by apply (IH s ltac:(cbn; lia)). }
    repeat (destruct (is_char _ d); [apply Hcontinue|]).
    intros [= <-]. right. by eexists.
  - destruct (is_char dquote c); [done|].
    destruct (parseQuotedValue_loop errorPrefix s) as [[r rest]|e'] eqn:Hs; [done|].
    intros [= <-]. by apply (IH s ltac:(cbn; lia)).
Qed.

Lemma parseQuotedValue_Throw s errorPrefix e :
  parseQuotedValue s errorPrefix = Throw e →
  e = out_of_range ∨ ∃ msg, e = runtime_error (errorPrefix +:+ msg).
Proof.
  destruct s as [|c s]; [intros [= <-]; right; by eexists|]. cbn [parseQuotedValue].
  destruct (is_char dquote c); [apply parseQuotedValue_loop_Throw|].
  intros [= <-]. right. by eexists.
Qed.

Section ParameterFileErrors.
Context `{Ext : Externals}.

Lemma parseParameterFile_line_Throw fileName overwrite n curLine seenKeys md e md' :
  parseParameterFile_line fileName overwrite n curLine seenKeys md = (Throw e, md') →
  e = out_of_range
  ∨ ∃ msg, e = runtime_error
                 (fileName +:+ ":" +:+ to_string_unsigned n +:+ ": " +:+ msg).
Proof.
  unfold parseParameterFile_line.
  set (errorPrefix := fileName +:+ ":" +:+ to_string_unsigned n +:+ ": ").
  assert (∀ msg, errorPrefix +:+ msg
                 = fileName +:+ ":" +:+ to_string_unsigned n +:+ ": " +:+ msg) as Hprefix
    by (intros msg; unfold errorPrefix; by rewrite !sapp_assoc).
  destruct (blank_or_comment _); [done|].
  destruct (parseKey _) as [key rest].
  destruct (transformKey _ _ _) as [canonicalKey|e'] eqn:Htr.
  - case_bool_decide.
    { intros [= <- _]. right. rewrite Hprefix. by eexists. }
    destruct (substr_from _ _) as [rest'|e'] eqn:Hsub.
    + destruct (starts_with _ _).
      * destruct (parseQuotedValue _ _) as [[v rest'']|e'] eqn:Hq.
        -- by destruct (_ || _).
        -- intros [= <- _].
           destruct (parseQuotedValue_Throw _ _ _ Hq) as [->|[msg ->]]; [by left|].
           right. rewrite Hprefix. by eexists.
      * destruct (parseUnquotedValue _). by destruct (_ || _).
    + intros [= <- _]. left.
      destruct (removeLeadingSpace rest) as [|c [|d s]]; cbn in Hsub; congruence.
  - intros [= <- _]. destruct (transformKey_Throw _ _ _ _ Htr) as [msg ->].
    right. rewrite Hprefix. by eexists.
Qed.

Lemma parseParameterFile_loop_Throw fileName overwrite lines n seenKeys md e md' :
  parseParameterFile_loop fileName overwrite lines n seenKeys md = (Throw e, md') →
  e = out_of_range
  ∨ ∃ k msg,
      (k < length lines)%nat
      ∧ e = runtime_error
              (fileName +:+ ":"
                 +:+ to_string_unsigned ((n + N.of_nat (S k)) mod 2 ^ 32)%N
                 +:+ ": " +:+ msg).
Proof.
  revert n seenKeys md.
  induction lines as [|curLine lines IH]; intros n seenKeys md; [done|].
  cbn [parseParameterFile_loop].
  destruct (parseParameterFile_line _ _ _ _ _ _) as [[seenKeys'|e'] md1] eqn:Hline.
  - intros [->|(k & msg & Hk & ->)]%IH; [by left|].
    right. exists (S k), msg. split; [cbn; lia|].
    unfold next_line_number. rewrite N.Div0.add_mod_idemp_l.
    by replace (n + 1 + N.of_nat (S k))%N with (n + N.of_nat (S (S k)))%N by lia.
  - intros [= <- _].
    destruct (parseParameterFile_line_Throw _ _ _ _ _ _ _ _ Hline) as [->|[msg ->]];
      [by left|].
    right. by exists 0%nat, msg; split; [cbn; lia|].
Qed.

(** X19.  [parseParameterFile] throws in two ways only: with a
    [std::runtime_error] whose message starts with the name of the file
    and the number of one of its lines, counted from one, or with the
    [std::out_of_range] of a [substr], which names neither. *)
Theorem parseParameterFile_errors fileName file overwrite md e md' :
  parseParameterFile fileName file overwrite md = (Throw e, md') →
  ∃ content,
    file = Some content
    ∧ (e = out_of_range
       ∨ ∃ k msg,
           (k < length (getline_calls content))%nat
           ∧ e = runtime_error
                   (fileName +:+ ":"
                      +:+ to_string_unsigned (N.of_nat (S k) mod 2 ^ 32)%N
                      +:+ ": " +:+ msg)).
Proof.
  unfold parseParameterFile. destruct file as [content|]; [|done].
  intros Hloop. exists content. split; [done|].
  by destruct (parseParameterFile_loop_Throw _ _ _ _ _ _ _ _ Hloop)
    as [->|(k & msg & Hk & ->)]; [left|right; exists k, msg].
Qed.

End ParameterFileErrors.

Lemma parseParameterFile_errors_witness :
  ∃ content,
    Some ("foo-bar = 42" +:+ str1 newline +:+ "foo-bar = 43") = Some content
    ∧ (runtime_error
         "params.ini:2: Parameter 'FooBar' seen multiple times in the same file"
       = out_of_range
       ∨ ∃ k msg,
           (k < length (getline_calls content))%nat
           ∧ runtime_error
               "params.ini:2: Parameter 'FooBar' seen multiple times in the same file"
             = runtime_error
                 ("params.ini" +:+ ":"
                    +:+ to_string_unsigned (N.of_nat (S k) mod 2 ^ 32)%N
                    +:+ ": " +:+ msg)).
Proof.
  apply (parseParameterFile_errors "params.ini"
           (Some ("foo-bar = 42" +:+ str1 newline +:+ "foo-bar = 43")) true
           MetaData_clear
           (runtime_error
              "params.ini:2: Parameter 'FooBar' seen multiple times in the same file")
           (with_tree {[ "FooBar" := "42" ]} MetaData_clear)).
  reflexivity.
Defined.

(** ** The line-wrapping helper, further *)

Lemma nonspace_app s t : nonspace (s +:+ t) = nonspace s +:+ nonspace t.
Proof.
  induction s as [|c s IH]; [done|]. rewrite app_String. cbn [nonspace].
  destruct (isspace c); [done|]. by rewrite app_String, IH.
Qed.

Lemma nonspace_spaces k : nonspace (spaces k) = EmptyString.
Proof. induction k as [|k IH]; [done|]. cbn [spaces nonspace]. by rewrite IH. Qed.

Lemma nonspace_line_break indentWidth : nonspace (line_break indentWidth) = EmptyString.
Proof.
  unfold line_break. rewrite nonspace_app, nonspace_spaces. reflexivity.
Qed.

Lemma count_newlines_char_at msg i :
  count_newlines msg = 0%nat → is_char newline (char_at msg i) = false.
Proof.
  unfold char_at. generalize (Z.to_nat i) as k. induction msg as [|c msg IH]; intros k.
  - by destruct k.
  - cbn [count_newlines]. destruct (is_char newline c) eqn:Hc; [done|].
    intros Hmsg. destruct k as [|k]; [done|]. by apply IH.
Qed.

Section BreakLinesFurther.
Variables (msg : string) (indentWidth maxWidth : Z).

(** X20.  The loop of [breakLines] comes to its end on every text and
    for all widths, negative ones and an indentation beyond the width
    included, although it steps back in the text at every break: it
    makes at most [(n + 2) * (n + 3)] passes on a text of [n] characters. *)
Theorem breakLines_total :
  ∃ outcome, breakLines msg indentWidth maxWidth = Some outcome.
Proof.
  destruct (breakLines_terminates msg indentWidth maxWidth) as [st Hst].
  by exists (breakLines_finish msg st).
Qed.

(** X21.  A text none of whose lines is longer than the maximum width
    comes back as it is, whatever the indentation. *)
Theorem breakLines_identity :
  fits (Z.to_nat maxWidth) 0 msg →
  breakLines msg indentWidth maxWidth = Some (Ok msg).
Proof. apply breakLines_fitting_text. Qed.

(** Every pass keeps [words_ok] on a text without a newline. *)
Lemma breakLines_body_words st :
  count_newlines msg = 0%nat →
  words_ok msg st → inPos st < Z.of_nat (String.length msg) →
  ∃ st', breakLines_body msg indentWidth maxWidth st = Ok st'
         ∧ words_ok msg st'
         ∧ 0 ≤ breakLines_measure msg st' < breakLines_measure msg st.
Proof.
  intros Hmsg (HG & Hstart & Hlast & Hspace & Hres) Hguard.
  destruct (breakLines_body_positions msg indentWidth maxWidth st HG Hguard)
    as (st' & Hbody & HG' & Hm).
  exists st'. split; [done|]. split; [|done]. split; [done|].
  destruct HG as ((Hpos0 & Hpos) & Hlb & _ & _).
  pose proof (count_newlines_char_at msg (inPos st) Hmsg) as Hc.
  assert (seen_break msg st ≤ inPos st) as Hseen
    by (unfold seen_break; destruct (isspace (char_at msg (inPos st))); lia).
  assert (startInPos st < seen_break msg st →
          isspace (char_at msg (seen_break msg st)) = true) as Hseen_space.
  { unfold seen_break. destruct (isspace (char_at msg (inPos st))) eqn:Hsp; [done|].
    apply Hspace. }
  destruct (Z.lt_ge_cases (ttyPos st) maxWidth) as [Htty|Htty].
  { rewrite breakLines_body_plain in Hbody by done. injection Hbody as <-.
    cbn [result_ startInPos inPos lastBreakPos ttyPos].
    split; [done|]. split; [lia|]. split; done. }
  destruct (Z.lt_ge_cases (startInPos st) (seen_break msg st)) as [Hbreak|Hbreak].
  - rewrite breakLines_body_space_break in Hbody by (done || lia).
    injection Hbody as <-. cbn [result_ startInPos inPos lastBreakPos ttyPos].
    split; [lia|]. split; [lia|]. split; [lia|].
    rewrite !nonspace_app, nonspace_line_break, app_empty_r, Hres.
    rewrite (stake_Z_split msg (startInPos st) (seen_break msg st + 1)) by lia.
    rewrite (substring_Z_split msg (startInPos st) (seen_break msg st)
               (seen_break msg st + 1)) by lia.
    replace (Z.to_nat (seen_break msg st + 1 - seen_break msg st)) with 1%nat by lia.
    rewrite substring_Z_one by lia.
    rewrite !nonspace_app. cbn [nonspace str1].
    by rewrite (Hseen_space Hbreak), app_empty_r.
  - rewrite breakLines_body_forced_break in Hbody by done.
    injection Hbody as <-. cbn [result_ startInPos inPos lastBreakPos ttyPos].
    split; [lia|]. split; [lia|]. split; [lia|].
    rewrite !nonspace_app, nonspace_line_break, app_empty_r, Hres.
    rewrite (stake_Z_split msg (startInPos st) (inPos st)) by lia.
    by rewrite nonspace_app.
Qed.

(** X22.  On a text without a newline [breakLines] returns a text, for
    all widths, and neither drops nor adds anything but white space: the
    other characters of the text come back, in their order. *)
Theorem breakLines_keeps_words :
  count_newlines msg = 0%nat →
  ∃ out, breakLines msg indentWidth maxWidth = Some (Ok out)
         ∧ nonspace out = nonspace msg.
Proof.
  intros Hmsg.
  destruct (breakLines_loop_invariant msg indentWidth maxWidth (words_ok msg)
              (λ st, breakLines_body_words st Hmsg)
              (breakLines_fuel msg) breakLines_init)
    as (st & Hloop & (HG & Hstart & _ & _ & Hres) & Hend).
  - split; [apply breakLines_init_positions|]. cbn. repeat split; (lia || done).
  - apply breakLines_init_measure.
  - destruct HG as ((Hpos0 & _) & _).
    exists (result_ st +:+ sdrop (Z.to_nat (startInPos st)) msg). split.
    + unfold breakLines. rewrite Hloop. unfold breakLines_finish.
      by rewrite substr_rest by lia.
    + rewrite nonspace_app, Hres, <- nonspace_app. by rewrite stake_sdrop.
Qed.

(** Every pass keeps [returning_ok] when the width is positive. *)
Lemma breakLines_body_returning st :
  1 ≤ maxWidth →
  returning_ok msg st → inPos st < Z.of_nat (String.length msg) →
  ∃ st', breakLines_body msg indentWidth maxWidth st = Ok st'
         ∧ returning_ok msg st'
         ∧ 0 ≤ breakLines_measure msg st' < breakLines_measure msg st.
Proof.
  intros Hwidth (HG & Hstart & Hlast) Hguard.
  destruct (breakLines_body_positions msg indentWidth maxWidth st HG Hguard)
    as (st' & Hbody & HG' & Hm).
  exists st'. split; [done|]. split; [|done]. split; [done|].
  destruct HG as ((Hpos0 & Hpos) & Hlb & _ & _).
  destruct (is_char newline (char_at msg (inPos st))) eqn:Hc.
  { rewrite breakLines_body_newline in Hbody by done. injection Hbody as <-.
    cbn [result_ startInPos inPos lastBreakPos ttyPos]. split; [lia|by right]. }
  destruct (Z.lt_ge_cases (ttyPos st) maxWidth) as [Htty|Htty].
  { rewrite breakLines_body_plain in Hbody by done. injection Hbody as <-.
    cbn [result_ startInPos inPos lastBreakPos ttyPos]. split; [done|]. left.
    unfold seen_break. destruct (isspace (char_at msg (inPos st))); lia. }
  assert (seen_break msg st ≤ inPos st) as Hseen
    by (unfold seen_break; destruct (isspace (char_at msg (inPos st))); lia).
  destruct (Z.lt_ge_cases (startInPos st) (seen_break msg st)) as [Hbreak|Hbreak].
  - rewrite breakLines_body_space_break in Hbody by (done || lia).
    injection Hbody as <-. cbn [result_ startInPos inPos lastBreakPos ttyPos].
    split; [lia|left; lia].
  - rewrite breakLines_body_forced_break in Hbody by done.
    injection Hbody as <-. cbn [result_ startInPos inPos lastBreakPos ttyPos].
    split; [lia|left; lia].
Qed.

(** X23.  With a maximum width of one or more [breakLines] returns a
    text and does not throw, whatever the text and the indentation. *)
Theorem breakLines_returns :
  1 ≤ maxWidth →
  ∃ out, breakLines msg indentWidth maxWidth = Some (Ok out).
Proof.
  intros Hwidth.
  destruct (breakLines_loop_invariant msg indentWidth maxWidth (returning_ok msg)
              (λ st, breakLines_body_returning st Hwidth)
              (breakLines_fuel msg) breakLines_init)
    as (st & Hloop & (HG & Hstart & _) & Hend).
  - split; [apply breakLines_init_positions|]. cbn. split; [lia|by left].
  - apply breakLines_init_measure.
  - destruct HG as ((Hpos0 & _) & _). eexists.
    unfold breakLines. rewrite Hloop. unfold breakLines_finish.
    by rewrite substr_rest by lia.
Qed.

End BreakLinesFurther.

Lemma breakLines_identity_witness :
  breakLines ("Print this help" +:+ str1 newline +:+ "message and exit") 52 16
  = Some (Ok ("Print this help" +:+ str1 newline +:+ "message and exit")).
Proof.
  apply (breakLines_identity ("Print this help" +:+ str1 newline +:+ "message and exit")
           52 16).
  vm_compute. repeat split; lia.
Defined.

Lemma breakLines_keeps_words_witness :
  ∃ out, breakLines "Relative weight of the upwind node" 4 12 = Some (Ok out)
         ∧ nonspace out = "Relativeweightoftheupwindnode".
Proof.
  apply (breakLines_keeps_words "Relative weight of the upwind node" 4 12).
  reflexivity.
Defined.

Lemma breakLines_returns_witness :
  ∃ out, breakLines (str1 newline +:+ "a") 5 1 = Some (Ok out).
Proof. apply (breakLines_returns (str1 newline +:+ "a") 5 1). lia. Defined.

(** With a maximum width of zero a text that ends with a newline and one
    more character makes [breakLines] throw: the last [substr] starts
    behind the end of the text. *)
Example breakLines_throws :
  breakLines (str1 newline +:+ "a") 0 0 = Some (Throw out_of_range).
Proof. vm_compute. reflexivity. Qed.

(** ** What the usage message prints, typed on the command line *)

Section UsageNames.
Context `{Ext : Externals}.

(** X24.  The option name [printParamUsage] prints for a canonical name
    that starts with an upper-case letter, followed by [=] and a value,
    is an argument [parseCommandLineOptions] takes: the value is stored
    under the canonical name. *)
Theorem cmdLineName_parsed prog paramName value helpPreamble cb md :
  valid_name paramName = true →
  starts_with isupper paramName = true →
  parseCommandLineOptions [prog; cmdLineName paramName +:+ String "=" value]
    helpPreamble cb md
  = (Ok EmptyString, with_tree (<[paramName := value]> (tree md)) md).
Proof.
  intros Hvalid Hupper.
  assert (transformKey (kebabCase paramName) true EmptyString = Ok paramName) as Htr.
  { destruct paramName as [|c rest]; [done|].
    apply andb_prop in Hvalid as [_ [_ Hrest]%andb_prop]. cbn [starts_with] in Hupper.
    unfold transformKey, kebabCase.
    rewrite (isalpha_tolower_upper _ Hupper). cbn [negb].
    rewrite (toupper_tolower_upper _ Hupper).
    by rewrite (transformKey_loop_hyphenate _ _ _ Hrest). }
  assert (cmdLineName paramName +:+ String "=" value
          = option_text (kebabCase paramName, value)) as ->.
  { destruct paramName as [|c rest]; [done|]. cbn [starts_with] in Hupper.
    rewrite (cmdLineName_upper _ _ Hupper). unfold option_text. cbn [fst snd].
    by rewrite !sapp_assoc. }
  apply (parseCommandLineOptions_named_list prog [(kebabCase paramName, value)] [paramName]).
  - by constructor.
  - apply NoDup_singleton.
Qed.

End UsageNames.

Lemma cmdLineName_parsed_witness :
  parseCommandLineOptions ["prog"; "--max-iterations=10"] "Usage" noPositionalParameters_
    MetaData_clear
  = (Ok EmptyString, with_tree (<["MaxIterations" := "10"]> ∅) MetaData_clear).
Proof.
  apply (cmdLineName_parsed "prog" "MaxIterations" "10"); reflexivity.
Defined.

(** ** The usage message *)

Lemma getTtyWidth_bound isatty have_TIOCGWINSZ ws_col :
  80 ≤ getTtyWidth isatty have_TIOCGWINSZ ws_col.
Proof. unfold getTtyWidth. destruct isatty, have_TIOCGWINSZ; lia. Qed.

(** With an indentation below the width [breakLines] returns the text
    with line breaks put in, and no line of it is longer than the width. *)
Lemma breakLines_lines msg indentWidth maxWidth :
  0 ≤ indentWidth < maxWidth →
  ∃ out, breakLines msg indentWidth maxWidth = Some (Ok out)
         ∧ fits (Z.to_nat maxWidth) 0 out
         ∧ wrapped indentWidth msg out.
Proof.
  intros widths.
  destruct (breakLines_loop_invariant msg indentWidth maxWidth
              (wrapping_ok msg indentWidth maxWidth)
              (λ st, breakLines_body_wrapping msg indentWidth maxWidth st widths)
              (breakLines_fuel msg) breakLines_init
              (breakLines_init_wrapping msg indentWidth maxWidth widths)
              (breakLines_init_measure msg))
    as (st & Hloop & (((Hpos & _) & _) & Hstart & _ & _ & _ & Hfits & Hwr) & Hend).
  assert (pending msg st = sdrop (Z.to_nat (startInPos st)) msg) as Hpending
    by (unfold pending; apply substring_to_end; lia).
  exists (written msg st). split; [|split; [done|]].
  - unfold breakLines. rewrite Hloop. unfold breakLines_finish.
    rewrite substr_rest by lia. cbn. unfold written. by rewrite Hpending.
  - unfold written. rewrite Hpending.
    rewrite <- (stake_sdrop (Z.to_nat (startInPos st)) msg) at 1.
    apply wrapped_app; [done|apply wrapped_refl].
Qed.

Section UsageProperties.
Variable className_of : CppType → string.
Variable HAVE_QUAD : bool.

(** X25.  Whatever the terminal, [printParamUsage] writes a text for
    every entry, and no line of it is longer than the width
    [getTtyWidth] returns: the message with line breaks of 52 blanks put
    in, and a newline at its end. *)
Theorem printParamUsage_fits isatty have_TIOCGWINSZ ws_col paramInfo :
  let ttyWidth := getTtyWidth isatty have_TIOCGWINSZ ws_col in
  ∃ out, printParamUsage className_of HAVE_QUAD ttyWidth paramInfo = Some (Ok out)
         ∧ fits (Z.to_nat ttyWidth) 0 out
         ∧ wrapped 52 (paramMessage_of className_of HAVE_QUAD paramInfo +:+ str1 newline)
                   out.
Proof.
  intros ttyWidth.
  pose proof (getTtyWidth_bound isatty have_TIOCGWINSZ ws_col) as Hwidth.
  fold ttyWidth in Hwidth.
  destruct (breakLines_lines (paramMessage_of className_of HAVE_QUAD paramInfo) 52 ttyWidth)
    as (out & Hout & Hfits & Hwrapped); [lia|].
  exists (out +:+ str1 newline). unfold printParamUsage. rewrite Hout.
  split; [done|]. split.
  - apply fits_app. split; [done|]. cbn. rewrite is_char_refl.
    split; [by apply fits_column|lia].
  - apply wrapped_app; [done|apply wrapped_refl].
Qed.

Lemma length_app_string s t :
  String.length (s +:+ t) = (String.length s + String.length t)%nat.
Proof. induction s as [|c s IH]; [done|]. rewrite app_String. cbn. by rewrite IH. Qed.

Lemma length_spaces k : String.length (spaces k) = k.
Proof. induction k as [|k IH]; [done|]. cbn. by rewrite IH. Qed.

Lemma fill_up_spaces fuel s :
  (50 - String.length s ≤ fuel)%nat →
  fill_up fuel s = s +:+ spaces (50 - String.length s).
Proof.
  revert s. induction fuel as [|fuel IH]; intros s Hfuel.
  - cbn [fill_up]. replace (50 - String.length s)%nat with 0%nat by lia.
    by rewrite app_empty_r.
  - cbn [fill_up]. destruct (Nat.ltb_spec (String.length s) 50) as [Hlt|Hge].
    + rewrite IH by (rewrite length_app_string; cbn; lia).
      rewrite length_app_string. cbn [String.length].
      replace (50 - String.length s)%nat with (S (50 - (String.length s + 1)))%nat by lia.
      cbn [spaces]. by rewrite sapp_assoc.
    + replace (50 - String.length s)%nat with 0%nat by lia. by rewrite app_empty_r.
Qed.

(** X26.  The layout of the message: the option with its value type,
    blanks up to column 50 and two at the least, the usage text, and for
    an entry with a type name the default behind it: a full stop unless
    the text before it ends in one, the word [Default:] between two
    blanks, and the default value, which is [false] or [true] for the
    type name [bool], according to whether the default text is [0], the
    default text between double quotes for a string type, and the default
    text as it is for every other type. *)
Theorem paramMessage_layout paramInfo :
  let option_part := "    " +:+ cmdLineName (paramName paramInfo)
                       +:+ value_type className_of HAVE_QUAD (paramTypeName paramInfo) in
  let text := option_part +:+ spaces (Nat.max 2 (50 - String.length option_part))
                +:+ usageString paramInfo in
  ∃ default_part,
    paramMessage_of className_of HAVE_QUAD paramInfo = text +:+ default_part
    ∧ (paramTypeName paramInfo = EmptyString → default_part = EmptyString)
    ∧ (paramTypeName paramInfo ≠ EmptyString →
       ∃ stop shown,
         default_part = stop +:+ " Default: " +:+ shown
         ∧ (back text = Some "."%char → stop = EmptyString)
         ∧ (back text ≠ Some "."%char → stop = ".")
         ∧ (paramTypeName paramInfo = "bool" → defaultValue paramInfo = "0" →
            shown = "false")
         ∧ (paramTypeName paramInfo = "bool" → defaultValue paramInfo ≠ "0" →
            shown = "true")
         ∧ (paramTypeName paramInfo ≠ "bool" →
            is_string_type className_of (paramTypeName paramInfo) = true →
            shown = str1 dquote +:+ defaultValue paramInfo +:+ str1 dquote)
         ∧ (paramTypeName paramInfo ≠ "bool" →
            is_string_type className_of (paramTypeName paramInfo) = false →
            shown = defaultValue paramInfo))
    ∧ (50 ≤ String.length option_part
             + String.length (spaces (Nat.max 2 (50 - String.length option_part))))%nat.
Proof.
  intros option_part text. unfold paramMessage_of.
  set (head := fill_up 50 _).
  assert (head = option_part +:+ spaces (Nat.max 2 (50 - String.length option_part)))
    as Hhead.
  { unfold head.
    replace (("    " +:+ cmdLineName (paramName paramInfo))
               +:+ value_type className_of HAVE_QUAD (paramTypeName paramInfo))
      with option_part by (unfold option_part; by rewrite sapp_assoc).
    rewrite fill_up_spaces by lia.
    rewrite length_app_string. cbn [String.length].
    rewrite sapp_assoc. f_equal.
    destruct (Nat.le_gt_cases (String.length option_part) 48) as [Hle|Hgt].
    - replace (Nat.max 2 (50 - String.length option_part))
        with (S (S (50 - (String.length option_part + 2)))) by lia.
      done.
    - replace (Nat.max 2 (50 - String.length option_part)) with 2%nat by lia.
      by replace (50 - (String.length option_part + 2))%nat with 0%nat by lia. }
  assert (Hlen : (50 ≤ String.length option_part
                      + String.length (spaces (Nat.max 2 (50 - String.length option_part))))%nat)
    by (rewrite length_spaces; lia).
  assert (head +:+ usageString paramInfo = text) as ->
    by (rewrite Hhead; unfold text; by rewrite sapp_assoc).
  clear head Hhead.
  destruct (String.eqb_spec (paramTypeName paramInfo) EmptyString) as [Hflag|Htyped].
  { exists EmptyString. by rewrite app_empty_r. }
  set (stop := if bool_decide (back text = Some "."%char) then EmptyString else ".").
  set (shown := if String.eqb (paramTypeName paramInfo) "bool"
                then if String.eqb (defaultValue paramInfo) "0" then "false" else "true"
                else if is_string_type className_of (paramTypeName paramInfo)
                     then str1 dquote +:+ defaultValue paramInfo +:+ str1 dquote
                     else defaultValue paramInfo).
  exists (stop +:+ " Default: " +:+ shown). split; [|split; [done|split; [|done]]].
  - unfold stop, shown. case_bool_decide;
      destruct (String.eqb _ "bool"); [destruct (String.eqb _ "0")| |
                                        destruct (String.eqb _ "0")|];
      try destruct (is_string_type _ _);
      by rewrite ?app_empty_r, ?sapp_assoc.
  - intros _. exists stop, shown. split; [done|]. unfold stop, shown.
    split; [by intros Hback; rewrite bool_decide_eq_true_2|].
    split; [by intros Hback; rewrite bool_decide_eq_false_2|].
    destruct (String.eqb_spec (paramTypeName paramInfo) "bool") as [Hbool|Hbool];
      destruct (String.eqb_spec (defaultValue paramInfo) "0") as [Hzero|Hzero];
      repeat split; try done; by intros _ ->.
Qed.

End UsageProperties.

(** X26 at two entries: a boolean one, whose usage text gets its full
    stop, and a string one, whose usage text has it already. *)
Lemma paramMessage_layout_witness :
  paramMessage_of gnu_className false
    {| paramName := "EnableDebug"; paramTypeName := "bool"; typeTagName := "EnableDebug";
       usageString := "Print more"; defaultValue := "0"; isHidden := false |}
  = "    --enable-debug=BOOLEAN" +:+ spaces 24 +:+ "Print more. Default: false"
  ∧ paramMessage_of gnu_className false
      {| paramName := "OutputDir"; paramTypeName := gnu_className Tstd_string;
         typeTagName := "OutputDir";
         usageString := "Where to write."; defaultValue := "out"; isHidden := false |}
    = "    --output-dir=STRING" +:+ spaces 27 +:+ "Where to write. Default: "
        +:+ quote "out".
Proof.
  split.
  - destruct (paramMessage_layout gnu_className false
                {| paramName := "EnableDebug"; paramTypeName := "bool";
                   typeTagName := "EnableDebug"; usageString := "Print more";
                   defaultValue := "0"; isHidden := false |})
      as (default_part & -> & _ & Htyped & _).
    destruct Htyped as (stop & shown & -> & _ & Hstop & Hfalse & _); [discriminate|].
    rewrite Hstop by discriminate. rewrite (Hfalse eq_refl eq_refl). reflexivity.
  - destruct (paramMessage_layout gnu_className false
                {| paramName := "OutputDir"; paramTypeName := gnu_className Tstd_string;
                   typeTagName := "OutputDir"; usageString := "Where to write.";
                   defaultValue := "out"; isHidden := false |})
      as (default_part & -> & _ & Htyped & _).
    destruct Htyped as (stop & shown & -> & Hstop & _ & _ & _ & Hquoted & _);
      [discriminate|].
    rewrite Hstop by reflexivity. rewrite Hquoted by (discriminate || reflexivity).
    reflexivity.
Defined.

(** ** Parameter names, lists and reports *)

Lemma sdrop_app prefix s : sdrop (String.length prefix) (prefix +:+ s) = s.
Proof. induction prefix as [|c prefix IH]; [by destruct s|]. by rewrite app_String. Qed.

Lemma before_char_app stop s rest :
  all_chars (λ c, negb (is_char stop c)) s = true →
  rest = EmptyString ∨ starts_with (is_char stop) rest = true →
  before_char stop (s +:+ rest) = s.
Proof.
  intros Hs Hrest. induction s as [|c s IH].
  - rewrite app_empty_l. destruct Hrest as [->|Hrest]; [done|].
    destruct rest as [|c rest]; [done|]. cbn in *. by rewrite Hrest.
  - apply andb_prop in Hs as [Hc Hs]. apply negb_true_iff in Hc.
    rewrite app_String. cbn [before_char]. by rewrite Hc, (IH Hs).
Qed.

(** X27.  For a parameter struct without a [name] member
    [getParamName] returns the class name without its first seventeen
    characters, whatever they are, and without the template arguments:
    of [Opm::Parameters::Name<...>] it returns [Name].  The name it
    returns has no [<]. *)
Theorem getParamName_class_name prefix paramName arguments :
  String.length prefix = 17%nat →
  all_chars (λ c, negb (is_char "<" c)) paramName = true →
  arguments = EmptyString ∨ starts_with (is_char "<") arguments = true →
  getParamName None (prefix +:+ paramName +:+ arguments) = paramName
  ∧ ∀ class_name,
      all_chars (λ c, negb (is_char "<" c)) (getParamName None class_name) = true.
Proof.
  intros Hprefix Hname Harguments. split.
  - unfold getParamName. rewrite <- Hprefix, sdrop_app. by apply before_char_app.
  - intros class_name. unfold getParamName.
    induction (sdrop 17 class_name) as [|c s IH]; [done|]. cbn [before_char].
    destruct (is_char "<" c) eqn:Hc; [done|]. cbn [all_chars]. by rewrite Hc, IH.
Qed.

Lemma getParamName_class_name_witness :
  getParamName None "Opm::Parameters::EnableDebug<double>" = "EnableDebug".
Proof.
  by destruct (getParamName_class_name "Opm::Parameters::" "EnableDebug" "<double>"
                 eq_refl eq_refl (or_intror eq_refl)) as [H _].
Defined.

Section ReportProperties.
Context `{Ext : Externals}.

(** A line that [printParamList] prints is a line that
    [parseParameterFile] reads. *)
Lemma param_text_parsed
    fileName overwrite curLineNum seenKeys md key value printDefaults defaultValue :
  valid_name key = true →
  starts_with isupper key = true →
  plain value = true →
  key ∉ seenKeys →
  parseParameterFile_line fileName overwrite curLineNum
    (param_text key value printDefaults defaultValue) seenKeys md
  = (Ok ({[key]} ∪ seenKeys),
     if overwrite || negb (hasKey (tree md) key)
     then with_tree (<[key := value]> (tree md)) md else md).
Proof.
  intros Hvalid Hupper Hplain Hnew.
  pose proof Hvalid as [Halpha Halnum]%andb_prop.
  assert (all_chars key_char key = true) as Hkey.
  { clear -Halnum. induction key as [|c key IH]; [done|].
    apply andb_prop in Halnum as [Hc Hkey]. cbn [all_chars].
    by rewrite (isalnum_key_char _ Hc), (IH Hkey). }
  assert (∀ errorPrefix, transformKey key true errorPrefix = Ok key) as Htr.
  { intros errorPrefix. destruct key as [|c key]; [done|]. cbn [starts_with] in *.
    apply andb_prop in Halnum as [_ Hrest]. cbn [transformKey].
    rewrite Halpha. cbn [negb].
    by rewrite (transformKey_loop_alnum _ _ _ Hrest), (toupper_upper _ Hupper). }
  unfold parseParameterFile_line, param_text.
  destruct key as [|c key]; [done|]. cbn [starts_with] in Halpha.
  rewrite removeLeadingSpace_id
    by (rewrite app_String; cbn [starts_with]; by apply isalpha_not_space).
  unfold blank_or_comment. rewrite app_String. cbn [String.eqb starts_with orb].
  rewrite (isalpha_not_comment _ Halpha). rewrite <- app_String.
  rewrite parseKey_app by done. rewrite Htr.
  rewrite bool_decide_eq_false_2 by done.
  change ("=" +:+ str1 dquote +:+ value +:+ str1 dquote
            +:+ (if printDefaults
                 then " # default: " +:+ str1 dquote +:+ defaultValue +:+ str1 dquote
                 else EmptyString))
    with (String "=" (String dquote
            (value +:+ String dquote
               (if printDefaults
                then " # default: " +:+ str1 dquote +:+ defaultValue +:+ str1 dquote
                else EmptyString)))).
  rewrite removeLeadingSpace_id by done. cbn [substr_from].
  rewrite removeLeadingSpace_id by done. cbn [starts_with]. rewrite is_char_refl.
  rewrite (parseQuotedValue_plain _ _ _ Hplain).
  by destruct (overwrite || negb (hasKey (tree md) (String c key))).
Qed.

Lemma unknown_keys_filter allKeys md :
  unknown_keys allKeys md = filter (λ key, registry md !! key = None) allKeys.
Proof.
  unfold unknown_keys.
  assert (∀ acc, foldl (λ unknownKeyList key,
                          if bool_decide (registry md !! key = None)
                          then unknownKeyList ++ [key] else unknownKeyList) acc allKeys
                 = acc ++ filter (λ key, registry md !! key = None) allKeys) as H.
  { induction allKeys as [|key allKeys IH]; intros acc; [by rewrite app_nil_r|].
    cbn [foldl]. rewrite IH, filter_cons. case_bool_decide as Hkey.
    - rewrite decide_True by done. by rewrite <- app_assoc.
    - by rewrite decide_False by done. }
  apply (H []).
Qed.

(** X28.  [printUnused] returns [true] exactly when the value store
    holds a key without an entry in the registry; otherwise it writes
    nothing.  What it writes starts with the heading, a comment line of a
    parameter file. *)
Theorem printUnused_reports runTimeAllKeyList md :
  ((printUnused runTimeAllKeyList md).2 = true
   ↔ ∃ key, key ∈ runTimeAllKeyList ∧ registry md !! key = None)
  ∧ ((printUnused runTimeAllKeyList md).2 = false →
     (printUnused runTimeAllKeyList md).1 = EmptyString)
  ∧ ((printUnused runTimeAllKeyList md).2 = true →
     ∃ lines, (printUnused runTimeAllKeyList md).1
              = "# [unused run-time specified parameters]" +:+ str1 newline +:+ lines).
Proof.
  unfold printUnused. rewrite unknown_keys_filter.
  destruct (filter _ runTimeAllKeyList) as [|key keys] eqn:Hfilter; cbn [length Nat.ltb Nat.leb snd fst].
  - split; [|split; [done|done]]. split; [done|].
    intros (key & Hin & Hnone).
    assert (key ∈ filter (λ key, registry md !! key = None) runTimeAllKeyList) as Hkey
      by (by apply list_elem_of_filter).
    rewrite Hfilter in Hkey. by apply elem_of_nil in Hkey.
  - split; [|split; [done|by eexists]]. split; [|done]. intros _.
    assert (key ∈ filter (λ key, registry md !! key = None) runTimeAllKeyList) as Hkey
      by (rewrite Hfilter; by left).
    apply list_elem_of_filter in Hkey as [Hnone Hin]. by exists key.
Qed.

Lemma getLists_fold allKeysList md used unused :
  foldl (λ '(usedParams, unusedParams) key,
           if bool_decide (registry md !! key = None)
           then (usedParams, unusedParams ++ [(key, tree_text (tree md) key)])
           else (usedParams ++ [(key, tree_text (tree md) key)], unusedParams))
        (used, unused) allKeysList
  = (used ++ ((λ key, (key, tree_text (tree md) key))
                <$> filter (λ key, registry md !! key ≠ None) allKeysList),
     unused ++ ((λ key, (key, tree_text (tree md) key))
                  <$> filter (λ key, registry md !! key = None) allKeysList)).
Proof.
  revert used unused. induction allKeysList as [|key allKeysList IH]; intros used unused.
  - cbn. by rewrite !app_nil_r.
  - cbn [foldl]. rewrite !filter_cons. case_bool_decide as Hkey.
    + rewrite IH. rewrite (decide_True (P := registry md !! key = None)) by done.
      rewrite (decide_False (P := registry md !! key ≠ None)) by (by intros H).
      by rewrite fmap_cons, <- app_assoc.
    + rewrite IH. rewrite (decide_False (P := registry md !! key = None)) by done.
      rewrite (decide_True (P := registry md !! key ≠ None)) by done.
      by rewrite fmap_cons, <- app_assoc.
Qed.

(** X29.  While the registration is open [getLists] throws the runtime
    error that the lists can only be retrieved after all parameters have
    been registered, and leaves both lists empty.  On a closed registry it sorts the keys of the
    value store, each with its stored text, into the two lists and keeps
    their order: [usedParams] gets the keys with an entry in the registry,
    [unusedParams] the others. *)
Theorem getLists_sorts allKeysList md :
  (registrationOpen md = true →
   getLists allKeysList md
   = (Throw (runtime_error
        "Parameter lists can only retrieved after _all_ of them have been registered."),
      ([], [])))
  ∧ (registrationOpen md = false →
     Forall (λ key, is_Some (tree md !! key)) allKeysList →
     ∃ usedParams unusedParams,
       getLists allKeysList md = (Ok tt, (usedParams, unusedParams))
       ∧ usedParams.*1 = filter (λ key, registry md !! key ≠ None) allKeysList
       ∧ unusedParams.*1 = filter (λ key, registry md !! key = None) allKeysList
       ∧ Forall (λ kv, tree md !! kv.1 = Some kv.2) (usedParams ++ unusedParams)).
Proof.
  unfold getLists. split; intros Hopen; rewrite Hopen; [done|].
  intros Hkeys. rewrite getLists_fold. cbn [app].
  eexists _, _. split; [done|].
  assert (∀ keys : list string, ((λ key, (key, tree_text (tree md) key)) <$> keys).*1 = keys)
    as Hfst.
  { intros keys. rewrite <- list_fmap_compose. apply list_fmap_id. }
  split; [apply Hfst|]. split; [apply Hfst|].
  rewrite Forall_forall in Hkeys.
  assert (∀ P (HP : ∀ x, Decision (P x)),
            Forall (λ kv : string * string, tree md !! kv.1 = Some kv.2)
              ((λ key, (key, tree_text (tree md) key)) <$> filter P allKeysList)) as Hvalues.
  { intros P HP. apply Forall_fmap, Forall_forall.
    intros key [_ Hin]%list_elem_of_filter. cbn. unfold tree_text.
    destruct (Hkeys key Hin) as [text ->]. done. }
  apply Forall_app. split; apply Hvalues.
Qed.

End ReportProperties.

Lemma getlines_line s rest :
  count_newlines s = 0%nat →
  getlines (s +:+ String newline rest) = s :: getlines rest.
Proof.
  induction s as [|c s IH]; [by rewrite app_empty_l|].
  cbn [count_newlines]. destruct (is_char newline c) eqn:Hc; [done|].
  intros Hs. rewrite app_String. cbn [getlines]. by rewrite Hc, (IH Hs).
Qed.

Lemma getline_calls_line s :
  count_newlines s = 0%nat →
  getline_calls (s +:+ str1 newline) = [s; EmptyString].
Proof. intros Hs. unfold getline_calls, str1. by rewrite (getlines_line _ _ Hs). Qed.

Lemma isalnum_not_newline c : isalnum c = true → is_char newline c = false.
Proof. by_cases_on_char c. Qed.

Lemma count_newlines_alnum s : all_chars isalnum s = true → count_newlines s = 0%nat.
Proof.
  induction s as [|c s IH]; [done|]. intros [Hc Hs]%andb_prop. cbn [count_newlines].
  by rewrite (isalnum_not_newline _ Hc), (IH Hs).
Qed.

Section ReportsRead.
Context `{Ext : Externals}.

(** X30.  What [printParamList] prints can be read back: for a
    registered parameter with a canonical name that starts with an
    upper-case letter, whose value and default are free of quotes,
    backslashes and newlines, the text printed for it, read by
    [parseParameterFile], puts the printed value into the store under
    the name of the parameter. *)
Theorem printParamList_parsed
    fileName overwrite md md0 key paramInfo printDefaults value :
  registry md !! key = Some paramInfo →
  value = (if hasKey (tree md) key then tree_text (tree md) key
           else defaultValue paramInfo) →
  valid_name key = true →
  starts_with isupper key = true →
  plain value = true →
  count_newlines value = 0%nat →
  count_newlines (defaultValue paramInfo) = 0%nat →
  (printParamList [key] printDefaults md).2 = Ok tt
  ∧ parseParameterFile fileName (Some (printParamList [key] printDefaults md).1)
      overwrite md0
    = (Ok tt,
       if overwrite || negb (hasKey (tree md0) key)
       then with_tree (<[key := value]> (tree md0)) md0 else md0).
Proof.
  intros Hinfo Hvalue Hvalid Hupper Hplain Hnl Hdefault.
  cbn [printParamList]. rewrite Hinfo, <- Hvalue. cbn [fst snd].
  split; [done|]. rewrite app_empty_r.
  assert (count_newlines (param_text key value printDefaults (defaultValue paramInfo))
          = 0%nat) as Hline.
  { pose proof Hvalid as [_ Halnum]%andb_prop. unfold param_text.
    rewrite !count_newlines_app, (count_newlines_alnum _ Halnum), Hnl.
    destruct printDefaults; [|done].
    rewrite !count_newlines_app, Hdefault. reflexivity. }
  unfold parseParameterFile. rewrite (getline_calls_line _ Hline).
  cbn [parseParameterFile_loop].
  rewrite param_text_parsed by (done || apply not_elem_of_empty).
  by destruct (overwrite || negb (hasKey (tree md0) key)).
Qed.

End ReportsRead.

Lemma printParamList_parsed_witness :
  (printParamList ["EnableDebug"] true Sample.closed_store).1
  = "EnableDebug=" +:+ str1 dquote +:+ "true" +:+ str1 dquote
      +:+ " # default: " +:+ str1 dquote +:+ "0" +:+ str1 dquote +:+ str1 newline
  ∧ parseParameterFile "params.ini"
      (Some (printParamList ["EnableDebug"] true Sample.closed_store).1) true
      MetaData_clear
    = (Ok tt, with_tree (<["EnableDebug" := "true"]> ∅) MetaData_clear).
Proof.
  split; [reflexivity|].
  by destruct (printParamList_parsed "params.ini" true Sample.closed_store MetaData_clear
                 "EnableDebug" (info_of Sample.EnableDebug "Print more") true "true"
                 eq_refl eq_refl eq_refl eq_refl eq_refl eq_refl eq_refl) as [_ H].
Defined.
